(** * tyssue: history recording and the sheet vertex model

    A shallow embedding of [tyssue/core/history.py] and of
    [tyssue/dynamics/sheet_vertex_model.py], with the properties of the
    natural-language description that concern them.

    - Python dictionaries are finite maps ([gmap]); dictionaries whose
      insertion order is observable are association lists.
    - Python exceptions are the [Raise] outcomes of the [result] monad.
    - pandas data frames are lists of rows.
    - floating-point quantities are idealised as real numbers, except in
      [dimentionalize], which is stated over an arbitrary interpretation
      of [*] and [**]. *)

From Stdlib Require Import Reals Lra ZArith.
From stdpp Require Import gmap strings list sorting.

(** ** Outcomes of Python calls *)

Inductive exn :=
  | KeyError (k : string)
  | IndexError
  | ValueError (k : string)
  | TypeError
  | RecursionError
  | OverflowError
  | UndefinedVariableError (k : string).

Inductive result (A : Type) :=
  | Ok (a : A)
  | Raise (e : exn).
Arguments Ok {A} a.
Arguments Raise {A} e.

#[global] Instance result_ret : MRet result := @Ok.
#[global] Instance result_bind : MBind result := λ A B f m,
  match m with Ok a => f a | Raise e => Raise e end.

#[global] Instance result_fmap : FMap result := λ A B f m,
  match m with Ok a => Ok (f a) | Raise e => Raise e end.

Definition is_Ok {A} (r : result A) : Prop := ∃ a, r = Ok a.

(** ** Insertion-ordered dictionaries *)

Section alist.
Context {V : Type}.

Fixpoint alist_lookup (k : string) (l : list (string * V)) : option V :=
  match l with
  | [] => None
  | (k', v) :: l => if decide (k = k') then Some v else alist_lookup k l
  end.

(** [d[k] = v]: an existing key keeps its position, a new key goes last. *)
Fixpoint alist_set (k : string) (v : V) (l : list (string * V)) : list (string * V) :=
  match l with
  | [] => [(k, v)]
  | (k', v') :: l =>
      if decide (k = k') then (k, v) :: l else (k', v') :: alist_set k v l
  end.
End alist.

(** * History *)

Module History.

Local Open Scope Z_scope.

(** ** Data frames

    A frame has a list of column labels, in which a label may occur more
    than once, and rows.  A row carries its index label and one cell per
    label: the columns that carry the same label hold the same cells,
    as do the columns that [History] makes by selecting a label twice.
    Cells are numbers, which [History] only copies and, for time ids,
    compares. *)

Record DataFrame := mkDF {
  df_columns : list string;
  df_rows : list (Z * gmap string Z)
}.

(** The columns that [df[cols]] selects from a frame with the labels
    [have]: for each requested label in turn, every column that
    carries it. *)
Definition select_labels (cols have : list string) : list string :=
  flat_map (λ c, List.filter (λ c', bool_decide (c' = c)) have) cols.

(** [df[cols]] with a list of labels. *)
Definition getitem (cols : list string) (df : DataFrame) : result DataFrame :=
  match List.find (λ c, bool_decide (c ∉ df_columns df)) cols with
  | Some c => Raise (KeyError c)
  | None =>
      Ok (mkDF (select_labels cols (df_columns df))
            (map (λ ir : Z * gmap string Z,
                    (ir.1, filter (λ kv : string * Z, kv.1 ∈ cols) ir.2))
               (df_rows df)))
  end.

(** [df.reset_index(drop=False)] on a frame whose index is named [name]:
    the labels become a column and the rows are renumbered. *)
Definition reset_index (name : string) (df : DataFrame) : result DataFrame :=
  if decide (name ∈ df_columns df) then Raise (ValueError name)
  else Ok (mkDF (name :: df_columns df)
             (imap (λ k (ir : Z * gmap string Z),
                      (Z.of_nat k, <[name := ir.1]> ir.2))
                (df_rows df))).

(** [df[col] = v] with a scalar [v]. *)
Definition setitem (col : string) (v : Z) (df : DataFrame) : DataFrame :=
  mkDF (if decide (col ∈ df_columns df) then df_columns df
        else df_columns df ++ [col])
       (map (λ ir : Z * gmap string Z, (ir.1, <[col := v]> ir.2)) (df_rows df)).

(** [pd.concat([a, b], ignore_index=True, axis=0, sort=False)]. *)
Definition concat_rows (a b : DataFrame) : DataFrame :=
  mkDF (df_columns a ++ List.filter (λ c, bool_decide (c ∉ df_columns a)) (df_columns b))
       (imap (λ k (ir : Z * gmap string Z), (Z.of_nat k, ir.2))
          (df_rows a ++ df_rows b)).

(** [df.set_index(name)]. *)
Definition set_index (name : string) (df : DataFrame) : result DataFrame :=
  if decide (name ∈ df_columns df) then
    Ok (mkDF (List.filter (λ c, bool_decide (c ≠ name)) (df_columns df))
          (map (λ ir : Z * gmap string Z, (ir.2 !!! name, delete name ir.2))
             (df_rows df)))
  else Raise (KeyError name).

(** ** The recorded sheet *)

(** The labels of the columns of a frame are distinct. *)
Definition distinct_labels (df : DataFrame) : bool :=
  bool_decide (NoDup (df_columns df)).

(** The tables of a sheet: one column per label. *)
Record Sheet := mkSheet {
  coords : list string;
  vert_df : DataFrame;
  face_df : DataFrame;
  edge_df : DataFrame;
  cell_df : option DataFrame;
  sheet_labels :
    Is_true (distinct_labels vert_df && distinct_labels face_df &&
             distinct_labels edge_df && from_option distinct_labels true cell_df)
}.

(** [sheet.datasets[element]]. *)
Definition sheet_dataset (sheet : Sheet) (element : string) : result DataFrame :=
  if decide (element = "vert") then Ok (vert_df sheet)
  else if decide (element = "face") then Ok (face_df sheet)
  else if decide (element = "edge") then Ok (edge_df sheet)
  else if decide (element = "cell") then
    match cell_df sheet with Some d => Ok d | None => Raise (KeyError element) end
  else Raise (KeyError element).

(** ** [_filter_columns] *)

(** A warning names the element and the requested columns the sheet lacks. *)
Record Warning := mkWarning {
  w_element : string;
  w_missing : gset string
}.

Definition _filter_columns (cols_hist cols_in : list string) (element : string)
  : list string * list Warning :=
  if decide ((list_to_set cols_hist : gset string) ⊆ list_to_set cols_in)
  then (cols_hist, [])
  else (elements ((list_to_set cols_hist : gset string) ∩ list_to_set cols_in),
        [mkWarning element (list_to_set cols_hist ∖ list_to_set cols_in)]).

(** ** The [History] object *)

Record History := mkHistory {
  time_id : Z;
  datasets : list (string * DataFrame);
  columns : list (string * list string);
  time_index : list Z;
  time_stamps : list Z
}.

(** The block of [__init__] that is repeated for each element: filter the
    requested columns, copy them out of the sheet and stamp them with time 0. *)
Definition init_element (element label : string) (cols : list string) (df : DataFrame)
  : result (list string * DataFrame * list Warning) :=
  let '(cols', w) := _filter_columns cols (df_columns df) label in
  sel ← getitem cols' df;
  h ← reset_index element sel;
  let h := if decide ("time_id" ∈ cols') then h else setitem "time_id" 0 h in
  Ok (cols', h, w).

(** [defaultdict(list, **extra_cols)[k]]. *)
Definition extra (extra_cols : gmap string (list string)) (k : string) : list string :=
  default [] (extra_cols !! k).

Definition init (sheet : Sheet) (extra_cols : gmap string (list string))
  : result (History * list Warning) :=
  '(vcols, vert_h, wv) ←
     init_element "vert" "vertex" (coords sheet ++ extra extra_cols "vert") (vert_df sheet);
  let ds := alist_set "vert" vert_h [] in
  let cs := alist_set "vert" vcols [] in
  '(fcols, face_h, wf) ←
     init_element "face" "face" (extra extra_cols "face") (face_df sheet);
  let ds := alist_set "face" face_h ds in
  let cs := alist_set "face" fcols cs in
  '(ds, cs, extra_edge, wc) ←
     match cell_df sheet with
     | Some cdf =>
         '(ccols, cell_h, wc) ←
            init_element "cell" "cell" (extra extra_cols "cell") cdf;
         Ok (alist_set "cell" cell_h ds, alist_set "cell" ccols cs,
             extra extra_cols "edge" ++ ["cell"], wc)
     | None => Ok (ds, cs, extra extra_cols "edge", [])
     end;
  '(ecols, edge_h, we) ←
     init_element "edge" "edge" (["srce"; "trgt"; "face"] ++ extra_edge) (edge_df sheet);
  let ds := alist_set "edge" edge_h ds in
  let cs := alist_set "edge" ecols cs in
  Ok (mkHistory 0 ds cs [] [], wv ++ wf ++ wc ++ we).

(** ** [record]

    The sheet is a shared mutable object: [record] reads the state it has
    at the time of the call, passed here as [sheet].  An exception leaves
    the updates made before it in place, so the outcome is the new state
    together with the exception, if any. *)

Definition record_element (t : Z) (sheet : Sheet) (h : History) (element : string)
  : result History :=
  hist ← from_option Ok (Raise (KeyError element)) (alist_lookup element (datasets h));
  cols ← from_option Ok (Raise (KeyError element)) (alist_lookup element (columns h));
  src ← sheet_dataset sheet element;
  sel ← getitem cols src;
  df ← reset_index element sel;
  let df := if decide ("time_id" ∈ cols) then df else setitem "time_id" t df in
  Ok (mkHistory (time_id h) (alist_set element (concat_rows hist df) (datasets h))
        (columns h) (time_index h) (time_stamps h)).

Fixpoint record_loop (t : Z) (sheet : Sheet) (h : History) (to_record : list string)
  : History * option exn :=
  match to_record with
  | [] => (h, None)
  | element :: rest =>
      match record_element t sheet h element with
      | Ok h' => record_loop t sheet h' rest
      | Raise e => (h, Some e)
      end
  end.

Definition record (h : History) (sheet : Sheet) (to_record : list string)
    (time_stamp : option Z) : History * option exn :=
  let t := time_id h + 1 in
  let h := mkHistory t (datasets h) (columns h) (time_index h ++ [t])
             (match time_stamp with
              | Some s => time_stamps h ++ [s]
              | None => time_stamps h
              end) in
  record_loop t sheet h to_record.

(** ** [retrieve] *)

Definition row_time (ir : Z * gmap string Z) : Z := ir.2 !!! "time_id".

Definition _retrieve (dset : DataFrame) (time_id : Z) : result DataFrame :=
  if decide ("time_id" ∈ df_columns dset) then
    let times := map row_time (df_rows dset) in
    match last (List.filter (λ t, bool_decide (t ≤ time_id)) times) with
    | None => Raise IndexError
    | Some t =>
        Ok (mkDF (df_columns dset)
              (List.filter (λ ir, bool_decide (row_time ir = t)) (df_rows dset)))
    end
  else Raise (KeyError "time_id").

Definition retrieve_element (h : History) (index : Z) (element : string)
    (hist : DataFrame) : result DataFrame :=
  cols ← from_option Ok (Raise (KeyError element)) (alist_lookup element (columns h));
  df ← _retrieve hist index;
  df ← set_index element df;
  getitem cols df.

Fixpoint retrieve_loop (h : History) (index : Z) (ds : list (string * DataFrame))
  : result (list (string * DataFrame)) :=
  match ds with
  | [] => Ok []
  | (element, hist) :: ds =>
      df ← retrieve_element h index element hist;
      rest ← retrieve_loop h index ds;
      Ok ((element, df) :: rest)
  end.

Definition retrieve (h : History) (index : Z) : result (list (string * DataFrame)) :=
  retrieve_loop h index (datasets h).

End History.

(** * Model specifications: [SheetModel.dimentionalize]

    A specification is a dictionary of dictionaries of numbers.  Python
    dictionaries are mutable objects reached through references, so the
    embedding keeps them in a heap; [deepcopy] allocates the copies there
    and the assignments of [dimentionalize] are writes to the heap.

    The numbers are left abstract: the function is embedded over an
    arbitrary interpretation of Python's [*] and [**], so that what is
    proved of it does not depend on an idealisation of floating point.
    A product of floats out of range is an infinity, a value; a power
    out of range raises OverflowError, which is the outcome [None]. *)

Class Arith (num : Type) := {
  mul : num → num → num;           (* x * y *)
  pow_2 : num → option num;        (* x ** 2, or OverflowError *)
  pow_1_5 : num → option num       (* x ** 1.5, or OverflowError *)
}.

Inductive val (num : Type) :=
  | VNum (n : num)
  | VRef (l : positive).
Arguments VNum {num} n.
Arguments VRef {num} l.

Abbreviation heap num := (gmap positive (gmap string (val num))).
Abbreviation memo := (gmap positive positive).

Module Spec.
Section spec.
Context {num : Type} `{Arith num}.

(** ** Computations on the heap *)

Definition py (A : Type) : Type := heap num → result A * heap num.
Definition ret {A} (a : A) : py A := λ h, (Ok a, h).
Definition raise {A} (e : exn) : py A := λ h, (Raise e, h).
Definition bind {A B} (m : py A) (f : A → py B) : py B := λ h,
  match m h with
  | (Ok a, h') => f a h'
  | (Raise e, h') => (Raise e, h')
  end.

Notation "'let*' x ':=' m 'in' f" := (bind m (λ x, f))
  (at level 10, x name, m at level 100, f at level 200).

(** [x[k]]; a reference always points into the heap, an absent object
    reads as the empty dictionary. *)
Definition subscript (x : val num) (k : string) : py (val num) := λ h,
  match x with
  | VNum _ => (Raise TypeError, h)
  | VRef l =>
      match (h !!! l) !! k with
      | Some v => (Ok v, h)
      | None => (Raise (KeyError k), h)
      end
  end.

(** [x[k] = v] *)
Definition store (x : val num) (k : string) (v : val num) : py unit := λ h,
  match x with
  | VNum _ => (Raise TypeError, h)
  | VRef l => (Ok (), <[l := <[k := v]> (h !!! l)]> h)
  end.

(** [k in x] *)
Definition contains (k : string) (x : val num) : py bool := λ h,
  match x with
  | VNum _ => (Raise TypeError, h)
  | VRef l => (Ok (bool_decide (is_Some ((h !!! l) !! k))), h)
  end.

Definition py_mul (a b : val num) : py (val num) :=
  match a, b with
  | VNum x, VNum y => ret (VNum (mul x y))
  | _, _ => raise TypeError
  end.

Definition py_pow (pow : num → option num) (a : val num) : py (val num) :=
  match a with
  | VNum x =>
      match pow x with
      | Some y => ret (VNum y)
      | None => raise OverflowError
      end
  | VRef _ => raise TypeError
  end.

Definition py_pow_2 : val num → py (val num) := py_pow pow_2.
Definition py_pow_1_5 : val num → py (val num) := py_pow pow_1_5.

(** ** [copy.deepcopy]

    Numbers are returned as they are.  A dictionary already in the memo
    is returned from it; otherwise a new dictionary is allocated,
    entered in the memo and filled with the copies of the items.
    [limit] is the interpreter's recursion limit. *)

Definition copy_item
    (copy : val num → heap num * memo → result (val num) * (heap num * memo))
    (y : positive) (st : result unit * (heap num * memo)) (kv : string * val num)
  : result unit * (heap num * memo) :=
  match st with
  | (Ok _, s) =>
      match copy kv.2 s with
      | (Ok v', (h, m)) => (Ok (), (<[y := <[kv.1 := v']> (h !!! y)]> h, m))
      | (Raise e, s') => (Raise e, s')
      end
  | (Raise e, s) => (Raise e, s)
  end.

Fixpoint deepcopy_memo (limit : nat) (x : val num) (s : heap num * memo)
  : result (val num) * (heap num * memo) :=
  match x with
  | VNum n => (Ok (VNum n), s)
  | VRef l =>
      match s.2 !! l with
      | Some y => (Ok (VRef y), s)
      | None =>
          match limit with
          | O => (Raise RecursionError, s)
          | S limit =>
              let y := fresh (dom s.1) in
              let s' := (<[y := ∅]> s.1, <[l := y]> s.2) in
              match foldl (copy_item (deepcopy_memo limit) y) (Ok (), s')
                      (map_to_list (s.1 !!! l)) with
              | (Ok _, s'') => (Ok (VRef y), s'')
              | (Raise e, s'') => (Raise e, s'')
              end
          end
      end
  end.

Definition deepcopy (limit : nat) (x : val num) : py (val num) := λ h,
  let '(r, (h', _)) := deepcopy_memo limit x (h, ∅) in (r, h').

(** ** [dimentionalize] *)

(** [x[k1][k2]] and [x[k1][k2] = v] *)
Definition subscript2 (x : val num) (k1 k2 : string) : py (val num) :=
  let* y := subscript x k1 in subscript y k2.
Definition store2 (x : val num) (k1 k2 : string) (v : val num) : py unit :=
  let* y := subscript x k1 in store y k2 v.

Definition dimentionalize (limit : nat) (mod_specs : val num) : py (val num) :=
  let* dim_mod_specs := deepcopy limit mod_specs in
  let* Kv := subscript2 dim_mod_specs "face" "vol_elasticity" in
  let* A0 := subscript2 dim_mod_specs "face" "prefered_area" in
  let* h0 := subscript2 dim_mod_specs "face" "prefered_height" in
  let* gamma := subscript2 dim_mod_specs "face" "contractility" in
  (* gamma * Kv * A0 * h0**2 *)
  let* t := py_mul gamma Kv in
  let* t := py_mul t A0 in
  let* p := py_pow_2 h0 in
  let* t := py_mul t p in
  let* _ := store2 dim_mod_specs "face" "contractility" t in
  (* A0 * h0 *)
  let* t := py_mul A0 h0 in
  let* _ := store2 dim_mod_specs "face" "prefered_vol" t in
  let* lbda := subscript2 dim_mod_specs "edge" "line_tension" in
  (* lbda * Kv * A0**1.5 * h0**2 *)
  let* t := py_mul lbda Kv in
  let* p := py_pow_1_5 A0 in
  let* t := py_mul t p in
  let* p := py_pow_2 h0 in
  let* t := py_mul t p in
  let* _ := store2 dim_mod_specs "edge" "line_tension" t in
  (* Kv * A0**1.5 * h0**2 *)
  let* p := py_pow_1_5 A0 in
  let* t := py_mul Kv p in
  let* p := py_pow_2 h0 in
  let* t := py_mul t p in
  let* _ := store2 dim_mod_specs "settings" "grad_norm_factor" t in
  (* Kv * (A0*h0)**2 *)
  let* t := py_mul A0 h0 in
  let* p := py_pow_2 t in
  let* t := py_mul Kv p in
  let* _ := store2 dim_mod_specs "settings" "nrj_norm_factor" t in
  let* edge := subscript dim_mod_specs "edge" in
  let* anchored := contains "anchor_elasticity" edge in
  let* _ :=
    (if anchored : bool then
       let* ka := subscript2 dim_mod_specs "edge" "anchor_elasticity" in
       (* ka * Kv * A0 * h0**2 *)
       let* t := py_mul ka Kv in
       let* t := py_mul t A0 in
       let* p := py_pow_2 h0 in
       let* t := py_mul t p in
       store2 dim_mod_specs "edge" "anchor_elasticity" t
     else ret ()) in
  ret dim_mod_specs.

End spec.
End Spec.

(** * The sheet vertex model: [compute_energy] and [compute_gradient]

    Vertices, half-edges and faces are the rows of three tables; the id of
    a row is its position.  Quantities are real numbers. *)

Module SheetModel.

Local Open Scope R_scope.

(** ** Vectors: the rows of a frame with one column per coordinate *)

Record vec := mkvec { vx : R; vy : R; vz : R }.

Definition vzero : vec := mkvec 0 0 0.
Definition vadd (a b : vec) : vec := mkvec (vx a + vx b) (vy a + vy b) (vz a + vz b).
Definition vsub (a b : vec) : vec := mkvec (vx a - vx b) (vy a - vy b) (vz a - vz b).
Definition vmul (a b : vec) : vec := mkvec (vx a * vx b) (vy a * vy b) (vz a * vz b).
Definition vdiv (a : vec) (k : R) : vec := mkvec (vx a / k) (vy a / k) (vz a / k).

(** Modelled from the spec: [_to_3d] of [utils.py], whose source is
    missing.  It turns a column into the elementwise mask of a frame: the
    column repeated once per coordinate. *)
Definition _to_3d (col : list R) : list vec := map (λ x, mkvec x x x) col.

(** [Series.sum()] and the sum of the rows of a frame. *)
Definition Rsum (l : list R) : R := foldl Rplus 0 l.
Definition vsum (l : list vec) : vec := foldl vadd vzero l.

(** ** The tables *)

Record Vert := mkVert {
  is_active : Z;
  height : R
}.

Record Edge := mkEdge {
  srce : nat;
  trgt : nat;
  face : nat;
  line_tension : R;
  length : R;
  sub_area : R;
  is_anchor : R;          (* read only when the column exists *)
  anchor_elasticity : R   (* read only when the column exists *)
}.

Record Face := mkFace {
  is_alive : Z;
  vol : R;
  prefered_vol : R;
  vol_elasticity : R;
  contractility : R;
  perimeter : R
}.

Record Sheet := mkSheet {
  vert_df : list Vert;
  edge_df : list Edge;
  face_df : list Face;
  (** whether [edge_df] has the columns is_anchor and anchor_elasticity *)
  has_is_anchor : bool;
  has_anchor_elasticity : bool;
  (** [sheet.specs['settings']] *)
  settings : gmap string R
}.

Definition setting (sheet : Sheet) (k : string) : result R :=
  from_option Ok (Raise (KeyError k)) (settings sheet !! k).

(** A column of [edge_df] that may not exist, as [eval] reads it. *)
Definition anchor_columns (sheet : Sheet) : result unit :=
  if has_anchor_elasticity sheet then
    if has_is_anchor sheet then Ok () else Raise (UndefinedVariableError "is_anchor")
  else Raise (UndefinedVariableError "anchor_elasticity").

(** ** Upcasting and summing *)

(** Modelled from the spec: the upcast methods of the sheet class, whose
    source is missing.  "Upcast" is the broadcast of a per-face or
    per-vertex value onto every half-edge referencing that face or
    vertex, an index-based join keyed by the id; an id absent from the
    table is a KeyError. *)
Definition upcast {A} (key : Edge → nat) (name : string) (sheet : Sheet)
    (col : list A) : result (list A) :=
  mapM (λ e, from_option Ok (Raise (KeyError name)) (col !! key e)) (edge_df sheet).

(** Modelled from the spec: [upcast_face] of the sheet class, whose
    source is missing; the upcast keyed by the owning face. *)
Definition upcast_face {A} := @upcast A face "face".

(** Modelled from the spec: [upcast_srce] of the sheet class, whose
    source is missing; the upcast keyed by the source vertex. *)
Definition upcast_srce {A} := @upcast A srce "srce".

(** Modelled from the spec: the sums over incident half-edges of the
    sheet class, whose source is missing.  A "sum over incident
    half-edges" is a group-by-id reduction giving a per-vertex aggregate:
    the rows of [df] are grouped by the vertex [key] of their half-edge
    and each group is added up. *)
Definition group_sum (key : Edge → nat) (sheet : Sheet) (df : list vec) : list vec :=
  foldl (λ acc (eg : Edge * vec), alter (λ s, vadd s eg.2) (key eg.1) acc)
    (replicate (List.length (vert_df sheet)) vzero)
    (zip (edge_df sheet) df).

(** Modelled from the spec: [sum_srce] of the sheet class, whose source
    is missing; the sum-as-source. *)
Definition sum_srce := group_sum srce.

(** Modelled from the spec: [sum_trgt] of the sheet class, whose source
    is missing; the sum-as-target. *)
Definition sum_trgt := group_sum trgt.

(** ** Effectors *)

(** Modelled from the spec: [elastic_energy] of [effectors.py], whose
    source is missing, as called with var='vol',
    elasticity='vol_elasticity' and prefered='prefered_vol': per face,
    0.5 * vol_elasticity * (vol - prefered_vol)**2. *)
Definition elastic_energy (df : list Face) : list R :=
  map (λ f, 0.5 * vol_elasticity f * (vol f - prefered_vol f) ^ 2) df.

(** Modelled from the spec: [elastic_force] of [effectors.py], whose
    source is missing, as called with the same columns: per face, the
    force magnitude vol_elasticity * (vol - prefered_vol). *)
Definition elastic_force (df : list Face) : list R :=
  map (λ f, vol_elasticity f * (vol f - prefered_vol f)) df.

(** ** [compute_energy] *)

(** [df[mask]] *)
Definition select {A} (mask : list bool) (df : list A) : list A :=
  (List.filter fst (zip mask df)).*2.

(** A pandas value is a scalar or a Series, one number per row. *)
Inductive value :=
  | Scalar (x : R)
  | Series (xs : list R).

(** [compute_energy] returns the energy, or a generator of its terms. *)
Inductive energy :=
  | Energy (e : R)
  | Terms (es : list value).

Definition compute_energy (sheet : Sheet) (full_output : bool) : result energy :=
  let live_face_df :=
    List.filter (λ f, bool_decide (is_alive f = 1%Z)) (face_df sheet) in
  upcast_alive ← upcast_face sheet (map is_alive (face_df sheet));
  let live_edge_df :=
    select (map (λ a, bool_decide (a = 1%Z)) upcast_alive) (edge_df sheet) in
  let E_t := map (λ e, line_tension e * length e / 2) live_edge_df in
  let E_v := elastic_energy live_face_df in
  let E_c := map (λ f, 0.5 * contractility f * perimeter f ^ 2) live_face_df in
  let energies := [E_t; E_v; E_c] in
  energies ←
    (if has_is_anchor sheet then
       _ ← anchor_columns sheet;
       let E_a :=
         map (λ e, anchor_elasticity e * length e ^ 2 * is_anchor e / 2)
           (edge_df sheet) in
       Ok (energies ++ [E_a])
     else Ok energies);
  nrj_norm_factor ← setting sheet "nrj_norm_factor";
  if full_output then
    Ok (Terms (map (λ E, Series (map (λ x, x / nrj_norm_factor) E)) energies))
  else
    Ok (Energy (foldl Rplus 0 (map Rsum energies) / nrj_norm_factor)).

(** ** [compute_gradient] *)

Inductive gradient :=
  | Components (grads : list (list vec))
  | Gradient (grad : list vec).

Section gradient.
(** The gradients of the geometry are taken as parameters:
    [length_grad] gives, per half-edge, the gradient of its length;
    [area_grad] the gradients of its sub-area with respect to its source
    and to its target; [height_grad] the gradient of the height of each
    vertex. *)
Variable length_grad : Sheet → list vec.
Variable area_grad : Sheet → list vec * list vec.
Variable height_grad : Sheet → list vec.

(** Modelled from the spec: [tension_grad] of the planar model, whose
    source is missing.  The tension term is the length-gradient times
    the line tension. *)
Definition tension_grad (sheet : Sheet) (grad_lij : list vec) : list vec :=
  zip_with vmul grad_lij (_to_3d (map line_tension (edge_df sheet))).

(** Modelled from the spec: [contractile_grad] of the planar model,
    whose source is missing.  The contractile term is the
    length-gradient times the contractility of the owning face,
    broadcast to each boundary half-edge, times the perimeter of the
    owning face. *)
Definition contractile_grad (sheet : Sheet) (grad_lij : list vec)
  : result (list vec) :=
  gamma ← upcast_face sheet
            (map (λ f, contractility f * perimeter f) (face_df sheet));
  Ok (zip_with vmul grad_lij (_to_3d gamma)).

Definition elastic_grad (sheet : Sheet) : result (list vec * list vec) :=
  let kv_v0_ := elastic_force (face_df sheet) in
  let kv_v0_ :=
    zip_with Rmult kv_v0_ (map (λ f, IZR (is_alive f)) (face_df sheet)) in
  kv_v0 ← _to_3d <$> upcast_face sheet kv_v0_;
  edge_h ← _to_3d <$> upcast_srce sheet (map height (vert_df sheet));
  let area := _to_3d (map sub_area (edge_df sheet)) in
  let '(grad_a_srce, grad_a_trgt) := area_grad sheet in
  grad_h ← upcast_srce sheet (height_grad sheet);
  let grad_v_srce :=
    zip_with vmul kv_v0
      (zip_with vadd (zip_with vmul edge_h grad_a_srce) (zip_with vmul area grad_h)) in
  let grad_v_trgt := zip_with vmul kv_v0 (zip_with vmul edge_h grad_a_trgt) in
  Ok (grad_v_srce, grad_v_trgt).

Definition anchor_grad (sheet : Sheet) (grad_lij : list vec) : result (list vec) :=
  _ ← anchor_columns sheet;
  let ka := map (λ e, anchor_elasticity e * length e * is_anchor e) (edge_df sheet) in
  Ok (zip_with vmul grad_lij (_to_3d ka)).

(** The per-half-edge terms: tension, contractile, the two elastic
    ones, and the anchor one when the column is_anchor exists. *)
Record terms := mkTerms {
  grad_t : list vec;
  grad_c : list vec;
  grad_v_srce : list vec;
  grad_v_trgt : list vec;
  grad_a : option (list vec)
}.

Definition gradient_terms (sheet : Sheet) : result terms :=
  let grad_lij := length_grad sheet in
  let grad_t := tension_grad sheet grad_lij in
  grad_c ← contractile_grad sheet grad_lij;
  '(grad_v_srce, grad_v_trgt) ← elastic_grad sheet;
  grad_a ←
    (if has_is_anchor sheet then Some <$> anchor_grad sheet grad_lij else Ok None);
  Ok (mkTerms grad_t grad_c grad_v_srce grad_v_trgt grad_a).

(** The aggregation of the terms onto the vertices. *)
Definition aggregate (sheet : Sheet) (g : terms) : list vec :=
  let grad_i :=
    zip_with vadd
      (zip_with vadd
         (zip_with vsub
            (zip_with vadd
               (map (λ v, vdiv v 2)
                  (zip_with vsub (sum_srce sheet (grad_t g)) (sum_trgt sheet (grad_t g))))
               (sum_srce sheet (grad_c g)))
            (sum_trgt sheet (grad_c g)))
         (sum_srce sheet (grad_v_srce g)))
      (sum_trgt sheet (grad_v_trgt g)) in
  match grad_a g with
  | Some grad_a => zip_with vadd grad_i (sum_srce sheet grad_a)
  | None => grad_i
  end.

Definition compute_gradient (sheet : Sheet) (components : bool) : result gradient :=
  norm_factor ← setting sheet "nrj_norm_factor";
  g ← gradient_terms sheet;
  if components then
    Ok (Components
          ([grad_t g; grad_c g; grad_v_srce g; grad_v_trgt g] ++
           match grad_a g with Some a => [a] | None => [] end))
  else
    let grad_i := aggregate sheet g in
    Ok (Gradient
          (map (λ v, vdiv v norm_factor)
             (zip_with vmul grad_i
                (_to_3d (map (λ v, IZR (is_active v)) (vert_df sheet)))))).
End gradient.

End SheetModel.

(** ** Real arithmetic

    The interpretation of the arithmetic used to speak of signs: exact
    arithmetic, in which no power is out of range.  A value is a real
    number, or nothing when an operation leaves the reals (a negative
    base raised to the power 1.5). *)

Definition real_mul (x y : option R) : option R :=
  match x, y with
  | Some a, Some b => Some (a * b)%R
  | _, _ => None
  end.

Definition real_pow_2 (x : option R) : option R :=
  match x with Some a => Some (a * a)%R | None => None end.

Definition real_pow_1_5 (x : option R) : option R :=
  match x with
  | Some a => if Rle_dec 0 a then Some (a * sqrt a)%R else None
  | None => None
  end.

#[global] Instance real_arith : Arith (option R) :=
  {| mul := real_mul;
     pow_2 := λ x, Some (real_pow_2 x);
     pow_1_5 := λ x, Some (real_pow_1_5 x) |}.

(** * Properties of [History] *)

Module HistoryFacts.
Import History.
Local Open Scope Z_scope.

(** ** Construction *)

(** What [_filter_columns] leaves of the requested columns [req] for a
    table whose columns are [have]. *)
Definition filtered (label : string) (req have cols : list string)
    (ws : list Warning) : Prop :=
  (∀ c, c ∈ cols ↔ c ∈ req ∧ c ∈ have) ∧
  ((∀ c, c ∈ req → c ∈ have) → cols = req ∧ ws = []) ∧
  (¬ (∀ c, c ∈ req → c ∈ have) →
     NoDup cols ∧
     ws = [mkWarning label (list_to_set req ∖ list_to_set have)]).

Lemma _filter_columns_filtered label req have :
  filtered label req have (_filter_columns req have label).1
    (_filter_columns req have label).2.
Proof.
  unfold _filter_columns, filtered.
  destruct (decide (_ ⊆ _)) as [Hsub|Hsub]; simpl.
  - assert (Hall : ∀ c, c ∈ req → c ∈ have).
    { intros c Hc. specialize (Hsub c). rewrite !elem_of_list_to_set in Hsub. auto. }
    split_and!; [ | done | intros Hn; destruct (Hn Hall)].
    intros c. split; [intros Hc; split; auto | by intros [Hc _]].
  - assert (Hnall : ¬ ∀ c, c ∈ req → c ∈ have).
    { intros Hall. apply Hsub. intros c. rewrite !elem_of_list_to_set. auto. }
    split_and!.
    + intros c. rewrite elem_of_elements, elem_of_intersection, !elem_of_list_to_set. done.
    + intros Hall. destruct (Hnall Hall).
    + intros _. split; [apply NoDup_elements | done].
Qed.

Lemma getitem_subset cols df :
  (∀ c, c ∈ cols → c ∈ df_columns df) → is_Ok (getitem cols df).
Proof.
  intros Hsub. unfold getitem.
  destruct (List.find _ cols) as [c|] eqn:Hfind; [|by eexists].
  apply List.find_some in Hfind as [Hin Hc].
  apply bool_decide_eq_true in Hc. destruct Hc.
  apply Hsub, list_elem_of_In, Hin.
Qed.

Lemma getitem_present cols df df' :
  getitem cols df = Ok df' → ∀ c, c ∈ cols → c ∈ df_columns df.
Proof.
  unfold getitem. destruct (List.find _ cols) eqn:Hfind; [done|]. intros _ c Hc.
  apply list_elem_of_In in Hc.
  pose proof (List.find_none _ _ Hfind c Hc) as Hn. simpl in Hn.
  apply bool_decide_eq_false in Hn. by apply dec_stable.
Qed.

(** In a frame with distinct labels, one column carries a label. *)
Lemma filter_label_distinct (c : string) (l : list string) :
  NoDup l → c ∈ l → List.filter (λ c', bool_decide (c' = c)) l = [c].
Proof.
  induction 1 as [|x l Hx Hnd IH]; intros Hc; [by apply elem_of_nil in Hc|].
  simpl. destruct (decide (x = c)) as [->|Hne].
  - rewrite bool_decide_eq_true_2 by done. f_equal.
    clear IH Hc. induction l as [|y l IH]; simpl; [done|].
    apply not_elem_of_cons in Hx as [Hy Hx]. apply NoDup_cons in Hnd as [_ Hnd].
    rewrite bool_decide_eq_false_2 by done. auto.
  - rewrite bool_decide_eq_false_2 by done. apply IH.
    apply elem_of_cons in Hc as [->|Hc]; done.
Qed.

Lemma select_labels_distinct (cols have : list string) :
  NoDup have → (∀ c, c ∈ cols → c ∈ have) → select_labels cols have = cols.
Proof.
  intros Hnd. unfold select_labels.
  induction cols as [|c cols IH]; intros Hsub; simpl; [done|].
  rewrite filter_label_distinct by (done || apply Hsub; left).
  simpl. f_equal. apply IH. intros c' Hc'. apply Hsub. by right.
Qed.

(** Labels that are not requested play no part in the selection. *)
Lemma select_labels_others (cols have1 have2 : list string) :
  List.filter (λ c, bool_decide (c ∈ cols)) have1
    = List.filter (λ c, bool_decide (c ∈ cols)) have2 →
  select_labels cols have1 = select_labels cols have2.
Proof.
  intros Heq. unfold select_labels.
  assert (Hsub : ∀ l, (∀ c, c ∈ l → c ∈ cols) →
            flat_map (λ c, List.filter (λ c', bool_decide (c' = c)) have1) l
            = flat_map (λ c, List.filter (λ c', bool_decide (c' = c)) have2) l).
  { induction l as [|c l IH]; intros Hl; simpl; [done|].
    rewrite IH by (intros c' Hc'; apply Hl; by right). f_equal.
    assert (Hc : c ∈ cols) by (apply Hl; left).
    assert (Hf : ∀ have, List.filter (λ c', bool_decide (c' = c)) have
              = List.filter (λ c', bool_decide (c' = c))
                  (List.filter (λ c, bool_decide (c ∈ cols)) have)).
    { induction have as [|x have IHh]; simpl; [done|].
      destruct (decide (x = c)) as [->|Hne].
      - rewrite (bool_decide_eq_true_2 (c ∈ cols)) by done. simpl.
        rewrite bool_decide_eq_true_2 by done. by f_equal.
      - rewrite (bool_decide_eq_false_2 (x = c)) by done.
        destruct (bool_decide (x ∈ cols)); simpl; [|done].
        by rewrite (bool_decide_eq_false_2 (x = c)) by done. }
    by rewrite (Hf have1), (Hf have2), Heq. }
  by apply Hsub.
Qed.

Lemma filter_all {A} (P : A → bool) (l : list A) :
  (∀ x, x ∈ l → P x = true) → List.filter P l = l.
Proof.
  induction l as [|x l IH]; intros Hl; simpl; [done|].
  rewrite Hl by left. f_equal. apply IH. intros y Hy. apply Hl. by right.
Qed.

(** Selecting the recorded columns from a table of the history, once
    its id column is the index again, selects them from themselves. *)
Lemma select_labels_recorded (element : string) (cols : list string) :
  element ∉ cols → "time_id" ∉ cols →
  select_labels cols
    (List.filter (λ c, bool_decide (c ≠ element)) (element :: cols ++ ["time_id"]))
  = select_labels cols cols.
Proof.
  intros He Ht. apply select_labels_others. simpl.
  rewrite bool_decide_eq_false_2 by (by intros ?).
  rewrite List.filter_app. simpl.
  rewrite (filter_all _ cols).
  2:{ intros c Hc. apply bool_decide_eq_true. by intros ->. }
  destruct (bool_decide ("time_id" ≠ element)); simpl.
  - rewrite List.filter_app. simpl.
    rewrite (bool_decide_eq_false_2 ("time_id" ∈ cols)) by done.
    by rewrite app_nil_r.
  - by rewrite app_nil_r.
Qed.

Lemma getitem_Ok cols df df' :
  getitem cols df = Ok df' →
  df' = mkDF (select_labels cols (df_columns df))
          (map (λ ir : Z * gmap string Z,
                  (ir.1, filter (λ kv : string * Z, kv.1 ∈ cols) ir.2))
             (df_rows df)).
Proof. unfold getitem. destruct (List.find _ cols); [done|]. by intros [= <-]. Qed.

Lemma getitem_columns cols df df' :
  getitem cols df = Ok df' → NoDup (df_columns df) → df_columns df' = cols.
Proof.
  intros Hsel Hnd. pose proof (getitem_present _ _ _ Hsel) as Hsub.
  apply getitem_Ok in Hsel as ->. simpl. by apply select_labels_distinct.
Qed.

(** The tables of a sheet have distinct labels. *)
Lemma sheet_distinct (sheet : Sheet) :
  NoDup (df_columns (vert_df sheet)) ∧ NoDup (df_columns (face_df sheet)) ∧
  NoDup (df_columns (edge_df sheet)) ∧
  ∀ cdf, cell_df sheet = Some cdf → NoDup (df_columns cdf).
Proof.
  pose proof (sheet_labels sheet) as H.
  apply andb_prop_elim in H as [H Hc]. apply andb_prop_elim in H as [H He].
  apply andb_prop_elim in H as [Hv Hf].
  unfold distinct_labels in *.
  split; [exact (bool_decide_unpack _ Hv)|].
  split; [exact (bool_decide_unpack _ Hf)|].
  split; [exact (bool_decide_unpack _ He)|].
  intros cdf Hcell. rewrite Hcell in Hc. exact (bool_decide_unpack _ Hc).
Qed.

Lemma sheet_dataset_distinct (sheet : Sheet) (element : string) (df : DataFrame) :
  sheet_dataset sheet element = Ok df → NoDup (df_columns df).
Proof.
  destruct (sheet_distinct sheet) as (Hv & Hf & He & Hc).
  unfold sheet_dataset. repeat case_decide; try done; try by intros [= <-].
  destruct (cell_df sheet) as [cdf|] eqn:Hcell; [|done].
  intros [= <-]. by apply Hc.
Qed.

(** The row that [__init__] makes of the [k]-th row of a sheet table:
    the row is renumbered and cut down to the recorded columns, its id
    goes under [element] and, unless time_id is itself a recorded
    column, it is stamped with the time id 0. *)
Definition recorded_row (element : string) (cols : list string) (k : nat)
    (ir : Z * gmap string Z) : Z * gmap string Z :=
  (Z.of_nat k,
   (if decide ("time_id" ∈ cols) then λ r, r else <["time_id" := 0]>)
     (<[element := ir.1]> (filter (λ kv : string * Z, kv.1 ∈ cols) ir.2))).

(** The table [hist] recorded at construction for the sheet table [df]:
    the id column, the recorded columns and nothing else of [df], the
    time column; one row per row of [df], in the same order. *)
Definition recorded (element : string) (cols : list string) (df hist : DataFrame)
  : Prop :=
  df_columns hist =
    element :: cols ++ (if decide ("time_id" ∈ cols) then [] else ["time_id"]) ∧
  df_rows hist = imap (recorded_row element cols) (df_rows df).

Lemma init_element_ok element label req df :
  NoDup (df_columns df) →
  element ∉ df_columns df →
  element ≠ "time_id" →
  ∃ cols sel h ws,
    init_element element label req df = Ok (cols, h, ws) ∧
    filtered label req (df_columns df) cols ws ∧
    getitem cols df = Ok sel ∧ df_columns sel = cols ∧
    recorded element cols df h.
Proof.
  intros Hnd Hfree Hname. unfold init_element.
  pose proof (_filter_columns_filtered label req (df_columns df)) as Hf.
  destruct (_filter_columns req (df_columns df) label) as [cols ws]. simpl in Hf.
  destruct (getitem_subset cols df) as [sel Hsel].
  { intros c Hc. by apply Hf in Hc as [_ ?]. }
  rewrite Hsel. simpl.
  pose proof (getitem_columns _ _ _ Hsel Hnd) as Hcols.
  pose proof (getitem_Ok _ _ _ Hsel) as Hrows.
  destruct sel as [scols srows]. simpl in Hcols. subst scols.
  injection Hrows as _ Hrows.
  unfold reset_index. simpl.
  destruct (decide (element ∈ cols)) as [Hin|Hnin].
  { apply Hf in Hin as [_ ?]. done. }
  simpl. eexists _, _, _, _. split; [done|]. split; [done|].
  split; [done|]. split; [done|].
  unfold recorded, recorded_row.
  destruct (decide ("time_id" ∈ cols)) as [Ht|Ht]; simpl.
  - split; [by rewrite app_nil_r|].
    rewrite Hrows. change (map ?f ?l) with (f <$> l). by rewrite imap_fmap.
  - split.
    + rewrite decide_False; [done|].
      rewrite elem_of_cons. intros [Heq|?]; [|done]. by subst element.
    + rewrite Hrows. change (map ?f ?l) with (f <$> l).
      by rewrite imap_fmap, fmap_imap.
Qed.

(** The tables of a sheet are indexed by an id named after the element,
    which is not one of their data columns. *)
Definition index_free (sheet : Sheet) : Prop :=
  ("vert" ∉ df_columns (vert_df sheet)) ∧
  ("face" ∉ df_columns (face_df sheet)) ∧
  ("edge" ∉ df_columns (edge_df sheet)) ∧
  ∀ cdf, cell_df sheet = Some cdf → "cell" ∉ df_columns cdf.

(** The history of [element] keeps the columns [cols] that [filtered]
    leaves of the requested ones; selecting them from the sheet table
    gives a frame with these columns, and the table of the history is
    the one [recorded] from it. *)
Definition keeps (h : History) (ws : list Warning) (element label : string)
    (req : list string) (df : DataFrame) : Prop :=
  ∃ cols sel hist,
    alist_lookup element (columns h) = Some cols ∧
    filtered label req (df_columns df) cols ws ∧
    getitem cols df = Ok sel ∧ df_columns sel = cols ∧
    alist_lookup element (datasets h) = Some hist ∧
    recorded element cols df hist.

(** C9. Constructing a [History] never raises, whatever columns the
    configuration asks for: for each element the recorded columns are the
    requested ones that the sheet table has; when all of them exist the
    requested list is kept unchanged and no warning is issued; otherwise
    exactly one warning, naming the missing columns, is issued for that
    element.  The table recorded for the element is the selection of
    these columns from the sheet table, [getitem], which has exactly
    these columns: it holds one row per row of the sheet table, with the
    cells of the recorded columns and of no other, the id of the row
    and the time id 0. *)
Theorem init_filters_columns (sheet : Sheet) (extra_cols : gmap string (list string)) :
  index_free sheet →
  ∃ h wv wf wc we,
    init sheet extra_cols = Ok (h, wv ++ wf ++ wc ++ we) ∧
    keeps h wv "vert" "vertex" (coords sheet ++ extra extra_cols "vert")
      (vert_df sheet) ∧
    keeps h wf "face" "face" (extra extra_cols "face") (face_df sheet) ∧
    match cell_df sheet with
    | Some cdf =>
        keeps h wc "cell" "cell" (extra extra_cols "cell") cdf ∧
        keeps h we "edge" "edge"
          (["srce"; "trgt"; "face"] ++ extra extra_cols "edge" ++ ["cell"])
          (edge_df sheet)
    | None =>
        wc = [] ∧ alist_lookup "cell" (columns h) = None ∧
        alist_lookup "cell" (datasets h) = None ∧
        keeps h we "edge" "edge" (["srce"; "trgt"; "face"] ++ extra extra_cols "edge")
          (edge_df sheet)
    end.
Proof.
  intros (Hv & Hf & He & Hc). unfold init.
  destruct (sheet_distinct sheet) as (Dv & Df & De & Dc).
  destruct (init_element_ok "vert" "vertex" (coords sheet ++ extra extra_cols "vert")
              (vert_df sheet) Dv Hv)
    as (vcols & vsel & vh & wv & -> & Fv & Gv & Cv & Rv); [done|].
  destruct (init_element_ok "face" "face" (extra extra_cols "face")
              (face_df sheet) Df Hf)
    as (fcols & fsel & fh & wf & -> & Ff & Gf & Cf & Rf); [done|].
  simpl. destruct (cell_df sheet) as [cdf|] eqn:Hcell.
  - destruct (init_element_ok "cell" "cell" (extra extra_cols "cell") cdf
                (Dc cdf eq_refl) (Hc cdf eq_refl))
      as (ccols & csel & ch & wc & -> & Fc & Gc & Cc & Rc); [done|].
    simpl.
    destruct (init_element_ok "edge" "edge"
                (["srce"; "trgt"; "face"] ++ extra extra_cols "edge" ++ ["cell"])
                (edge_df sheet) De He)
      as (ecols & esel & eh & we & Hedge & Fe & Ge & Ce & Re); [done|].
    simpl in Hedge |- *. rewrite Hedge. simpl. exists (mkHistory 0
      [("vert", vh); ("face", fh); ("cell", ch); ("edge", eh)]
      [("vert", vcols); ("face", fcols); ("cell", ccols); ("edge", ecols)] [] []),
      wv, wf, wc, we.
    split; [done|]. unfold keeps; simpl.
    split; [by exists vcols, vsel, vh|]. split; [by exists fcols, fsel, fh|].
    split; [by exists ccols, csel, ch|]. by exists ecols, esel, eh.
  - simpl.
    destruct (init_element_ok "edge" "edge"
                (["srce"; "trgt"; "face"] ++ extra extra_cols "edge")
                (edge_df sheet) De He)
      as (ecols & esel & eh & we & Hedge & Fe & Ge & Ce & Re); [done|].
    simpl in Hedge |- *. rewrite Hedge. simpl. exists (mkHistory 0
      [("vert", vh); ("face", fh); ("edge", eh)]
      [("vert", vcols); ("face", fcols); ("edge", ecols)] [] []),
      wv, wf, [], we.
    split; [done|]. unfold keeps; simpl.
    split; [by exists vcols, vsel, vh|]. split; [by exists fcols, fsel, fh|].
    split; [done|]. split; [done|]. split; [done|]. by exists ecols, esel, eh.
Qed.

(** ** Recorded times *)

Definition times (df : DataFrame) : list Z := map row_time (df_rows df).

(** [t] is the closest recorded time at or before [i]. *)
Definition closest (hist : DataFrame) (i t : Z) : Prop :=
  t ∈ times hist ∧ t ≤ i ∧ ∀ t', t' ∈ times hist → t' ≤ i → t' ≤ t.

(** The history table of [element] when the history stamps the rows
    itself: the id column, the recorded columns, the time column; times
    never decrease along the table and lie between 0 and [tmax]. *)
Record stamped (snap : Prop) (tmax : Z) (element : string) (cols : list string)
    (hist : DataFrame) : Prop := {
  st_name : element ≠ "time_id";
  st_fresh : element ∉ cols;
  st_columns : df_columns hist = element :: cols ++ ["time_id"];
  st_sorted : StronglySorted Z.le (times hist);
  st_bound : Forall (λ t, 0 ≤ t ≤ tmax) (times hist);
  st_snapshot : snap → 0 ∈ times hist
}.

Lemma times_setitem t df :
  times (setitem "time_id" t df) = map (λ _, t) (df_rows df).
Proof.
  unfold times, setitem. simpl. rewrite map_map. apply map_ext.
  intros [i r]. unfold row_time. simpl. apply lookup_total_insert_eq.
Qed.

Lemma times_renumber (g : nat → Z) (l : list (Z * gmap string Z)) :
  map row_time (imap (λ k ir, (g k, ir.2)) l) = map row_time l.
Proof.
  revert g. induction l as [|x l IH]; intros g; simpl; [done|].
  f_equal. apply (IH (g ∘ S)).
Qed.

Lemma times_concat_rows a b :
  times (concat_rows a b) = times a ++ times b.
Proof.
  unfold times, concat_rows. simpl. rewrite <- map_app.
  apply (times_renumber Z.of_nat).
Qed.

Lemma reset_index_rows element df df' :
  reset_index element df = Ok df' →
  df_columns df' = element :: df_columns df ∧ (element ∉ df_columns df) ∧
  length (df_rows df') = length (df_rows df).
Proof.
  unfold reset_index. destruct (decide _); [done|]. intros [= <-]. simpl.
  by rewrite length_imap.
Qed.

Lemma map_const_length {A B} (f : A → Z) (t : Z) (l : list A) (l' : list B) :
  length l = length l' → map (λ _, t) l = map (λ _, t) l'.
Proof.
  revert l'. induction l as [|x l IH]; intros [|y l'] [=]; simpl; [done|].
  f_equal. auto.
Qed.

(** Every row that [record] or [__init__] adds carries the same stamp. *)
Lemma stamp_rows element cols df t :
  NoDup (df_columns df) →
  "time_id" ∉ cols → element ≠ "time_id" →
  ∀ sel h,
    getitem cols df = Ok sel →
    reset_index element sel = Ok h →
    (element ∉ cols) ∧
    df_columns (setitem "time_id" t h) = element :: cols ++ ["time_id"] ∧
    times (setitem "time_id" t h) = map (λ _, t) (df_rows df).
Proof.
  intros Hnd Ht Hname sel h Hsel Hh.
  pose proof (getitem_columns _ _ _ Hsel Hnd) as Hcols.
  apply reset_index_rows in Hh as (Hc & Hfresh & Hlen).
  rewrite Hcols in Hc, Hfresh. split; [done|]. split.
  - unfold setitem. simpl. rewrite Hc. rewrite decide_False; [done|].
    rewrite elem_of_cons. intros [?|?]; [by subst|done].
  - rewrite times_setitem. apply (map_const_length row_time). rewrite Hlen.
    unfold getitem in Hsel. destruct (List.find _ cols); [done|].
    injection Hsel as <-. simpl. by rewrite length_map.
Qed.

Lemma StronglySorted_const (t : Z) {A} (l : list A) :
  StronglySorted Z.le (map (λ _, t) l).
Proof.
  induction l; simpl; constructor; [done|].
  apply Forall_forall. intros x Hx. apply list_elem_of_In, in_map_iff in Hx as (? & <- & _). lia.
Qed.

Lemma StronglySorted_app_le (l1 l2 : list Z) (t : Z) :
  StronglySorted Z.le l1 → Forall (λ x, x ≤ t) l1 →
  StronglySorted Z.le l2 → Forall (λ x, t ≤ x) l2 →
  StronglySorted Z.le (l1 ++ l2).
Proof.
  intros H1 Hb1 H2 Hb2. induction H1 as [|x l1 Hs IH Hx]; simpl; [done|].
  apply Forall_cons in Hb1 as [Hxt Hb1].
  constructor; [auto|]. apply Forall_app. split; [done|].
  eapply Forall_impl; [exact Hb2|]. simpl. intros; lia.
Qed.

Lemma StronglySorted_last_max (l : list Z) (t : Z) :
  StronglySorted Z.le l → last l = Some t → Forall (λ x, x ≤ t) l.
Proof.
  induction 1 as [|x l Hs IH Hx]; intros Hl; [done|].
  destruct l as [|y l]; simpl in Hl.
  - injection Hl as <-. repeat constructor. lia.
  - specialize (IH Hl). constructor; [|done].
    apply Forall_cons in Hx as [Hxy _]. apply Forall_cons in IH as [Hyt _]. lia.
Qed.

Lemma StronglySorted_filter_le (P : Z → bool) (l : list Z) :
  StronglySorted Z.le l → StronglySorted Z.le (List.filter P l).
Proof.
  induction 1 as [|x l Hs IH Hx]; simpl; [constructor|].
  destruct (P x); [|done]. constructor; [done|].
  apply Forall_forall. intros y Hy.
  apply list_elem_of_In, List.filter_In in Hy as [Hy _].
  rewrite Forall_forall in Hx. apply Hx, list_elem_of_In, Hy.
Qed.

(** On a table whose times never decrease, the last time at or before
    [i] is the greatest one. *)
Lemma last_filter_closest (hist : DataFrame) (i t : Z) :
  StronglySorted Z.le (times hist) →
  last (List.filter (λ t, bool_decide (t ≤ i)) (times hist)) = Some t →
  closest hist i t.
Proof.
  intros Hs Hl.
  assert (Hin : t ∈ List.filter (λ t, bool_decide (t ≤ i)) (times hist)).
  { apply last_Some in Hl as [l' ->]. apply elem_of_app. right. by apply list_elem_of_singleton. }
  apply list_elem_of_In, List.filter_In in Hin as [Hin Hle].
  apply bool_decide_eq_true in Hle.
  split; [by apply list_elem_of_In|]. split; [done|].
  intros t' Hin' Hle'.
  pose proof (StronglySorted_last_max _ _ (StronglySorted_filter_le _ _ Hs) Hl) as Hmax.
  rewrite Forall_forall in Hmax. apply Hmax.
  apply list_elem_of_In, List.filter_In. split; [by apply list_elem_of_In|].
  by apply bool_decide_eq_true.
Qed.

Lemma init_element_stamped element label req df cols h ws :
  NoDup (df_columns df) →
  init_element element label req df = Ok (cols, h, ws) →
  element ≠ "time_id" → "time_id" ∉ cols →
  stamped (df_rows df ≠ []) 0 element cols h.
Proof.
  intros Hnd. unfold init_element.
  destruct (_filter_columns req (df_columns df) label) as [cols' w].
  destruct (getitem cols' df) as [sel|] eqn:Hsel; [|done]. simpl.
  destruct (reset_index element sel) as [h'|] eqn:Hh; [|done]. simpl.
  intros [= -> <- ->] Hname Ht. rewrite decide_False by done.
  destruct (stamp_rows element cols df 0 Hnd Ht Hname sel h' Hsel Hh)
    as (Hfresh & Hcols & Htimes).
  split; try done.
  - rewrite Htimes. apply StronglySorted_const.
  - rewrite Htimes. apply Forall_forall.
    intros t Hin. apply list_elem_of_In, in_map_iff in Hin as (? & <- & _). lia.
  - intros Hne. rewrite Htimes. destruct (df_rows df); [done|]. simpl. left.
Qed.

Lemma filter_absent_self (l : list string) :
  List.filter (λ c, bool_decide (c ∉ l)) l = [].
Proof.
  assert (H : ∀ l', (∀ c, c ∈ l' → c ∈ l) →
            List.filter (λ c, bool_decide (c ∉ l)) l' = []).
  { induction l' as [|c l' IH]; intros Hsub; simpl; [done|].
    rewrite bool_decide_eq_false_2.
    - apply IH. intros c' Hc'. apply Hsub. by right.
    - intros Hn. apply Hn, Hsub. left. }
  by apply H.
Qed.

Lemma stamped_mono snap t t' element cols hist :
  t ≤ t' → stamped snap t element cols hist → stamped snap t' element cols hist.
Proof.
  intros Hle [? ? ? ? Hb ?]. split; try done.
  eapply Forall_impl; [exact Hb|]. simpl. intros; lia.
Qed.

(** Appending the rows of one [record] step keeps a table [stamped]. *)
Lemma stamped_concat snap t element cols hist df sel new :
  NoDup (df_columns df) →
  0 ≤ t → "time_id" ∉ cols →
  stamped snap t element cols hist →
  getitem cols df = Ok sel →
  reset_index element sel = Ok new →
  stamped snap t element cols (concat_rows hist (setitem "time_id" t new)).
Proof.
  intros Hnd Ht0 Ht [Hname Hfresh Hcols Hsorted Hbound Hsnap] Hsel Hnew.
  destruct (stamp_rows element cols df t Hnd Ht Hname sel new Hsel Hnew)
    as (_ & Hc & Htimes).
  split; try done.
  - unfold concat_rows. cbn [df_columns]. rewrite Hc, <- Hcols, filter_absent_self.
    by rewrite app_nil_r.
  - rewrite times_concat_rows, Htimes.
    apply (StronglySorted_app_le _ _ t); [done| | apply StronglySorted_const |].
    + eapply Forall_impl; [exact Hbound|]. simpl. intros; lia.
    + apply Forall_forall. intros x Hx.
      apply list_elem_of_In, in_map_iff in Hx as (? & <- & _). lia.
  - rewrite times_concat_rows, Htimes. apply Forall_app. split; [done|].
    apply Forall_forall. intros x Hx.
    apply list_elem_of_In, in_map_iff in Hx as (? & <- & _). lia.
  - intros Hs. rewrite times_concat_rows. apply elem_of_app. left. auto.
Qed.

(** ** Histories built by [__init__] and [record] *)

Inductive reachable (sheet0 : Sheet) (extra_cols : gmap string (list string))
  : History → Prop :=
  | reach_init h ws :
      init sheet0 extra_cols = Ok (h, ws) → reachable sheet0 extra_cols h
  | reach_record h sheet to_record time_stamp :
      reachable sheet0 extra_cols h →
      reachable sheet0 extra_cols (record h sheet to_record time_stamp).1.

(** Every table of the sheet holds at least one row at construction. *)
Definition nonempty_tables (sheet : Sheet) : Prop :=
  df_rows (vert_df sheet) ≠ [] ∧ df_rows (face_df sheet) ≠ [] ∧
  df_rows (edge_df sheet) ≠ [] ∧
  ∀ cdf, cell_df sheet = Some cdf → df_rows cdf ≠ [].

(** The invariant of a history: each table has its list of recorded
    columns, and is [stamped] when the history stamps its rows. *)
Definition tables_ok (snap : Prop) (t : Z) (cs : list (string * list string))
    (ds : list (string * DataFrame)) : Prop :=
  Forall (λ eh : string * DataFrame,
            ∃ cols, alist_lookup eh.1 cs = Some cols ∧
                    ("time_id" ∉ cols → stamped snap t eh.1 cols eh.2)) ds.

Definition history_ok (snap : Prop) (h : History) : Prop :=
  0 ≤ time_id h ∧ tables_ok snap (time_id h) (columns h) (datasets h).

Lemma alist_set_Forall {V} (P : string * V → Prop) k v (l : list (string * V)) :
  Forall P l → P (k, v) → Forall P (alist_set k v l).
Proof.
  intros Hl Hkv. induction Hl as [|[k' v'] l Hx Hl IH]; simpl.
  - by constructor.
  - destruct (decide (k = k')); constructor; auto.
Qed.

Lemma alist_lookup_Forall {V} (P : string * V → Prop) k v (l : list (string * V)) :
  Forall P l → alist_lookup k l = Some v → P (k, v).
Proof.
  induction 1 as [|[k' v'] l Hx Hl IH]; simpl; [done|].
  destruct (decide (k = k')) as [->|]; [by intros [= <-]|auto].
Qed.

Lemma init_history_ok sheet extra_cols h ws :
  init sheet extra_cols = Ok (h, ws) → history_ok (nonempty_tables sheet) h.
Proof.
  unfold init.
  destruct (init_element "vert" _ _ _) as [[[vcols vh] wv]|] eqn:Hv; [|done]. simpl.
  destruct (init_element "face" _ _ _) as [[[fcols fh] wf]|] eqn:Hf; [|done]. simpl.
  destruct (sheet_distinct sheet) as (Dv & Df & De & Dc).
  pose proof (init_element_stamped _ _ _ _ _ _ _ Dv Hv) as Sv.
  pose proof (init_element_stamped _ _ _ _ _ _ _ Df Hf) as Sf.
  destruct (cell_df sheet) as [cdf|] eqn:Hcell; simpl.
  - destruct (init_element "cell" _ _ _) as [[[ccols ch] wc]|] eqn:Hc; [|done]. simpl.
    destruct (init_element "edge" _ _ _) as [[[ecols eh] we]|] eqn:He; [|done]. simpl.
    pose proof (init_element_stamped _ _ _ _ _ _ _ (Dc cdf eq_refl) Hc) as Sc.
    pose proof (init_element_stamped _ _ _ _ _ _ _ De He) as Se.
    intros [= <- _]. split; [done|]. unfold tables_ok. simpl.
    repeat constructor; simpl; eexists; (split; [done|]); intros Ht.
    + destruct (Sv ltac:(done) Ht). split; try done. intros (? & ? & ? & ?); auto.
    + destruct (Sf ltac:(done) Ht). split; try done. intros (? & ? & ? & ?); auto.
    + destruct (Sc ltac:(done) Ht). split; try done. intros (? & ? & ? & ?); eauto.
    + destruct (Se ltac:(done) Ht). split; try done. intros (? & ? & ? & ?); auto.
  - destruct (init_element "edge" _ _ _) as [[[ecols eh] we]|] eqn:He; [|done]. simpl.
    pose proof (init_element_stamped _ _ _ _ _ _ _ De He) as Se.
    intros [= <- _]. split; [done|]. unfold tables_ok. simpl.
    repeat constructor; simpl; eexists; (split; [done|]); intros Ht.
    + destruct (Sv ltac:(done) Ht). split; try done. intros (? & ? & ? & ?); auto.
    + destruct (Sf ltac:(done) Ht). split; try done. intros (? & ? & ? & ?); auto.
    + destruct (Se ltac:(done) Ht). split; try done. intros (? & ? & ? & ?); auto.
Qed.

Lemma record_element_ok snap t sheet h element h' :
  0 ≤ t →
  tables_ok snap t (columns h) (datasets h) →
  record_element t sheet h element = Ok h' →
  time_id h' = time_id h ∧ columns h' = columns h ∧
  tables_ok snap t (columns h') (datasets h').
Proof.
  intros Ht0 Hok. unfold record_element.
  destruct (alist_lookup element (datasets h)) as [hist|] eqn:Hhist; [|done]. simpl.
  destruct (alist_lookup element (columns h)) as [cols|] eqn:Hcols; [|done]. simpl.
  destruct (sheet_dataset sheet element) as [src|] eqn:Hsrc; [|done]. simpl.
  apply sheet_dataset_distinct in Hsrc.
  destruct (getitem cols src) as [sel|] eqn:Hsel; [|done]. simpl.
  destruct (reset_index element sel) as [new|] eqn:Hnew; [|done]. simpl.
  intros [= <-]. simpl. split; [done|]. split; [done|].
  apply alist_set_Forall; [done|]. simpl. exists cols. split; [done|].
  intros Ht. rewrite decide_False by done.
  pose proof (alist_lookup_Forall _ _ _ _ Hok Hhist) as (cols' & Hc' & Hst). simpl in *.
  rewrite Hcols in Hc'. injection Hc' as <-.
  eapply stamped_concat; eauto.
Qed.

Lemma record_loop_ok snap t sheet to_record h :
  0 ≤ t → time_id h = t →
  tables_ok snap t (columns h) (datasets h) →
  history_ok snap (record_loop t sheet h to_record).1 ∧
  columns (record_loop t sheet h to_record).1 = columns h.
Proof.
  intros Ht0. revert h. induction to_record as [|element rest IH]; intros h Ht Hok; simpl.
  - split; [|done]. split; [lia|]. by rewrite Ht.
  - destruct (record_element t sheet h element) as [h'|e] eqn:Hel; simpl.
    + destruct (record_element_ok _ _ _ _ _ _ Ht0 Hok Hel) as (Hid & Hcs & Hok').
      destruct (IH h') as [? ?]; [congruence|done|]. split; [done|congruence].
    + split; [|done]. split; [lia|]. by rewrite Ht.
Qed.

Lemma tables_ok_mono snap t t' cs ds :
  t ≤ t' → tables_ok snap t cs ds → tables_ok snap t' cs ds.
Proof.
  intros Hle Hok. eapply Forall_impl; [exact Hok|]. simpl.
  intros [e hist] (cols & Hc & Hst). exists cols. split; [done|].
  intros Ht. eapply stamped_mono; eauto.
Qed.

Lemma record_history_ok snap h sheet to_record time_stamp :
  history_ok snap h →
  history_ok snap (record h sheet to_record time_stamp).1 ∧
  columns (record h sheet to_record time_stamp).1 = columns h.
Proof.
  intros [Ht Hok]. unfold record.
  apply (record_loop_ok snap (time_id h + 1) sheet to_record
           (mkHistory _ _ _ _ _)); simpl; [lia|done|].
  eapply tables_ok_mono; [|exact Hok]. lia.
Qed.

Lemma reachable_ok sheet0 extra_cols h :
  reachable sheet0 extra_cols h → history_ok (nonempty_tables sheet0) h.
Proof.
  induction 1 as [h ws Hinit|h sheet to_record ts _ IH].
  - eapply init_history_ok, Hinit.
  - by apply record_history_ok.
Qed.

(** ** Retrieval *)

(** What [retrieve] makes of a history row: the element id becomes the
    index label again and only the recorded columns are kept. *)
Definition snapshot_row (element : string) (cols : list string)
    (ir : Z * gmap string Z) : Z * gmap string Z :=
  (ir.2 !!! element, filter (λ kv : string * Z, kv.1 ∈ cols) (delete element ir.2)).

(** The rows of [hist] stamped [t], as [retrieve] returns them: the
    table has the recorded columns, of which those recorded twice are
    selected twice. *)
Definition snapshot (element : string) (cols : list string) (hist : DataFrame)
    (t : Z) : DataFrame :=
  mkDF (select_labels cols cols)
    (map (snapshot_row element cols)
       (List.filter (λ ir, bool_decide (row_time ir = t)) (df_rows hist))).

(** [retrieve h i] returns, for every recorded table, the rows of the
    closest record at or before [i]. *)
Definition retrieves_closest (h : History) (i : Z) : Prop :=
  ∃ out, retrieve h i = Ok out ∧
    ∀ element hist, alist_lookup element (datasets h) = Some hist →
      ∃ cols t, alist_lookup element (columns h) = Some cols ∧
                closest hist i t ∧
                alist_lookup element out = Some (snapshot element cols hist t) ∧
                df_rows (snapshot element cols hist t) ≠ [].

Lemma closest_snapshot element cols hist i t :
  closest hist i t → df_rows (snapshot element cols hist t) ≠ [].
Proof.
  intros (Hin & _ & _). unfold times in Hin.
  apply list_elem_of_fmap in Hin as (ir & -> & Hin).
  unfold snapshot. simpl. intros Hnil. apply map_eq_nil in Hnil.
  assert (Hf : ir ∈ List.filter (λ ir', bool_decide (row_time ir' = row_time ir))
                 (df_rows hist)).
  { apply list_elem_of_In, List.filter_In. split; [by apply list_elem_of_In|].
    by apply bool_decide_eq_true. }
  rewrite Hnil in Hf. by apply not_elem_of_nil in Hf.
Qed.

Lemma retrieve_element_closest (snap : Prop) tmax h i element hist cols :
  snap → 0 ≤ i →
  alist_lookup element (columns h) = Some cols →
  "time_id" ∉ cols →
  stamped snap tmax element cols hist →
  ∃ t, closest hist i t ∧
       retrieve_element h i element hist = Ok (snapshot element cols hist t).
Proof.
  intros Hsnap Hi Hcols Hnt [Hname Hfresh Hc Hsorted Hbound H0].
  unfold retrieve_element. rewrite Hcols. simpl.
  unfold _retrieve. rewrite decide_True.
  2:{ rewrite Hc. right. apply elem_of_app. right. left. }
  fold (times hist).
  destruct (last (List.filter _ (times hist))) as [t|] eqn:Hlast.
  2:{ apply last_None in Hlast.
      assert (Hin : 0 ∈ List.filter (λ t, bool_decide (t ≤ i)) (times hist)).
      { apply list_elem_of_In, List.filter_In. split.
        - apply list_elem_of_In. auto.
        - by apply bool_decide_eq_true. }
      rewrite Hlast in Hin. by apply not_elem_of_nil in Hin. }
  exists t. split; [by apply last_filter_closest|]. simpl.
  unfold set_index. cbn [df_columns df_rows]. rewrite decide_True.
  2:{ rewrite Hc. left. }
  simpl.
  match goal with |- getitem cols ?d = _ =>
    destruct (getitem_subset cols d) as [df' Hdf'] end.
  { cbn [df_columns]. intros c Hin. apply list_elem_of_In, List.filter_In. split.
    - apply list_elem_of_In. rewrite Hc. right. apply elem_of_app. by left.
    - apply bool_decide_eq_true. intros ->. done. }
  rewrite Hdf'. apply getitem_Ok in Hdf' as ->. cbn [df_rows df_columns].
  unfold snapshot. f_equal. f_equal; [|by rewrite map_map].
  rewrite Hc. by apply select_labels_recorded.
Qed.

Lemma retrieve_loop_closest (snap : Prop) tmax h i ds :
  snap → 0 ≤ i →
  (∀ element cols, alist_lookup element (columns h) = Some cols → "time_id" ∉ cols) →
  tables_ok snap tmax (columns h) ds →
  ∃ out, retrieve_loop h i ds = Ok out ∧
    ∀ element hist, alist_lookup element ds = Some hist →
      ∃ cols t, alist_lookup element (columns h) = Some cols ∧
                closest hist i t ∧
                alist_lookup element out = Some (snapshot element cols hist t) ∧
                df_rows (snapshot element cols hist t) ≠ [].
Proof.
  intros Hsnap Hi Hnt. induction 1 as [|[e hist] ds (cols & Hcols & Hst) Hds IH]; simpl.
  - by exists [].
  - destruct IH as (out & -> & Hout).
    destruct (retrieve_element_closest snap tmax h i e hist cols) as (t & Hcl & ->);
      eauto.
    simpl. eexists. split; [done|].
    intros element hist'. simpl.
    destruct (decide (element = e)) as [->|Hne]; [|by auto].
    intros [= <-]. exists cols, t. split_and!; [done..|]. by eapply closest_snapshot.
Qed.

(** C10 (amended). For a history that stamps its rows itself (no table
    records a column named time_id) and that was built from a sheet all of
    whose tables held at least one row, retrieving at any index [i ≥ 0]
    succeeds and returns, for each recorded table, exactly the rows whose
    time id is the greatest recorded one at or before [i]; there is at
    least one such row. *)
Theorem retrieve_closest_record sheet0 extra_cols (h : History) (i : Z) :
  reachable sheet0 extra_cols h →
  nonempty_tables sheet0 →
  (∀ element cols, alist_lookup element (columns h) = Some cols → "time_id" ∉ cols) →
  0 ≤ i →
  retrieves_closest h i.
Proof.
  intros Hreach Hne Hnt Hi.
  destruct (reachable_ok _ _ _ Hreach) as [_ Hok].
  unfold retrieves_closest, retrieve.
  exact (retrieve_loop_closest _ _ h i (datasets h) Hne Hi Hnt Hok).
Qed.

(** ** Concrete histories *)

(** Decidable facts about concrete data are settled by evaluation. *)
Ltac by_compute := apply (bool_decide_unpack _); vm_compute; exact I.

Definition built (r : result (History * list Warning)) : History :=
  match r with
  | Ok (h, _) => h
  | Raise _ => mkHistory 0 [] [] [] []
  end.

Definition face_ex : DataFrame := mkDF ["area"] [(0, {["area" := 7]})].
Definition edge_ex : DataFrame :=
  mkDF ["srce"; "trgt"; "face"]
    [(0, {["srce" := 0; "trgt" := 1; "face" := 0]});
     (1, {["srce" := 1; "trgt" := 0; "face" := 0]})].

(** A sheet with two vertices; the configuration asks for a column
    ("nope") that the vertex table does not have. *)
Definition sheet_ex : Sheet :=
  mkSheet ["x"; "y"]
    (mkDF ["x"; "y"; "extra"]
       [(0, {["x" := 10; "y" := 20; "extra" := 5]});
        (1, {["x" := 11; "y" := 21; "extra" := 6]})])
    face_ex edge_ex None I.
Definition extra_ex : gmap string (list string) := {["vert" := ["nope"; "extra"]]}.

(** The same sheet after its vertices moved. *)
Definition sheet_ex' : Sheet :=
  mkSheet ["x"; "y"]
    (mkDF ["x"; "y"; "extra"]
       [(0, {["x" := 12; "y" := 22; "extra" := 5]});
        (1, {["x" := 13; "y" := 23; "extra" := 6]})])
    face_ex edge_ex None I.

Definition hist_ex : History :=
  (record (built (init sheet_ex extra_ex)) sheet_ex' ["vert"] None).1.

(** A sheet whose vertex table carries its own time_id column, which
    the configuration asks to record. *)
Definition sheet_ts : Sheet :=
  mkSheet ["x"]
    (mkDF ["x"; "time_id"] [(0, {["x" := 10; "time_id" := 5]})])
    face_ex edge_ex None I.
Definition extra_ts : gmap string (list string) := {["vert" := ["time_id"]]}.
Definition hist_ts : History := built (init sheet_ts extra_ts).

(** A sheet without vertices at construction; one vertex is recorded later. *)
Definition sheet_nil : Sheet := mkSheet ["x"] (mkDF ["x"] []) face_ex edge_ex None I.
Definition sheet_one : Sheet :=
  mkSheet ["x"] (mkDF ["x"] [(0, {["x" := 10]})]) face_ex edge_ex None I.
Definition hist_nil : History :=
  (record (built (init sheet_nil ∅)) sheet_one ["vert"] None).1.

Example init_ex_columns :
  alist_lookup "vert" (columns (built (init sheet_ex extra_ex))) = Some ["extra"; "y"; "x"] ∧
  alist_lookup "edge" (columns (built (init sheet_ex extra_ex))) = Some ["srce"; "trgt"; "face"].
Proof. by vm_compute. Qed.

Example init_ex_warns :
  snd <$> init sheet_ex extra_ex = Ok [mkWarning "vertex" {["nope"]}].
Proof. by vm_compute. Qed.

Example hist_ex_times :
  times <$> alist_lookup "vert" (datasets hist_ex) = Some [0; 0; 1; 1] ∧
  times <$> alist_lookup "edge" (datasets hist_ex) = Some [0; 0].
Proof. by vm_compute. Qed.

Example retrieve_ex_x :
  (λ out, map (λ ir : Z * gmap string Z, ir.2 !! "x") <$>
            (df_rows <$> alist_lookup "vert" out)) <$> retrieve hist_ex 0
    = Ok (Some [Some 10; Some 11]) ∧
  (λ out, map (λ ir : Z * gmap string Z, ir.2 !! "x") <$>
            (df_rows <$> alist_lookup "vert" out)) <$> retrieve hist_ex 7
    = Ok (Some [Some 12; Some 13]) ∧
  (λ out, map (λ ir : Z * gmap string Z, ir.2 !! "srce") <$>
            (df_rows <$> alist_lookup "edge" out)) <$> retrieve hist_ex 7
    = Ok (Some [Some 0; Some 1]).
Proof. by vm_compute. Qed.

Lemma init_filters_columns_witness :
  index_free sheet_ex ∧ is_Ok (init sheet_ex extra_ex).
Proof.
  assert (H : index_free sheet_ex).
  { repeat split; try by_compute. intros cdf [=]. }
  split; [exact H|].
  destruct (init_filters_columns sheet_ex extra_ex H)
    as (h & wv & wf & wc & we & Heq & _).
  eexists. exact Heq.
Defined.

Lemma unstamped_columns (cs : list (string * list string)) :
  Forall (λ kc : string * list string, "time_id" ∉ kc.2) cs →
  ∀ element cols, alist_lookup element cs = Some cols → "time_id" ∉ cols.
Proof.
  intros Hall element cols Hl.
  exact (alist_lookup_Forall (λ kc, "time_id" ∉ kc.2) _ _ _ Hall Hl).
Qed.

Lemma retrieve_closest_record_witness :
  reachable sheet_ex extra_ex hist_ex ∧
  nonempty_tables sheet_ex ∧
  (∀ element cols,
     alist_lookup element (columns hist_ex) = Some cols → "time_id" ∉ cols) ∧
  0 ≤ 7 ∧
  retrieves_closest hist_ex 7.
Proof.
  assert (Hr : reachable sheet_ex extra_ex hist_ex).
  { apply reach_record. by eapply reach_init; vm_compute. }
  assert (Hne : nonempty_tables sheet_ex).
  { by repeat split. }
  assert (Hnt : ∀ element cols,
            alist_lookup element (columns hist_ex) = Some cols → "time_id" ∉ cols).
  { apply unstamped_columns. by_compute. }
  assert (Hi : 0 ≤ 7) by lia.
  repeat (split; [assumption|]).
  exact (retrieve_closest_record sheet_ex extra_ex hist_ex 7 Hr Hne Hnt Hi).
Defined.

(** C10 as stated fails on histories the code accepts.  [hist_ts] records
    the time_id column of the sheet itself, whose only value is 5, so no
    row is stamped at or before 0; [hist_nil] was built from a sheet
    without vertices, so its vertex table has no row stamped 0.  In both,
    [retrieve 0] raises IndexError. *)
Lemma retrieve_closest_fails :
  (reachable sheet_ts extra_ts hist_ts ∧ nonempty_tables sheet_ts ∧
   retrieve hist_ts 0 = Raise IndexError ∧ ¬ retrieves_closest hist_ts 0) ∧
  (reachable sheet_nil ∅ hist_nil ∧
   (∀ element cols,
      alist_lookup element (columns hist_nil) = Some cols → "time_id" ∉ cols) ∧
   retrieve hist_nil 0 = Raise IndexError ∧ ¬ retrieves_closest hist_nil 0).
Proof.
  assert (H1 : retrieve hist_ts 0 = Raise IndexError) by (by vm_compute).
  assert (H2 : retrieve hist_nil 0 = Raise IndexError) by (by vm_compute).
  split; split_and!.
  - by eapply reach_init; vm_compute.
  - by repeat split.
  - exact H1.
  - intros (out & Hout & _). rewrite H1 in Hout. discriminate.
  - apply reach_record. by eapply reach_init; vm_compute.
  - apply unstamped_columns. by_compute.
  - exact H2.
  - intros (out & Hout & _). rewrite H2 in Hout. discriminate.
Qed.

End HistoryFacts.

(** * Properties of [dimentionalize] *)

Module SpecFacts.
Import Spec.

Section frame.
Context {num : Type} `{Arith num}.

(** [h0] is the heap before the call; an object is new when it was
    allocated since. *)
Variable h0 : heap num.

Definition new_val (v : val num) : Prop :=
  match v with VNum _ => True | VRef l => l ∉ dom h0 end.

(** The objects of [h0] are as they were, and the new objects only
    refer to new objects. *)
Definition framed (h : heap num) : Prop :=
  (∀ l, l ∈ dom h0 → h !! l = h0 !! l) ∧
  (∀ l k v, l ∉ dom h0 → (h !!! l) !! k = Some v → new_val v).

Definition memo_new (m : memo) : Prop :=
  ∀ l y, m !! l = Some y → y ∉ dom h0.

Lemma framed_init : framed h0.
Proof.
  split; [done|]. intros l k v Hl.
  apply not_elem_of_dom in Hl.
  rewrite lookup_total_alt, Hl. simpl. by rewrite lookup_empty.
Qed.

Lemma framed_dom h l : framed h → l ∈ dom h0 → l ∈ dom h.
Proof.
  intros [Ha _] Hl. apply elem_of_dom. rewrite (Ha l Hl). by apply elem_of_dom.
Qed.

Lemma framed_fresh h : framed h → fresh (dom h) ∉ dom h0.
Proof.
  intros Hf Hin. apply (is_fresh (dom h)). by apply framed_dom.
Qed.

(** Writing a new value under a key of a new object keeps the frame. *)
Lemma framed_write h y k v :
  framed h → y ∉ dom h0 → new_val v →
  framed (<[y := <[k := v]> (h !!! y)]> h).
Proof.
  intros [Ha Hc] Hy Hv. split.
  - intros l Hl. rewrite lookup_insert_ne; [by apply Ha|]. by intros ->.
  - intros l k' v' Hl. destruct (decide (y = l)) as [->|Hne].
    + rewrite lookup_total_insert_eq.
      destruct (decide (k = k')) as [->|Hk].
      * rewrite lookup_insert_eq. by intros [= <-].
      * rewrite lookup_insert_ne by done. by apply Hc.
    + rewrite lookup_total_insert_ne by done. by apply Hc.
Qed.

Lemma framed_alloc h y :
  framed h → y ∉ dom h0 → framed (<[y := ∅]> h).
Proof.
  intros [Ha Hc] Hy. split.
  - intros l Hl. rewrite lookup_insert_ne; [by apply Ha|]. by intros ->.
  - intros l k v Hl. destruct (decide (y = l)) as [->|Hne].
    + rewrite lookup_total_insert_eq. by rewrite lookup_empty.
    + rewrite lookup_total_insert_ne by done. by apply Hc.
Qed.

(** What a step of [deepcopy] keeps. *)
Definition copy_ok {A} (Q : A → Prop) (r : result A * (heap num * memo)) : Prop :=
  framed r.2.1 ∧ memo_new r.2.2 ∧ ∀ a, r.1 = Ok a → Q a.

Lemma copy_items_ok copy y items :
  (∀ x s, framed s.1 → memo_new s.2 → copy_ok new_val (copy x s)) →
  y ∉ dom h0 →
  ∀ st, copy_ok (λ _, True) st →
    copy_ok (λ _, True) (foldl (copy_item copy y) st items).
Proof.
  intros Hcopy Hy. induction items as [|[k v] items IH]; intros st Hst; simpl; [done|].
  apply IH. destruct st as [[[]|e] s]; simpl; [|done].
  destruct Hst as (Hf & Hm & _). simpl in *.
  specialize (Hcopy v s Hf Hm).
  destruct (copy v s) as [[v'|e] [h m]]; simpl in *; [|by destruct Hcopy as (? & ? & _)].
  destruct Hcopy as (Hf' & Hm' & Hv). split_and!; simpl; [|done|done].
  apply framed_write; auto.
Qed.

Lemma memo_new_insert m l y :
  memo_new m → y ∉ dom h0 → memo_new (<[l := y]> m).
Proof.
  intros Hm Hy l' y' Hl'. destruct (decide (l = l')) as [->|Hne].
  - rewrite lookup_insert_eq in Hl'. by injection Hl' as <-.
  - rewrite lookup_insert_ne in Hl' by done. eauto.
Qed.

Lemma deepcopy_memo_ok limit x s :
  framed s.1 → memo_new s.2 → copy_ok new_val (deepcopy_memo limit x s).
Proof.
  revert x s. induction limit as [|limit IH]; intros [n|l] s Hf Hm; simpl.
  - split_and!; [done..|]. by intros a [= <-].
  - destruct (s.2 !! l) as [y|] eqn:Hl; simpl; [|done].
    split_and!; [done..|]. intros a [= <-]. simpl. eauto.
  - split_and!; [done..|]. by intros a [= <-].
  - destruct (s.2 !! l) as [y|] eqn:Hl; simpl.
    { split_and!; [done..|]. intros a [= <-]. simpl. eauto. }
    pose proof (framed_fresh _ Hf) as Hy.
    set (y := fresh (dom s.1)) in *.
    pose proof (copy_items_ok (deepcopy_memo limit) y (map_to_list (s.1 !!! l))
                  IH Hy (Ok (), (<[y := ∅]> s.1, <[l := y]> s.2))) as Hfold.
    destruct Hfold as (Hf' & Hm' & _).
    { split_and!; simpl; [by apply framed_alloc|by apply memo_new_insert|done]. }
    destruct (foldl _ _ _) as [[[]|e] s'']; simpl in *.
    + split_and!; [done..|]. by intros a [= <-].
    + by split_and!.
Qed.

(** ** A Hoare rule per operation *)

Definition keeps_frame {A} (m : py A) (Q : A → Prop) : Prop :=
  ∀ h, framed h → framed (m h).2 ∧ ∀ a, (m h).1 = Ok a → Q a.

Lemma keeps_ret {A} (a : A) (Q : A → Prop) : Q a → keeps_frame (ret a) Q.
Proof. intros Ha h Hf. split; [done|]. by intros ? [= <-]. Qed.

Lemma keeps_raise {A} e (Q : A → Prop) : keeps_frame (raise e) Q.
Proof. intros h Hf. by split. Qed.

Lemma keeps_bind {A B} (m : py A) (f : A → py B) (P : A → Prop) (Q : B → Prop) :
  keeps_frame m P → (∀ a, P a → keeps_frame (f a) Q) → keeps_frame (bind m f) Q.
Proof.
  intros Hm Hk h Hf. unfold bind. destruct (Hm h Hf) as [Hf' HP].
  destruct (m h) as [[a|e] h']; simpl in *; [|by split].
  by apply Hk; [apply HP|].
Qed.

Lemma keeps_deepcopy limit x : keeps_frame (deepcopy limit x) new_val.
Proof.
  intros h Hf. unfold deepcopy.
  pose proof (deepcopy_memo_ok limit x (h, ∅) Hf) as Hc.
  destruct (deepcopy_memo limit x (h, ∅)) as [r [h' m]]. simpl in *.
  destruct Hc as (? & _ & ?); [|done]. intros l y Hl. by rewrite lookup_empty in Hl.
Qed.

Lemma keeps_subscript x k : new_val x → keeps_frame (subscript x k) new_val.
Proof.
  intros Hx h Hf. unfold subscript. destruct x as [n|l]; [by split|].
  destruct ((h !!! l) !! k) as [v|] eqn:Hv; simpl; [|by split].
  split; [done|]. intros a [= <-]. destruct Hf as [_ Hc]. by eapply Hc.
Qed.

Lemma keeps_store x k v :
  new_val x → new_val v → keeps_frame (store x k v) (λ _, True).
Proof.
  intros Hx Hv h Hf. unfold store. destruct x as [n|l]; [by split|].
  simpl. split; [|done]. by apply framed_write.
Qed.

Lemma keeps_contains k x : keeps_frame (contains k x) (λ _, True).
Proof. intros h Hf. unfold contains. by destruct x. Qed.

Lemma keeps_mul a b : keeps_frame (py_mul a b) new_val.
Proof.
  unfold py_mul. destruct a, b; auto using keeps_raise.
  by apply keeps_ret.
Qed.

Lemma keeps_pow pow a : keeps_frame (py_pow pow a) new_val.
Proof.
  destruct a as [x|l]; simpl; [|apply keeps_raise].
  destruct (pow x); [by apply keeps_ret|apply keeps_raise].
Qed.

Lemma keeps_pow_2 a : keeps_frame (py_pow_2 a) new_val.
Proof. apply keeps_pow. Qed.

Lemma keeps_pow_1_5 a : keeps_frame (py_pow_1_5 a) new_val.
Proof. apply keeps_pow. Qed.

Lemma keeps_subscript2 x k1 k2 :
  new_val x → keeps_frame (subscript2 x k1 k2) new_val.
Proof.
  intros Hx. eapply keeps_bind; [by apply keeps_subscript|].
  intros y Hy. by apply keeps_subscript.
Qed.

Lemma keeps_store2 x k1 k2 v :
  new_val x → new_val v → keeps_frame (store2 x k1 k2 v) (λ _, True).
Proof.
  intros Hx Hv. eapply keeps_bind; [by apply keeps_subscript|].
  intros y Hy. by apply keeps_store.
Qed.

Ltac keeps_step :=
  lazymatch goal with
  | |- keeps_frame (bind (deepcopy _ _) _) _ =>
      eapply keeps_bind; [apply keeps_deepcopy | intros ? ?]
  | |- keeps_frame (bind (subscript2 _ _ _) _) _ =>
      eapply keeps_bind; [apply keeps_subscript2; assumption | intros ? ?]
  | |- keeps_frame (bind (subscript _ _) _) _ =>
      eapply keeps_bind; [apply keeps_subscript; assumption | intros ? ?]
  | |- keeps_frame (bind (store2 _ _ _ _) _) _ =>
      eapply keeps_bind; [apply keeps_store2; assumption | intros ? _]
  | |- keeps_frame (bind (py_mul _ _) _) _ =>
      eapply keeps_bind; [apply keeps_mul | intros ? ?]
  | |- keeps_frame (bind (py_pow_2 _) _) _ =>
      eapply keeps_bind; [apply keeps_pow_2 | intros ? ?]
  | |- keeps_frame (bind (py_pow_1_5 _) _) _ =>
      eapply keeps_bind; [apply keeps_pow_1_5 | intros ? ?]
  | |- keeps_frame (bind (contains _ _) _) _ =>
      eapply keeps_bind; [apply keeps_contains | intros ? _]
  | |- keeps_frame (bind (if ?b then _ else _) _) _ =>
      eapply (keeps_bind _ _ (λ _, True)); [destruct b | intros ? _]
  | |- keeps_frame (store2 _ _ _ _) _ => apply keeps_store2; assumption
  | |- keeps_frame (ret _) _ => apply keeps_ret; first [assumption | exact I]
  end.

Lemma keeps_dimentionalize limit x :
  keeps_frame (dimentionalize limit x) new_val.
Proof. unfold dimentionalize. repeat keeps_step. Qed.
End frame.

Section copy.
Context {num : Type} `{Arith num}.

(** [x[k]] for the object at [l]. *)
Definition field (h : heap num) (l : positive) (k : string) : option (val num) :=
  (h !!! l) !! k.

(** A dictionary of numbers. *)
Definition flat (h : heap num) (l : positive) : Prop :=
  ∀ k v, field h l k = Some v → ∃ n, v = VNum n.

(** A specification: a dictionary whose values are numbers or
    dictionaries of numbers. *)
Definition two_level (h : heap num) (l0 : positive) : Prop :=
  l0 ∈ dom h ∧
  ∀ k l, field h l0 k = Some (VRef l) → l ∈ dom h ∧ flat h l.

Lemma field_store (h : heap num) l k v l2 k2 :
  field (<[l := <[k := v]> (h !!! l)]> h) l2 k2 =
    if decide (l = l2 ∧ k = k2) then Some v else field h l2 k2.
Proof.
  unfold field. destruct (decide (l = l2)) as [->|Hl].
  - rewrite lookup_total_insert_eq. destruct (decide (k = k2)) as [->|Hk].
    + rewrite lookup_insert_eq. by rewrite decide_True.
    + rewrite lookup_insert_ne by done. rewrite decide_False; [done|]. by intros [_ ?].
  - rewrite lookup_total_insert_ne by done. rewrite decide_False; [done|]. by intros [? _].
Qed.

Lemma field_store_ne (h : heap num) l k v l2 k2 :
  k ≠ k2 → field (<[l := <[k := v]> (h !!! l)]> h) l2 k2 = field h l2 k2.
Proof. intros Hk. rewrite field_store, decide_False; [done|]. by intros [_ ?]. Qed.

Lemma field_store_eq (h : heap num) l k v :
  field (<[l := <[k := v]> (h !!! l)]> h) l k = Some v.
Proof. by rewrite field_store, decide_True. Qed.

Lemma deepcopy_memo_num limit (n : num) s :
  deepcopy_memo limit (VNum n) s = (Ok (VNum n), s).
Proof. by destruct limit. Qed.

Definition put (d : gmap string (val num)) (kv : string * val num) :=
  <[kv.1 := kv.2]> d.

Lemma fill_flat copy y (items : list (string * val num)) :
  (∀ n s, copy (VNum n) s = (Ok (VNum n), s)) →
  Forall (λ kv, ∃ n, kv.2 = VNum n) items →
  ∀ (h : heap num) (m : memo) d0,
    foldl (copy_item copy y) (Ok (), (<[y := d0]> h, m)) items =
      (Ok (), (<[y := foldl put d0 items]> h, m)).
Proof.
  intros Hcopy. induction 1 as [|[k v] items [n Hn] _ IH]; intros h m d0; simpl; [done|].
  simpl in Hn. subst v. rewrite Hcopy.
  rewrite lookup_total_insert_eq, insert_insert_eq. apply IH.
Qed.

Lemma foldl_put (items : list (string * val num)) d0 :
  NoDup items.*1 → foldl put d0 items = list_to_map items ∪ d0.
Proof.
  revert d0. induction items as [|[k v] items IH]; intros d0 Hnd; simpl.
  - by rewrite (left_id_L ∅ (∪)).
  - apply NoDup_cons in Hnd as [Hk Hnd]. rewrite IH by done. unfold put. simpl.
    rewrite <- insert_union_r by (by apply not_elem_of_list_to_map_1).
    by rewrite insert_union_l.
Qed.

(** Copying a dictionary of numbers allocates one object, equal to it. *)
Lemma copy_flat limit (h : heap num) (m : memo) l :
  flat h l → m !! l = None →
  deepcopy_memo (S limit) (VRef l) (h, m) =
    (Ok (VRef (fresh (dom h))),
     (<[fresh (dom h) := h !!! l]> h, <[l := fresh (dom h)]> m)).
Proof.
  intros Hflat Hm. simpl. rewrite Hm.
  rewrite (fill_flat (deepcopy_memo limit)).
  - rewrite foldl_put by apply NoDup_fst_map_to_list.
    by rewrite list_to_map_to_list, (right_id_L ∅ (∪)).
  - apply deepcopy_memo_num.
  - apply Forall_forall. intros [k v] Hin. simpl.
    apply elem_of_map_to_list in Hin. by apply (Hflat k).
Qed.

(** The state of a copy in progress of the specification [l0] of the
    heap [h] into the new object [y0]: the objects of [h] are as they
    were, and every dictionary entered in the memo has been copied. *)
Record copying (h : heap num) (l0 y0 : positive) (hc : heap num) (m : memo)
  : Prop := {
  cp_frame : ∀ l, l ∈ dom h → hc !! l = h !! l;
  cp_top : y0 ∈ dom hc;
  cp_done : ∀ l y, m !! l = Some y → l ≠ l0 →
              y ≠ y0 ∧ (y ∉ dom h) ∧ hc !! y = Some (h !!! l)
}.

(** [v'] in the heap [hc] is the copy of [v] in [h]. *)
Definition copied (h hc : heap num) (y0 : positive) (v v' : val num) : Prop :=
  match v with
  | VNum n => v' = VNum n
  | VRef l => ∃ y, v' = VRef y ∧ y ≠ y0 ∧ (y ∉ dom h) ∧ hc !! y = Some (h !!! l)
  end.

(** An item of a specification. *)
Definition item_ok (h : heap num) (l0 : positive) (kv : string * val num) : Prop :=
  match kv.2 with
  | VNum _ => True
  | VRef l => l ∈ dom h ∧ flat h l ∧ l ≠ l0
  end.

Lemma copying_dom h l0 y0 hc m l : copying h l0 y0 hc m → l ∈ dom h → l ∈ dom hc.
Proof.
  intros [Hf _ _] Hl. apply elem_of_dom. rewrite (Hf l Hl). by apply elem_of_dom.
Qed.

Lemma copying_write h l0 y0 hc m k v :
  y0 ∉ dom h → copying h l0 y0 hc m →
  copying h l0 y0 (<[y0 := <[k := v]> (hc !!! y0)]> hc) m.
Proof.
  intros Hy0 [Hf Ht Hd]. split.
  - intros l Hl. rewrite lookup_insert_ne; [by apply Hf|]. by intros ->.
  - apply elem_of_dom. rewrite lookup_insert_eq. by eexists.
  - intros l y Hm Hl. destruct (Hd l y Hm Hl) as (? & ? & ?).
    split_and!; [done..|]. by rewrite lookup_insert_ne.
Qed.

Lemma copying_alloc h l0 y0 hc m l :
  copying h l0 y0 hc m → l ∈ dom h → l ≠ l0 →
  copying h l0 y0 (<[fresh (dom hc) := hc !!! l]> hc) (<[l := fresh (dom hc)]> m).
Proof.
  intros Hc Hl Hl0. pose proof (is_fresh (dom hc)) as Hy.
  destruct Hc as [Hf Ht Hd]. split.
  - intros l' Hl'. rewrite lookup_insert_ne; [by apply Hf|].
    intros <-. apply Hy. apply elem_of_dom. rewrite (Hf _ Hl'). by apply elem_of_dom.
  - apply elem_of_dom. rewrite lookup_insert_ne; [by apply elem_of_dom|].
    intros <-. by apply Hy.
  - intros l' y Hm Hl'. destruct (decide (l = l')) as [<-|Hne].
    + rewrite lookup_insert_eq in Hm. injection Hm as <-. split_and!.
      * by intros Heq; rewrite Heq in Hy.
      * intros Hin. apply Hy. apply elem_of_dom. rewrite (Hf _ Hin). by apply elem_of_dom.
      * rewrite lookup_insert_eq. f_equal.
        by rewrite !lookup_total_alt, (Hf l Hl).
    + rewrite lookup_insert_ne in Hm by done.
      destruct (Hd l' y Hm Hl') as (? & ? & Hy').
      split_and!; [done..|]. rewrite lookup_insert_ne; [done|].
      intros <-. apply Hy. apply elem_of_dom. by rewrite Hy'.
Qed.

Lemma flat_frame (h hc : heap num) l :
  hc !! l = h !! l → flat h l → flat hc l.
Proof.
  intros Heq Hflat k v. unfold field. rewrite lookup_total_alt, Heq, <- lookup_total_alt.
  apply Hflat.
Qed.

(** One item of the top-level dictionary is copied into [y0]. *)
Lemma copy_item_top limit h l0 y0 hc m k v :
  y0 ∉ dom h → copying h l0 y0 hc m → item_ok h l0 (k, v) →
  ∃ hc' m' v',
    copy_item (deepcopy_memo (S limit)) y0 (Ok (), (hc, m)) (k, v) = (Ok (), (hc', m')) ∧
    copying h l0 y0 hc' m' ∧
    field hc' y0 k = Some v' ∧ copied h hc' y0 v v' ∧
    (∀ k2, k ≠ k2 → field hc' y0 k2 = field hc y0 k2) ∧
    (∀ y, y ∈ dom hc → y ≠ y0 → hc' !! y = hc !! y).
Proof.
  intros Hy0 Hc Hv. unfold copy_item. cbn [fst snd].
  destruct v as [n|l].
  - rewrite deepcopy_memo_num. eexists _, _, _. split; [done|].
    split_and!.
    + by apply copying_write.
    + apply field_store_eq.
    + done.
    + intros k2 Hk. by apply field_store_ne.
    + intros y _ Hy. by rewrite lookup_insert_ne.
  - destruct Hv as (Hl & Hflat & Hl0). simpl in Hl, Hflat, Hl0.
    destruct (m !! l) as [y|] eqn:Hm.
    + replace (deepcopy_memo (S limit) (VRef l) (hc, m)) with
        (Ok (@VRef num y), (hc, m)) by (simpl; by rewrite Hm).
      eexists _, _, _. split; [done|].
      destruct (cp_done _ _ _ _ _ Hc l y Hm Hl0) as (Hyy & Hyh & Hy).
      split_and!.
      * by apply copying_write.
      * apply field_store_eq.
      * exists y. split_and!; [done..|]. by rewrite lookup_insert_ne.
      * intros k2 Hk. by apply field_store_ne.
      * intros y' _ Hy'. by rewrite lookup_insert_ne.
    + rewrite copy_flat; [|by eapply flat_frame; [apply Hc|]|done].
      pose proof (copying_alloc _ _ _ _ _ l Hc Hl Hl0) as Hc'.
      pose proof (is_fresh (dom hc)) as Hfresh.
      set (y := fresh (dom hc)) in *.
      eexists _, _, _. split; [done|].
      destruct (cp_done _ _ _ _ _ Hc' l y) as (Hyy & Hyh & Hy);
        [by rewrite lookup_insert_eq|done|].
      split_and!.
      * by apply copying_write.
      * apply field_store_eq.
      * exists y. split_and!; [done..|]. by rewrite lookup_insert_ne.
      * intros k2 Hk. rewrite field_store_ne by done.
        unfold field. rewrite lookup_total_insert_ne; [done|].
        intros ->. by apply Hfresh, Hc.
      * intros y' Hin Hy'. rewrite lookup_insert_ne by done.
        rewrite lookup_insert_ne; [done|]. by intros <-.
Qed.

Lemma copied_stable h hc hc' y0 v v' :
  (∀ y, y ∈ dom hc → y ≠ y0 → hc' !! y = hc !! y) →
  copied h hc y0 v v' → copied h hc' y0 v v'.
Proof.
  intros Hst. destruct v as [n|l]; [done|]. intros (y & -> & Hy0 & Hyh & Hy).
  exists y. split_and!; [done..|]. rewrite Hst; [done| |done].
  apply elem_of_dom. by rewrite Hy.
Qed.

(** All the items of the top-level dictionary are copied into [y0]. *)
Lemma copy_items_top limit h l0 y0 items :
  y0 ∉ dom h → Forall (item_ok h l0) items → NoDup items.*1 →
  ∀ hc m, copying h l0 y0 hc m →
  ∃ hc' m',
    foldl (copy_item (deepcopy_memo (S limit)) y0) (Ok (), (hc, m)) items
      = (Ok (), (hc', m')) ∧
    copying h l0 y0 hc' m' ∧
    (∀ k v, (k, v) ∈ items →
       ∃ v', field hc' y0 k = Some v' ∧ copied h hc' y0 v v') ∧
    (∀ k, k ∉ items.*1 → field hc' y0 k = field hc y0 k) ∧
    (∀ y, y ∈ dom hc → y ≠ y0 → hc' !! y = hc !! y).
Proof.
  intros Hy0 Hitems. induction Hitems as [|[k v] items Hkv _ IH]; intros Hnd hc m Hc.
  - simpl. exists hc, m. split_and!; try done. intros k v Hin. by apply elem_of_nil in Hin.
  - apply NoDup_cons in Hnd as [Hk Hnd]. simpl in Hk.
    destruct (copy_item_top limit h l0 y0 hc m k v Hy0 Hc Hkv)
      as (hc1 & m1 & v1 & Hstep & Hc1 & Hf1 & Hcp1 & Hother1 & Hst1).
    destruct (IH Hnd hc1 m1 Hc1) as (hc' & m' & Hfold & Hc' & Hall & Hother & Hst).
    exists hc', m'. cbn [foldl]. rewrite Hstep. split; [exact Hfold|].
    assert (Hdom : ∀ y, y ∈ dom hc → y ∈ dom hc1).
    { intros y Hy. destruct (decide (y = y0)) as [->|Hne]; [apply Hc1|].
      apply elem_of_dom. rewrite Hst1 by done. by apply elem_of_dom. }
    split_and!; [done| | |].
    + intros k' v' Hin. apply elem_of_cons in Hin as [[= -> ->]|Hin]; [|by apply Hall].
      exists v1. rewrite Hother by done. split; [done|].
      eapply copied_stable; [|exact Hcp1]. done.
    + intros k' Hk'. simpl in Hk'. apply not_elem_of_cons in Hk' as [Hne Hk'].
      rewrite Hother by done. apply Hother1. done.
    + intros y Hy Hne. rewrite Hst by auto. by apply Hst1.
Qed.

Lemma deepcopy_memo_fresh limit l (s : heap num * memo) :
  s.2 !! l = None →
  deepcopy_memo (S limit) (VRef l) s =
    match foldl (copy_item (deepcopy_memo limit) (fresh (dom s.1)))
            (Ok (), (<[fresh (dom s.1) := ∅]> s.1, <[l := fresh (dom s.1)]> s.2))
            (map_to_list (s.1 !!! l)) with
    | (Ok _, s'') => (Ok (VRef (fresh (dom s.1))), s'')
    | (Raise e, s'') => (Raise e, s'')
    end.
Proof. intros Hm. simpl. by rewrite Hm. Qed.

(** [deepcopy] of a specification returns a new object whose items are
    the copies of the items of the specification. *)
Lemma copy_two_level limit (h : heap num) l0 :
  two_level h l0 →
  ∃ y0 h1,
    deepcopy (S (S limit)) (VRef l0) h = (Ok (VRef y0), h1) ∧
    (y0 ∉ dom h) ∧
    ∀ k, match field h l0 k with
         | Some v => ∃ v', field h1 y0 k = Some v' ∧ copied h h1 y0 v v'
         | None => field h1 y0 k = None
         end.
Proof.
  intros [Hl0 Htop]. pose proof (is_fresh (dom h)) as Hy0.
  unfold deepcopy. rewrite deepcopy_memo_fresh by apply lookup_empty. cbn [fst snd].
  set (y0 := fresh (dom h)) in *.
  destruct (copy_items_top limit h l0 y0 (map_to_list (h !!! l0)) Hy0)
    with (hc := <[y0 := ∅]> h) (m := <[l0 := y0]> (∅ : memo))
    as (h1 & m1 & Hfold & Hc & Hall & Hother & _).
  - apply Forall_forall. intros [k v] Hin. apply elem_of_map_to_list in Hin.
    unfold item_ok. simpl. destruct v as [n|l]; [done|].
    destruct (Htop k l Hin) as [Hl Hflat]. split_and!; [done..|].
    intros ->. destruct (Hflat k _ Hin) as [n [=]].
  - apply NoDup_fst_map_to_list.
  - split.
    + intros l Hl. rewrite lookup_insert_ne; [done|]. by intros <-.
    + apply elem_of_dom. rewrite lookup_insert_eq. by eexists.
    + intros l y Hm Hl. rewrite lookup_insert_ne in Hm by done.
      by rewrite lookup_empty in Hm.
  - exists y0, h1. rewrite Hfold. split; [done|]. split; [done|].
    intros k. destruct (field h l0 k) as [v|] eqn:Hk.
    + apply Hall. by apply elem_of_map_to_list.
    + rewrite Hother.
      * unfold field. by rewrite lookup_total_insert_eq, lookup_empty.
      * intros Hin. apply list_elem_of_fmap in Hin as ([k' v] & -> & Hin).
        apply elem_of_map_to_list in Hin. simpl in Hk. unfold field in Hk. congruence.
Qed.
End copy.

Section values.
Context {num : Type} `{Arith num}.

Lemma bind_subscript2 {B} (h : heap num) l k1 k2 l1 v (f : val num → py B) :
  field h l k1 = Some (VRef l1) → field h l1 k2 = Some v →
  bind (subscript2 (VRef l) k1 k2) f h = f v h.
Proof.
  unfold field. intros H1 H2. unfold subscript2, bind, subscript. rewrite H1.
  by rewrite H2.
Qed.

Lemma bind_subscript {B} (h : heap num) l k v (f : val num → py B) :
  field h l k = Some v → bind (subscript (VRef l) k) f h = f v h.
Proof. unfold field. intros H1. unfold bind, subscript. by rewrite H1. Qed.

Lemma bind_store2 {B} (h : heap num) l k1 k2 l1 v (f : unit → py B) :
  field h l k1 = Some (VRef l1) →
  bind (store2 (VRef l) k1 k2 v) f h = f () (<[l1 := <[k2 := v]> (h !!! l1)]> h).
Proof.
  unfold field. intros H1. unfold store2, bind, subscript. by rewrite H1.
Qed.

Lemma store2_run (h : heap num) l k1 k2 l1 v :
  field h l k1 = Some (VRef l1) →
  store2 (VRef l) k1 k2 v h = (Ok (), <[l1 := <[k2 := v]> (h !!! l1)]> h).
Proof.
  unfold field. intros H1. unfold store2, bind, subscript. by rewrite H1.
Qed.

Lemma bind_mul {B} (h : heap num) x y (f : val num → py B) :
  bind (py_mul (VNum x) (VNum y)) f h = f (VNum (mul x y)) h.
Proof. done. Qed.

Lemma bind_pow_2 {B} (h : heap num) x y (f : val num → py B) :
  pow_2 x = Some y → bind (py_pow_2 (VNum x)) f h = f (VNum y) h.
Proof. intros Hy. unfold py_pow_2, py_pow, bind. by rewrite Hy. Qed.

Lemma bind_pow_1_5 {B} (h : heap num) x y (f : val num → py B) :
  pow_1_5 x = Some y → bind (py_pow_1_5 (VNum x)) f h = f (VNum y) h.
Proof. intros Hy. unfold py_pow_1_5, py_pow, bind. by rewrite Hy. Qed.

Lemma bind_contains {B} (h : heap num) k l (f : bool → py B) :
  bind (contains k (VRef l)) f h = f (bool_decide (is_Some (field h l k))) h.
Proof. done. Qed.

Lemma copied_field (h h1 : heap num) y0 l v' :
  copied h h1 y0 (VRef l) v' →
  ∃ y, v' = VRef y ∧ ∀ k, field h1 y k = field h l k.
Proof.
  intros (y & -> & _ & _ & Hy). exists y. split; [done|].
  intros k'. unfold field. by rewrite (lookup_total_alt h1), Hy.
Qed.

(** The powers that [dimentionalize] takes are in range: [a15] is
    A0 ** 1.5, [h2] is h0 ** 2 and [v2] is (A0 * h0) ** 2. *)
Definition in_range (A0 h0 a15 h2 v2 : num) : Prop :=
  pow_1_5 A0 = Some a15 ∧ pow_2 h0 = Some h2 ∧ pow_2 (mul A0 h0) = Some v2.

(** The six entries that [dimentionalize] writes, for an input with the
    entries [Kv], [A0], [h0], [gamma] on faces and [lbda] on edges, and
    the powers [a15], [h2] and [v2]. *)
Definition dimensioned (h : heap num) (le : positive) (Kv A0 h0 gamma lbda : num)
    (a15 h2 v2 : num) (h' : heap num) (dim : positive) : Prop :=
  ∃ face edge settings,
    field h' dim "face" = Some (VRef face) ∧
    field h' dim "edge" = Some (VRef edge) ∧
    field h' dim "settings" = Some (VRef settings) ∧
    field h' face "contractility"
      = Some (VNum (mul (mul (mul gamma Kv) A0) h2)) ∧
    field h' face "prefered_vol" = Some (VNum (mul A0 h0)) ∧
    field h' edge "line_tension"
      = Some (VNum (mul (mul (mul lbda Kv) a15) h2)) ∧
    field h' settings "grad_norm_factor"
      = Some (VNum (mul (mul Kv a15) h2)) ∧
    field h' settings "nrj_norm_factor"
      = Some (VNum (mul Kv v2)) ∧
    field h' edge "anchor_elasticity" =
      match field h le "anchor_elasticity" with
      | Some (VNum ka) => Some (VNum (mul (mul (mul ka Kv) A0) h2))
      | _ => None
      end.

(** The input entries that [dimentionalize] reads. *)
Definition dimensionless (h : heap num) (l0 lf le ls : positive)
    (Kv A0 h0 gamma lbda : num) : Prop :=
  two_level h l0 ∧
  field h l0 "face" = Some (VRef lf) ∧
  field h l0 "edge" = Some (VRef le) ∧
  field h l0 "settings" = Some (VRef ls) ∧
  field h lf "vol_elasticity" = Some (VNum Kv) ∧
  field h lf "prefered_area" = Some (VNum A0) ∧
  field h lf "prefered_height" = Some (VNum h0) ∧
  field h lf "contractility" = Some (VNum gamma) ∧
  field h le "line_tension" = Some (VNum lbda).

Ltac read_field :=
  rewrite ?field_store_ne by done; eassumption.

Lemma dimentionalize_run limit (h : heap num) l0 lf le ls Kv A0 h0 gamma lbda
    a15 h2 v2 :
  dimensionless h l0 lf le ls Kv A0 h0 gamma lbda →
  in_range A0 h0 a15 h2 v2 →
  ∃ dim h',
    dimentionalize (S (S limit)) (VRef l0) h = (Ok (VRef dim), h') ∧
    (dim ∉ dom h) ∧
    dimensioned h le Kv A0 h0 gamma lbda a15 h2 v2 h' dim.
Proof.
  intros (Htwo & Hf & He & Hs & HKv & HA0 & Hh0 & Hg & Hl) (Ha15 & Hh2 & Hv2).
  destruct (copy_two_level limit h l0 Htwo) as (y0 & h1 & Hcopy & Hy0 & Htop).
  pose proof (Htop "face") as Hf1. rewrite Hf in Hf1.
  destruct Hf1 as (vf & Hf1 & Hcf). apply copied_field in Hcf as (yf & -> & Hyf).
  pose proof (Htop "edge") as He1. rewrite He in He1.
  destruct He1 as (ve & He1 & Hce). apply copied_field in Hce as (ye & -> & Hye).
  pose proof (Htop "settings") as Hs1. rewrite Hs in Hs1.
  destruct Hs1 as (vs & Hs1 & Hcs). apply copied_field in Hcs as (ys & -> & Hys).
  rewrite <- Hyf in HKv, HA0, Hh0, Hg. rewrite <- Hye in Hl.
  unfold dimentionalize. unfold bind at 1. rewrite Hcopy.
  do 4 (erewrite bind_subscript2 by read_field).
  rewrite !bind_mul. erewrite bind_pow_2 by eassumption. rewrite bind_mul.
  erewrite bind_store2 by read_field.
  rewrite bind_mul. erewrite bind_store2 by read_field.
  erewrite bind_subscript2 by read_field.
  rewrite bind_mul. erewrite bind_pow_1_5 by eassumption.
  rewrite bind_mul. erewrite bind_pow_2 by eassumption. rewrite bind_mul.
  erewrite bind_store2 by read_field.
  erewrite bind_pow_1_5 by eassumption. rewrite bind_mul.
  erewrite bind_pow_2 by eassumption. rewrite bind_mul.
  erewrite bind_store2 by read_field.
  rewrite bind_mul. erewrite bind_pow_2 by eassumption. rewrite bind_mul.
  erewrite bind_store2 by read_field.
  erewrite bind_subscript by read_field.
  rewrite bind_contains. rewrite !field_store_ne by done.
  destruct (field h1 ye "anchor_elasticity") as [va|] eqn:Ha.
  - rewrite bool_decide_eq_true_2 by eauto.
    assert (∃ ka, va = VNum ka) as [ka ->].
    { destruct Htwo as [_ Htwo]. destruct (Htwo _ _ He) as [_ Hflat].
      apply (Hflat "anchor_elasticity"). by rewrite <- Hye. }
    unfold bind at 1.
    erewrite bind_subscript2 by read_field.
    rewrite !bind_mul. erewrite bind_pow_2 by eassumption. rewrite bind_mul.
    erewrite store2_run by read_field.
    eexists _, _. split; [reflexivity|]. split; [done|].
    exists yf, ye, ys.
    rewrite <- Hye, Ha.
    split_and!;
      first [ by rewrite ?field_store_ne by done
            | by rewrite ?field_store_ne by done; rewrite field_store_eq ].
  - rewrite bool_decide_eq_false_2 by (by intros [? ?]).
    unfold bind at 1. unfold ret.
    eexists _, _. split; [reflexivity|]. split; [done|].
    exists yf, ye, ys.
    rewrite <- Hye, Ha.
    split_and!;
      first [ by rewrite ?field_store_ne by done
            | by rewrite ?field_store_ne by done; rewrite field_store_eq ].
Qed.




End values.

Section purity.
Context {num : Type} `{Arith num}.

(** [m] can only return [a]. *)
Definition returns {A} (m : @py num A) (a : A) : Prop :=
  ∀ h b, (m h).1 = Ok b → b = a.

Lemma returns_ret {A} (a : A) : returns (ret a) a.
Proof. by intros h b [= <-]. Qed.

Lemma returns_bind {A B} (m : @py num A) (f : A → py B) (b : B) :
  (∀ a, returns (f a) b) → returns (bind m f) b.
Proof.
  intros Hf h b'. unfold bind. destruct (m h) as [[a|e] h']; [apply Hf|done].
Qed.

Lemma dimentionalize_returns_copy limit (x : val num) h v :
  (dimentionalize limit x h).1 = Ok v → ∃ l, v = VRef l.
Proof.
  unfold dimentionalize. unfold bind at 1.
  destruct (deepcopy limit x h) as [[[n|y]|e] h1]; [done| |done].
  intros Hv. exists y. revert Hv.
  generalize h1 v.
  repeat (apply returns_bind; intros ?). apply returns_ret.
Qed.

(** C7. Whatever its outcome, [dimentionalize] leaves every object that
    existed before the call as it was: no key of the input mapping, nor
    of any dictionary reachable from it, is added, removed or modified.
    What it returns is a new object, and it does return on every
    specification that holds the entries it reads and on which the
    powers it takes are in range. *)
Theorem dimentionalize_leaves_input limit (x : val num) (h : heap num) :
  (∀ l, l ∈ dom h → (dimentionalize limit x h).2 !! l = h !! l) ∧
  (∀ v, (dimentionalize limit x h).1 = Ok v → ∃ l, v = VRef l ∧ l ∉ dom h) ∧
  (∀ l0 lf le ls Kv A0 h0 gamma lbda a15 h2 v2,
     x = VRef l0 → 2 ≤ limit →
     dimensionless h l0 lf le ls Kv A0 h0 gamma lbda →
     in_range A0 h0 a15 h2 v2 →
     is_Ok (dimentionalize limit x h).1).
Proof.
  destruct (keeps_dimentionalize h limit x h (framed_init h)) as [[Hframe _] Hnew].
  split_and!.
  - exact Hframe.
  - intros v Hv. destruct (dimentionalize_returns_copy _ _ _ _ Hv) as [l ->].
    exists l. split; [done|]. exact (Hnew _ Hv).
  - intros l0 lf le ls Kv A0 h0 gamma lbda a15 h2 v2 -> Hlimit Hin Hrange.
    destruct limit as [|[|limit]]; [lia..|].
    destruct (dimentionalize_run limit h l0 lf le ls Kv A0 h0 gamma lbda a15 h2 v2
                Hin Hrange) as (dim & h' & -> & _). by eexists.
Qed.



End purity.

(** ** Decidable well-formedness, for concrete specifications *)

Section check.
Context {num : Type}.

Definition is_num (v : val num) : bool :=
  match v with VNum _ => true | VRef _ => false end.

Definition flat_b (h : heap num) (l : positive) : bool :=
  bool_decide (map_Forall (λ _ v, is_num v = true) (h !!! l)).

Definition item_b (h : heap num) (v : val num) : bool :=
  match v with
  | VNum _ => true
  | VRef l => bool_decide (l ∈ dom h) && flat_b h l
  end.

Definition two_level_b (h : heap num) (l0 : positive) : bool :=
  bool_decide (l0 ∈ dom h) &&
  bool_decide (map_Forall (λ _ v, item_b h v = true) (h !!! l0)).

Lemma two_level_b_correct (h : heap num) l0 :
  two_level_b h l0 = true → two_level h l0.
Proof.
  unfold two_level_b. intros [Hl0 Hitems]%andb_prop.
  apply bool_decide_eq_true in Hl0, Hitems. split; [done|].
  intros k l Hk. specialize (Hitems k _ Hk). simpl in Hitems.
  apply andb_prop in Hitems as [Hl Hflat].
  apply bool_decide_eq_true in Hl. apply bool_decide_eq_true in Hflat.
  split; [done|]. intros k' v Hv. specialize (Hflat k' _ Hv). simpl in Hflat.
  destruct v; [by eexists|done].
Qed.
End check.

(** ** Concrete specifications *)

Section examples.
Local Open Scope R_scope.

Ltac by_compute := vm_compute; reflexivity.



(** Kv = 2, A0 = 4, h0 = 3, gamma = 1/2 on faces; lambda = 5 and an
    anchor elasticity of 7 on edges. *)
Definition heap_ex : heap (option R) :=
  {[ 1%positive := {[ "face" := VRef 2; "edge" := VRef 3; "settings" := VRef 4 ]};
     2%positive := {[ "vol_elasticity" := VNum (Some 2);
                      "prefered_area" := VNum (Some 4);
                      "prefered_height" := VNum (Some 3);
                      "contractility" := VNum (Some (1 / 2)) ]};
     3%positive := {[ "line_tension" := VNum (Some 5);
                      "anchor_elasticity" := VNum (Some 7) ]};
     4%positive := ∅ ]}.



Lemma heap_ex_dimensionless :
  dimensionless heap_ex 1 2 3 4 (Some 2) (Some 4) (Some 3) (Some (1 / 2)) (Some 5).
Proof.
  split; [apply two_level_b_correct; by_compute|]. repeat split.
Qed.


(** In exact arithmetic every power is in range. *)
Lemma real_in_range (A0 h0 : option R) :
  in_range A0 h0 (real_pow_1_5 A0) (real_pow_2 h0) (real_pow_2 (real_mul A0 h0)).
Proof. repeat split. Qed.




Lemma dimentionalize_leaves_input_witness :
  (2%positive ∈ dom heap_ex) ∧
  (dimentionalize 2 (VRef 1) heap_ex).2 !! 2%positive = heap_ex !! 2%positive ∧
  is_Ok (dimentionalize 2 (VRef 1) heap_ex).1.
Proof.
  assert (Hin : 2%positive ∈ dom heap_ex) by (apply elem_of_dom; eexists; reflexivity).
  destruct (dimentionalize_leaves_input 2 (VRef 1) heap_ex) as (Hframe & _ & Hret).
  split; [exact Hin|]. split; [exact (Hframe _ Hin)|].
  exact (Hret 1%positive 2%positive 3%positive 4%positive _ _ _ _ _ _ _ _
           eq_refl (le_n 2) heap_ex_dimensionless (real_in_range (Some 4) (Some 3))).
Defined.

(** With Kv = 2, A0 = 4 and h0 = 3 the gradient is normalized by 144 and
    the energy by 288. *)
Example dimentionalize_ex_factors :
  real_mul (real_mul (Some 2) (real_pow_1_5 (Some 4))) (real_pow_2 (Some 3)) = Some 144 ∧
  real_mul (Some 2) (real_pow_2 (real_mul (Some 4) (Some 3))) = Some 288.
Proof.
  simpl. unfold real_pow_1_5. destruct (Rle_dec 0 4) as [_|Hn]; [|lra]. simpl.
  replace 4 with (2 * 2) at 2 by lra. rewrite sqrt_square by lra.
  split; f_equal; lra.
Qed.

End examples.

End SpecFacts.

(** * Properties of the sheet vertex model *)

Module SheetModelFacts.
Import SheetModel.
Local Open Scope R_scope.

(** ** Sums *)

Lemma foldl_Rplus (a : R) (l : list R) : foldl Rplus a l = a + Rsum l.
Proof.
  unfold Rsum. revert a. induction l as [|x l IH]; intros a; simpl; [lra|].
  rewrite (IH (a + x)), (IH (0 + x)). lra.
Qed.

Lemma Rsum_nil : Rsum [] = 0.
Proof. done. Qed.

Lemma Rsum_cons (x : R) (l : list R) : Rsum (x :: l) = x + Rsum l.
Proof. unfold Rsum at 1. simpl. rewrite foldl_Rplus. lra. Qed.

Lemma Rsum_div (n : R) (l : list R) :
  Rsum (map (λ x, x / n) l) = Rsum l / n.
Proof.
  induction l as [|x l IH]; simpl.
  - rewrite Rsum_nil. lra.
  - rewrite !Rsum_cons, IH. lra.
Qed.

(** A sum over the rows that pass a test is the sum over all rows of the
    terms of those that pass it: the others contribute nothing. *)
Lemma Rsum_filter {A} (p : A → bool) (f : A → R) (l : list A) :
  Rsum (map f (List.filter p l)) = Rsum (map (λ x, if p x then f x else 0) l).
Proof.
  induction l as [|x l IH]; simpl; [done|].
  destruct (p x); simpl; rewrite !Rsum_cons, ?IH; lra.
Qed.

(** ** Well-formed sheets *)

(** Every half-edge refers to a face of the face table. *)
Definition face_ids_ok (sheet : Sheet) : Prop :=
  Forall (λ e, (face e < List.length (face_df sheet))%nat) (edge_df sheet).

(** Every half-edge refers to vertices of the vertex table. *)
Definition vert_ids_ok (sheet : Sheet) : Prop :=
  Forall (λ e, (srce e < List.length (vert_df sheet))%nat ∧
               (trgt e < List.length (vert_df sheet))%nat) (edge_df sheet).

(** The anchor columns come together. *)
Definition anchors_ok (sheet : Sheet) : Prop :=
  has_is_anchor sheet = true → has_anchor_elasticity sheet = true.

(** ** The energy as the description gives it *)

Definition face_alive (f : Face) : bool := bool_decide (is_alive f = 1%Z).

(** A half-edge is live when it bounds a live face. *)
Definition edge_alive (sheet : Sheet) (e : Edge) : bool :=
  match face_df sheet !! face e with
  | Some f => face_alive f
  | None => false
  end.

Definition tension_energy (e : Edge) : R := line_tension e * length e / 2.
Definition volume_energy (f : Face) : R :=
  0.5 * vol_elasticity f * (vol f - prefered_vol f) ^ 2.
Definition contractile_energy (f : Face) : R :=
  0.5 * contractility f * perimeter f ^ 2.
Definition anchor_energy (e : Edge) : R :=
  0.5 * anchor_elasticity e * length e ^ 2 * is_anchor e.

Definition spec_energy (sheet : Sheet) (nrj_norm_factor : R) : R :=
  (Rsum (map tension_energy (List.filter (edge_alive sheet) (edge_df sheet)))
   + Rsum (map volume_energy (List.filter face_alive (face_df sheet)))
   + Rsum (map contractile_energy (List.filter face_alive (face_df sheet)))
   + (if has_is_anchor sheet then Rsum (map anchor_energy (edge_df sheet)) else 0))
  / nrj_norm_factor.

(** The same with every sum taken over the whole table, dead faces and
    their half-edges counting for nothing. *)
Definition spec_energy_all (sheet : Sheet) (nrj_norm_factor : R) : R :=
  (Rsum (map (λ e, if edge_alive sheet e then tension_energy e else 0) (edge_df sheet))
   + Rsum (map (λ f, if face_alive f then volume_energy f else 0) (face_df sheet))
   + Rsum (map (λ f, if face_alive f then contractile_energy f else 0) (face_df sheet))
   + (if has_is_anchor sheet then Rsum (map anchor_energy (edge_df sheet)) else 0))
  / nrj_norm_factor.

(** ** Upcasting *)

Lemma upcast_ok {A} (key : Edge → nat) (name : string) (sheet : Sheet) (col : list A) :
  Forall (λ e, (key e < List.length col)%nat) (edge_df sheet) →
  ∃ l, upcast key name sheet col = Ok l ∧
       Forall2 (λ e x, col !! key e = Some x) (edge_df sheet) l.
Proof.
  unfold upcast. induction 1 as [|e es He _ (l & IH & Hl)]; simpl.
  - by exists [].
  - apply lookup_lt_is_Some_2 in He as [x Hx]. rewrite Hx. simpl.
    rewrite IH. simpl. exists (x :: l). split; [done|]. by constructor.
Qed.

Lemma select_alive (sheet : Sheet) (es : list Edge) (ua : list Z) :
  Forall2 (λ e x, map is_alive (face_df sheet) !! face e = Some x) es ua →
  select (map (λ a, bool_decide (a = 1%Z)) ua) es = List.filter (edge_alive sheet) es.
Proof.
  unfold select. induction 1 as [|e x es ua Hx _ IH]; simpl; [done|].
  unfold edge_alive at 1, face_alive. rewrite list_lookup_fmap in Hx.
  destruct (face_df sheet !! face e) as [f|]; [|done]. simpl in Hx.
  injection Hx as <-. destruct (bool_decide _); simpl; by rewrite <- IH.
Qed.

(** The terms of the energy, one Series each, before normalization. *)
Definition energy_terms (sheet : Sheet) : list (list R) :=
  [map tension_energy (List.filter (edge_alive sheet) (edge_df sheet));
   map volume_energy (List.filter face_alive (face_df sheet));
   map contractile_energy (List.filter face_alive (face_df sheet))] ++
  (if has_is_anchor sheet then [map anchor_energy (edge_df sheet)] else []).

Lemma face_ids_ok_column {A} (f : Face → A) (sheet : Sheet) :
  face_ids_ok sheet →
  Forall (λ e, (face e < List.length (map f (face_df sheet)))%nat) (edge_df sheet).
Proof.
  intros Hids. eapply Forall_impl; [exact Hids|]. simpl.
  intros e ?. by rewrite length_map.
Qed.

(** What [compute_energy] computes in either mode. *)
Local Opaque pow.

Lemma compute_energy_run (sheet : Sheet) (n : R) (full_output : bool) :
  face_ids_ok sheet → anchors_ok sheet →
  settings sheet !! "nrj_norm_factor" = Some n →
  compute_energy sheet full_output =
    if full_output then
      Ok (Terms (map (λ E, Series (map (λ x, x / n) E)) (energy_terms sheet)))
    else Ok (Energy (spec_energy sheet n)).
Proof.
  intros Hids Hanchor Hn. unfold compute_energy.
  destruct (upcast_ok face "face" sheet (map is_alive (face_df sheet))
              (face_ids_ok_column is_alive sheet Hids)) as (ua & Hua & Hrel).
  unfold upcast_face. rewrite Hua. simpl.
  rewrite (select_alive sheet _ _ Hrel).
  fold face_alive.
  assert (Hanch : map (λ e, anchor_elasticity e * length e ^ 2 * is_anchor e / 2)
                    (edge_df sheet) = map anchor_energy (edge_df sheet)).
  { apply map_ext. intros e. unfold anchor_energy. lra. }
  unfold setting, anchor_columns, energy_terms, spec_energy.
  destruct (has_is_anchor sheet) eqn:Ha.
  - rewrite (Hanchor Ha). simpl. rewrite Hn. simpl. rewrite Hanch.
    destruct full_output; [done|]. do 2 f_equal.
    unfold elastic_energy.
    change (λ f, 0.5 * vol_elasticity f * (vol f - prefered_vol f) ^ 2)
      with volume_energy.
    change (λ f, 0.5 * contractility f * perimeter f ^ 2) with contractile_energy.
    change (λ e, line_tension e * length e / 2) with tension_energy.
    lra.
  - simpl. rewrite Hn. simpl.
    destruct full_output; [done|]. do 2 f_equal.
    unfold elastic_energy.
    change (λ f, 0.5 * vol_elasticity f * (vol f - prefered_vol f) ^ 2)
      with volume_energy.
    change (λ f, 0.5 * contractility f * perimeter f ^ 2) with contractile_energy.
    change (λ e, line_tension e * length e / 2) with tension_energy.
    lra.
Qed.

Local Transparent pow.

Lemma spec_energy_dead (sheet : Sheet) (n : R) :
  spec_energy sheet n = spec_energy_all sheet n.
Proof.
  unfold spec_energy, spec_energy_all. by rewrite !Rsum_filter.
Qed.

(** C3. In default mode [compute_energy] returns the sum over the live
    half-edges of line_tension * length / 2, plus the sums over the live
    faces of 0.5 * vol_elasticity * (vol - prefered_vol)^2 and of
    0.5 * contractility * perimeter^2, plus, only when the edge table has
    the anchor columns, the sum over all half-edges of
    0.5 * anchor_elasticity * length^2 * is_anchor, the whole divided by
    nrj_norm_factor; dead faces and their half-edges add nothing to the
    first three sums. *)
Theorem compute_energy_total (sheet : Sheet) (n : R) :
  face_ids_ok sheet → anchors_ok sheet →
  settings sheet !! "nrj_norm_factor" = Some n →
  compute_energy sheet false = Ok (Energy (spec_energy sheet n)) ∧
  spec_energy sheet n = spec_energy_all sheet n.
Proof.
  intros Hids Hanchor Hn. split.
  - exact (compute_energy_run sheet n false Hids Hanchor Hn).
  - apply spec_energy_dead.
Qed.

(** The statement that [full_output] yields one scalar per term, the
    summand of the default total. *)
Definition spec_full_output (sheet : Sheet) (n : R) : energy :=
  Terms (map (λ E, Scalar (Rsum E / n)) (energy_terms sheet)).

Definition series_sum (v : value) : R :=
  match v with Scalar x => x | Series xs => Rsum xs end.

(** C4 (amended). With [full_output] set, [compute_energy] yields one
    Series per energy term, holding the term of each row (each live
    half-edge, each live face, each half-edge for the anchor term)
    divided by nrj_norm_factor, not summed; the sum of each Series is the
    corresponding summand of the default total, and the default total is
    the sum of these sums. *)
Theorem compute_energy_full_output (sheet : Sheet) (n : R) :
  face_ids_ok sheet → anchors_ok sheet →
  settings sheet !! "nrj_norm_factor" = Some n →
  ∃ es total,
    compute_energy sheet true = Ok (Terms es) ∧
    es = map (λ E, Series (map (λ x, x / n) E)) (energy_terms sheet) ∧
    map series_sum es = map (λ E, Rsum E / n) (energy_terms sheet) ∧
    compute_energy sheet false = Ok (Energy total) ∧
    total = Rsum (map series_sum es).
Proof.
  intros Hids Hanchor Hn.
  eexists _, _. split; [exact (compute_energy_run sheet n true Hids Hanchor Hn)|].
  split; [done|].
  assert (Hsums : map series_sum
            (map (λ E, Series (map (λ x, x / n) E)) (energy_terms sheet))
          = map (λ E, Rsum E / n) (energy_terms sheet)).
  { rewrite map_map. apply map_ext. intros E. simpl. apply Rsum_div. }
  split; [exact Hsums|].
  split; [exact (compute_energy_run sheet n false Hids Hanchor Hn)|].
  rewrite Hsums. unfold spec_energy, energy_terms.
  destruct (has_is_anchor sheet); simpl; rewrite !Rsum_cons, Rsum_nil; lra.
Qed.

(** ** A concrete sheet

    Two vertices joined by an edge that bounds two live faces (0 and 2)
    and a dead one (1): five half-edges, two for each of the live faces
    and one for the dead face. *)

Definition sheet_ex : Sheet :=
  mkSheet
    [mkVert 1 1; mkVert 0 1]
    [mkEdge 0 1 0 2 1 0 0 0;
     mkEdge 1 0 0 2 1 0 0 0;
     mkEdge 0 1 1 2 1 0 0 0;
     mkEdge 0 1 2 4 1 0 0 0;
     mkEdge 1 0 2 4 1 0 0 0]
    [mkFace 1 3 1 2 1 4;
     mkFace 0 3 1 2 1 4;
     mkFace 1 2 1 2 1 2]
    false false
    {[ "nrj_norm_factor" := 2; "grad_norm_factor" := 1 ]}.

Lemma sheet_ex_face_ids_ok : face_ids_ok sheet_ex.
Proof. unfold face_ids_ok. simpl. repeat constructor; simpl; lia. Qed.

Lemma sheet_ex_vert_ids_ok : vert_ids_ok sheet_ex.
Proof. unfold vert_ids_ok. simpl. repeat constructor; simpl; lia. Qed.

Lemma sheet_ex_anchors_ok : anchors_ok sheet_ex.
Proof. intros [=]. Qed.

Lemma compute_energy_total_witness :
  face_ids_ok sheet_ex ∧ anchors_ok sheet_ex ∧
  settings sheet_ex !! "nrj_norm_factor" = Some 2 ∧
  compute_energy sheet_ex false = Ok (Energy (spec_energy sheet_ex 2)) ∧
  spec_energy sheet_ex 2 = spec_energy_all sheet_ex 2.
Proof.
  split; [exact sheet_ex_face_ids_ok|]. split; [exact sheet_ex_anchors_ok|].
  split; [reflexivity|].
  exact (compute_energy_total sheet_ex 2 sheet_ex_face_ids_ok sheet_ex_anchors_ok eq_refl).
Defined.

(** The energy of [sheet_ex]: tension 1 + 1 + 2 + 2, volume 4 + 1,
    contractility 8 + 2, halved by the normalization. *)
Example spec_energy_ex : spec_energy sheet_ex 2 = 21 / 2.
Proof.
  unfold spec_energy, tension_energy, volume_energy, contractile_energy. simpl.
  rewrite !Rsum_cons, !Rsum_nil. simpl. lra.
Qed.

Lemma compute_energy_full_output_witness :
  face_ids_ok sheet_ex ∧ anchors_ok sheet_ex ∧
  settings sheet_ex !! "nrj_norm_factor" = Some 2 ∧
  ∃ es total,
    compute_energy sheet_ex true = Ok (Terms es) ∧
    es = map (λ E, Series (map (λ x, x / 2) E)) (energy_terms sheet_ex) ∧
    map series_sum es = map (λ E, Rsum E / 2) (energy_terms sheet_ex) ∧
    compute_energy sheet_ex false = Ok (Energy total) ∧
    total = Rsum (map series_sum es).
Proof.
  split; [exact sheet_ex_face_ids_ok|]. split; [exact sheet_ex_anchors_ok|].
  split; [reflexivity|].
  exact (compute_energy_full_output sheet_ex 2
           sheet_ex_face_ids_ok sheet_ex_anchors_ok eq_refl).
Defined.

(** C4 as stated fails: on [sheet_ex] the contractile term comes out as a
    Series with one entry per live face, 4 and 1, and not as the scalar 5
    that is its share of the total. *)
Lemma full_output_not_scalars :
  (∃ E_t E_v, compute_energy sheet_ex true
     = Ok (Terms [Series E_t; Series E_v; Series [0.5 * 1 * 4 ^ 2 / 2; 0.5 * 1 * 2 ^ 2 / 2]])) ∧
  (∃ t v, spec_full_output sheet_ex 2 = Terms [Scalar t; Scalar v; Scalar 5]) ∧
  compute_energy sheet_ex true ≠ Ok (spec_full_output sheet_ex 2).
Proof.
  pose proof (compute_energy_run sheet_ex 2 true
                sheet_ex_face_ids_ok sheet_ex_anchors_ok eq_refl) as Hrun.
  cbv beta iota in Hrun. split_and!.
  - eexists _, _. rewrite Hrun. reflexivity.
  - eexists _, _. unfold spec_full_output. cbn [energy_terms sheet_ex has_is_anchor map app].
    do 4 f_equal. f_equal.
    unfold contractile_energy. simpl. rewrite !Rsum_cons, Rsum_nil. simpl. lra.
  - rewrite Hrun. unfold spec_full_output. cbn [energy_terms sheet_ex has_is_anchor map app].
    intros [=].
Qed.

(** ** Aggregation onto the vertices *)

(** The rows of [df] whose half-edge has the vertex [v] as [key]. *)
Definition incident (key : Edge → nat) (sheet : Sheet) (df : list vec) (v : nat)
  : list vec :=
  (List.filter (λ eg : Edge * vec, bool_decide (key eg.1 = v))
     (zip (edge_df sheet) df)).*2.

(** Their sum: sum-as-source for [srce], sum-as-target for [trgt]. *)
Definition sum_at (key : Edge → nat) (sheet : Sheet) (df : list vec) (v : nat) : vec :=
  vsum (incident key sheet df v).

Lemma group_sum_step (key : Edge → nat) (v : nat) (l : list (Edge * vec)) :
  ∀ acc : list vec,
    foldl (λ acc (eg : Edge * vec), alter (λ s, vadd s eg.2) (key eg.1) acc) acc l !! v
    = (λ a, foldl vadd a
              (List.filter (λ eg : Edge * vec, bool_decide (key eg.1 = v)) l).*2)
        <$> acc !! v.
Proof.
  induction l as [|[e g] l IH]; intros acc; simpl.
  - by destruct (acc !! v).
  - rewrite IH. destruct (decide (key e = v)) as [Heq|Hne].
    + rewrite bool_decide_eq_true_2 by done. subst v.
      rewrite list_lookup_alter_eq. by destruct (acc !! key e).
    + rewrite bool_decide_eq_false_2 by done.
      by rewrite list_lookup_alter_ne.
Qed.

(** Grouping by vertex and summing gives, at each vertex, the sum of the
    rows of its incident half-edges. *)
Lemma group_sum_lookup (key : Edge → nat) (sheet : Sheet) (df : list vec) (v : nat) :
  (v < List.length (vert_df sheet))%nat →
  group_sum key sheet df !! v = Some (sum_at key sheet df v).
Proof.
  intros Hv. unfold group_sum. rewrite group_sum_step.
  by rewrite lookup_replicate_2.
Qed.

Lemma group_sum_length (key : Edge → nat) (sheet : Sheet) (df : list vec) :
  List.length (group_sum key sheet df) = List.length (vert_df sheet).
Proof.
  unfold group_sum. generalize (zip (edge_df sheet) df).
  assert (H : ∀ (l : list (Edge * vec)) (acc : list vec),
            List.length (foldl (λ acc (eg : Edge * vec),
                                  alter (λ s, vadd s eg.2) (key eg.1) acc) acc l)
            = List.length acc).
  { induction l as [|eg l IH]; intros acc; simpl; [done|].
    by rewrite IH, length_alter. }
  intros l. by rewrite H, length_replicate.
Qed.

(** The aggregated gradient at a vertex, as the code computes it. *)
Definition aggregate_at (sheet : Sheet) (g : terms) (v : nat) : vec :=
  let grad_i :=
    vadd (vadd (vsub (vadd (vdiv (vsub (sum_at srce sheet (grad_t g) v)
                                       (sum_at trgt sheet (grad_t g) v)) 2)
                           (sum_at srce sheet (grad_c g) v))
                     (sum_at trgt sheet (grad_c g) v))
               (sum_at srce sheet (grad_v_srce g) v))
         (sum_at trgt sheet (grad_v_trgt g) v) in
  match grad_a g with
  | Some a => vadd grad_i (sum_at srce sheet a v)
  | None => grad_i
  end.

(** The aggregated gradient at a vertex, as the description gives it:
    contractile and anchor terms as sum-as-source plus sum-as-target. *)
Definition spec_aggregate_at (sheet : Sheet) (g : terms) (v : nat) : vec :=
  let grad_i :=
    vadd (vadd (vadd (vadd (vdiv (vsub (sum_at srce sheet (grad_t g) v)
                                       (sum_at trgt sheet (grad_t g) v)) 2)
                           (sum_at srce sheet (grad_c g) v))
                     (sum_at trgt sheet (grad_c g) v))
               (sum_at srce sheet (grad_v_srce g) v))
         (sum_at trgt sheet (grad_v_trgt g) v) in
  match grad_a g with
  | Some a => vadd grad_i (vadd (sum_at srce sheet a v) (sum_at trgt sheet a v))
  | None => grad_i
  end.

Lemma aggregate_lookup (sheet : Sheet) (g : terms) (v : nat) :
  (v < List.length (vert_df sheet))%nat →
  aggregate sheet g !! v = Some (aggregate_at sheet g v).
Proof.
  intros Hv. unfold aggregate, aggregate_at, sum_srce, sum_trgt.
  destruct (grad_a g) as [a|];
    repeat first [ rewrite lookup_zip_with | rewrite list_lookup_fmap
                 | rewrite group_sum_lookup by done ]; done.
Qed.

(** C2 (amended). In the default aggregation, at every vertex: the
    tension term enters as (sum-as-source minus sum-as-target) / 2; the
    contractile term as sum-as-source minus sum-as-target, not halved;
    the elastic source-side term as its sum-as-source and the elastic
    target-side term as its sum-as-target; and, when the edge table has
    the column is_anchor, the anchor term as its sum-as-source alone. *)
Theorem aggregate_at_vertex (sheet : Sheet) (g : terms) (v : nat) :
  (v < List.length (vert_df sheet))%nat →
  aggregate sheet g !! v =
    Some (let grad_i :=
            vadd (vadd (vsub (vadd (vdiv (vsub (sum_at srce sheet (grad_t g) v)
                                               (sum_at trgt sheet (grad_t g) v)) 2)
                                   (sum_at srce sheet (grad_c g) v))
                             (sum_at trgt sheet (grad_c g) v))
                       (sum_at srce sheet (grad_v_srce g) v))
                 (sum_at trgt sheet (grad_v_trgt g) v) in
          match grad_a g with
          | Some a => vadd grad_i (sum_at srce sheet a v)
          | None => grad_i
          end).
Proof.
  intros Hv.
  pose proof (group_sum_lookup srce sheet) as Hsrce.
  pose proof (group_sum_lookup trgt sheet) as Htrgt.
  unfold aggregate, sum_srce, sum_trgt.
  destruct (grad_a g) as [a|].
  - rewrite !lookup_zip_with, list_lookup_fmap, lookup_zip_with.
    by rewrite !Hsrce, !Htrgt.
  - rewrite !lookup_zip_with, list_lookup_fmap, lookup_zip_with.
    by rewrite !Hsrce, !Htrgt.
Qed.

(** ** Normalization of the gradient *)

(** The row of [_to_3d(sheet.vert_df.is_active)] for a vertex. *)
Definition active_mask (vert : Vert) : vec :=
  mkvec (IZR (is_active vert)) (IZR (is_active vert)) (IZR (is_active vert)).

Lemma vmul_inactive (a : vec) (n : R) : vdiv (vmul a (mkvec 0 0 0)) n = vzero.
Proof. unfold vdiv, vmul, vzero. simpl. f_equal; lra. Qed.

Section normalization.
Variable length_grad : Sheet → list vec.
Variable area_grad : Sheet → list vec * list vec.
Variable height_grad : Sheet → list vec.

Lemma gradient_terms_ok (sheet : Sheet) :
  face_ids_ok sheet → vert_ids_ok sheet → anchors_ok sheet →
  List.length (height_grad sheet) = List.length (vert_df sheet) →
  ∃ g, gradient_terms length_grad area_grad height_grad sheet = Ok g ∧
       (has_is_anchor sheet = false → grad_a g = None).
Proof.
  intros Hfaces Hverts Hanchor Hlen.
  unfold gradient_terms, contractile_grad, elastic_grad, upcast_face, upcast_srce.
  destruct (upcast_ok face "face" sheet
              (map (λ f, contractility f * perimeter f) (face_df sheet)))
    as (gamma & -> & _).
  { by apply face_ids_ok_column. }
  simpl.
  destruct (upcast_ok face "face" sheet
              (zip_with Rmult (elastic_force (face_df sheet))
                 (map (λ f, IZR (is_alive f)) (face_df sheet))))
    as (kv & -> & _).
  { eapply Forall_impl; [exact Hfaces|]. simpl. intros e ?.
    unfold elastic_force. rewrite length_zip_with, !length_map. lia. }
  simpl.
  destruct (upcast_ok srce "srce" sheet (map height (vert_df sheet)))
    as (eh & -> & _).
  { eapply Forall_impl; [exact Hverts|]. simpl. intros e (? & _). by rewrite length_map. }
  simpl. destruct (area_grad sheet) as [ga_s ga_t].
  destruct (upcast_ok srce "srce" sheet (height_grad sheet)) as (gh & -> & _).
  { eapply Forall_impl; [exact Hverts|]. simpl. intros e (? & _). by rewrite Hlen. }
  simpl. unfold anchor_grad, anchor_columns.
  destruct (has_is_anchor sheet) eqn:Ha.
  - rewrite (Hanchor Ha). simpl. eexists. split; [done|]. done.
  - simpl. eexists. split; [done|]. done.
Qed.

(** The statement that the gradient is normalized by grad_norm_factor. *)
Definition spec_gradient (sheet : Sheet) (g : terms) (grad_norm_factor : R)
  : gradient :=
  Gradient
    (map (λ v, vdiv v grad_norm_factor)
       (zip_with vmul (aggregate sheet g) (map active_mask (vert_df sheet)))).

(** What [compute_gradient] computes in default mode. *)
Lemma compute_gradient_run (sheet : Sheet) (n : R) (g : terms) :
  settings sheet !! "nrj_norm_factor" = Some n →
  gradient_terms length_grad area_grad height_grad sheet = Ok g →
  compute_gradient length_grad area_grad height_grad sheet false
    = Ok (Gradient
            (map (λ v, vdiv v n)
               (zip_with vmul (aggregate sheet g)
                  (map active_mask (vert_df sheet))))).
Proof.
  intros Hn Hg. unfold compute_gradient, setting. rewrite Hn. simpl. rewrite Hg.
  simpl. unfold _to_3d. by rewrite map_map.
Qed.

Lemma aggregate_length (sheet : Sheet) (g : terms) :
  List.length (aggregate sheet g) = List.length (vert_df sheet).
Proof.
  unfold aggregate.
  destruct (grad_a g);
    rewrite ?length_zip_with, ?length_map, ?length_zip_with;
    unfold sum_srce, sum_trgt; rewrite ?group_sum_length; lia.
Qed.

(** C1 (amended). In default mode [compute_gradient] returns one vector
    per vertex: the aggregated gradient at the vertex, multiplied
    elementwise by the active-vertex mask, so that it is exactly zero at
    an inactive vertex, and divided by the setting nrj_norm_factor, the
    factor that also normalizes the energy. *)
Theorem compute_gradient_normalized (sheet : Sheet) (n : R) :
  face_ids_ok sheet → vert_ids_ok sheet → anchors_ok sheet →
  List.length (height_grad sheet) = List.length (vert_df sheet) →
  settings sheet !! "nrj_norm_factor" = Some n →
  ∃ g grad,
    gradient_terms length_grad area_grad height_grad sheet = Ok g ∧
    compute_gradient length_grad area_grad height_grad sheet false
      = Ok (Gradient grad) ∧
    List.length grad = List.length (vert_df sheet) ∧
    ∀ v vert, vert_df sheet !! v = Some vert →
      grad !! v = Some (vdiv (vmul (aggregate_at sheet g v) (active_mask vert)) n) ∧
      (is_active vert = 0%Z → grad !! v = Some vzero).
Proof.
  intros Hfaces Hverts Hanchor Hlen Hn.
  destruct (gradient_terms_ok sheet Hfaces Hverts Hanchor Hlen) as (g & Hg & _).
  exists g. eexists. split; [exact Hg|].
  split; [exact (compute_gradient_run sheet n g Hn Hg)|].
  split.
  - by rewrite length_map, length_zip_with, length_map, aggregate_length, Nat.min_id.
  - intros v vert Hv.
    assert (Hat : map (λ v, vdiv v n)
                (zip_with vmul (aggregate sheet g) (map active_mask (vert_df sheet))) !! v
              = Some (vdiv (vmul (aggregate_at sheet g v) (active_mask vert)) n)).
    { rewrite list_lookup_fmap, lookup_zip_with.
      rewrite aggregate_lookup by (by eapply lookup_lt_Some).
      by rewrite list_lookup_fmap, Hv. }
    split; [exact Hat|].
    intros H0. rewrite Hat. f_equal.
    unfold active_mask. rewrite H0. apply vmul_inactive.
Qed.
End normalization.

(** ** The gradient of a concrete sheet

    [sheet_ex] with vertex 0 at the origin and vertex 1 at distance 1 on
    the first axis, flat: the length of a half-edge decreases when its
    source moves towards its target, and areas and heights do not vary. *)

Definition length_grad_ex (sheet : Sheet) : list vec :=
  map (λ e, if (srce e <? trgt e)%nat then mkvec (-1) 0 0 else mkvec 1 0 0)
    (edge_df sheet).
Definition area_grad_ex (sheet : Sheet) : list vec * list vec :=
  (map (λ _, vzero) (edge_df sheet), map (λ _, vzero) (edge_df sheet)).
Definition height_grad_ex (sheet : Sheet) : list vec :=
  map (λ _, vzero) (vert_df sheet).

Definition terms_ex : terms :=
  match gradient_terms length_grad_ex area_grad_ex height_grad_ex sheet_ex with
  | Ok g => g
  | Raise _ => mkTerms [] [] [] [] None
  end.

Example gradient_terms_ex :
  gradient_terms length_grad_ex area_grad_ex height_grad_ex sheet_ex = Ok terms_ex.
Proof. reflexivity. Qed.

Ltac vec_simpl :=
  unfold aggregate_at, spec_aggregate_at, sum_at, incident, vsum, active_mask;
  simpl; unfold vadd, vsub, vmul, vdiv, vzero; simpl.

(** At vertex 0 of [sheet_ex] the code gives -23 along the first axis:
    -7 from the tension and -16 from the contractility. *)
Example aggregate_ex : aggregate_at sheet_ex terms_ex 0 = mkvec (-23) 0 0.
Proof. vec_simpl. f_equal; lra. Qed.

Example spec_aggregate_ex : spec_aggregate_at sheet_ex terms_ex 0 = mkvec (-11) 0 0.
Proof. vec_simpl. f_equal; lra. Qed.

Lemma aggregate_at_vertex_witness :
  (0 < List.length (vert_df sheet_ex))%nat ∧
  aggregate sheet_ex terms_ex !! 0%nat = Some (mkvec (-23) 0 0).
Proof.
  assert (H : (0 < List.length (vert_df sheet_ex))%nat) by (simpl; lia).
  split; [exact H|].
  rewrite (aggregate_at_vertex sheet_ex terms_ex 0 H).
  f_equal. exact aggregate_ex.
Defined.

(** C2 as stated fails: at vertex 0 of [sheet_ex] the contractile term
    enters with sum-as-source minus sum-as-target (-10 - 6), not with
    their sum (-10 + 6). *)
Lemma contractile_sign_flipped :
  sum_at srce sheet_ex (grad_c terms_ex) 0 = mkvec (-10) 0 0 ∧
  sum_at trgt sheet_ex (grad_c terms_ex) 0 = mkvec 6 0 0 ∧
  aggregate sheet_ex terms_ex !! 0%nat = Some (mkvec (-23) 0 0) ∧
  spec_aggregate_at sheet_ex terms_ex 0 = mkvec (-11) 0 0 ∧
  aggregate sheet_ex terms_ex !! 0%nat ≠ Some (spec_aggregate_at sheet_ex terms_ex 0).
Proof.
  assert (Hagg : aggregate sheet_ex terms_ex !! 0%nat = Some (mkvec (-23) 0 0)).
  { rewrite aggregate_lookup by (simpl; lia). f_equal. exact aggregate_ex. }
  split_and!.
  - vec_simpl. f_equal; lra.
  - vec_simpl. f_equal; lra.
  - exact Hagg.
  - exact spec_aggregate_ex.
  - rewrite Hagg, spec_aggregate_ex. intros [= H]. lra.
Qed.

Lemma sheet_ex_height_grad :
  List.length (height_grad_ex sheet_ex) = List.length (vert_df sheet_ex).
Proof. reflexivity. Qed.

Lemma compute_gradient_normalized_witness :
  face_ids_ok sheet_ex ∧ vert_ids_ok sheet_ex ∧ anchors_ok sheet_ex ∧
  List.length (height_grad_ex sheet_ex) = List.length (vert_df sheet_ex) ∧
  settings sheet_ex !! "nrj_norm_factor" = Some 2 ∧
  ∃ g grad,
    gradient_terms length_grad_ex area_grad_ex height_grad_ex sheet_ex = Ok g ∧
    compute_gradient length_grad_ex area_grad_ex height_grad_ex sheet_ex false
      = Ok (Gradient grad) ∧
    List.length grad = List.length (vert_df sheet_ex) ∧
    ∀ v vert, vert_df sheet_ex !! v = Some vert →
      grad !! v = Some (vdiv (vmul (aggregate_at sheet_ex g v) (active_mask vert)) 2) ∧
      (is_active vert = 0%Z → grad !! v = Some vzero).
Proof.
  split; [exact sheet_ex_face_ids_ok|]. split; [exact sheet_ex_vert_ids_ok|].
  split; [exact sheet_ex_anchors_ok|].
  split; [exact sheet_ex_height_grad|]. split; [reflexivity|].
  exact (compute_gradient_normalized length_grad_ex area_grad_ex height_grad_ex
           sheet_ex 2 sheet_ex_face_ids_ok sheet_ex_vert_ids_ok sheet_ex_anchors_ok
           sheet_ex_height_grad eq_refl).
Defined.

(** C1 as stated fails: [sheet_ex] has nrj_norm_factor = 2 and
    grad_norm_factor = 1, and the gradient at its active vertex 0 is
    -23 / 2, the aggregated gradient divided by nrj_norm_factor, not
    -23 / 1. *)
Lemma gradient_not_normalized_by_grad_norm_factor :
  settings sheet_ex !! "nrj_norm_factor" = Some 2 ∧
  settings sheet_ex !! "grad_norm_factor" = Some 1 ∧
  (∃ grad,
     compute_gradient length_grad_ex area_grad_ex height_grad_ex sheet_ex false
       = Ok (Gradient grad) ∧
     grad !! 0%nat = Some (mkvec (-23 / 2) 0 0)) ∧
  compute_gradient length_grad_ex area_grad_ex height_grad_ex sheet_ex false
    ≠ Ok (spec_gradient sheet_ex terms_ex 1).
Proof.
  pose proof (compute_gradient_run length_grad_ex area_grad_ex height_grad_ex
                sheet_ex 2 terms_ex eq_refl gradient_terms_ex) as Hrun.
  assert (Hat : ∀ k : R,
            map (λ v, vdiv v k)
              (zip_with vmul (aggregate sheet_ex terms_ex)
                 (map active_mask (vert_df sheet_ex))) !! 0%nat
            = Some (mkvec (-23 / k) (0 / k) (0 / k))).
  { intros k. rewrite list_lookup_fmap, lookup_zip_with.
    rewrite aggregate_lookup by (simpl; lia). rewrite aggregate_ex. simpl.
    f_equal. unfold vdiv, vmul. simpl. f_equal; lra. }
  split; [reflexivity|]. split; [reflexivity|]. split.
  - eexists. split; [exact Hrun|]. rewrite Hat. f_equal. f_equal; lra.
  - rewrite Hrun. unfold spec_gradient. intros Heq.
    assert (Hgrad : map (λ v, vdiv v 2)
              (zip_with vmul (aggregate sheet_ex terms_ex)
                 (map active_mask (vert_df sheet_ex)))
            = map (λ v, vdiv v 1)
                (zip_with vmul (aggregate sheet_ex terms_ex)
                   (map active_mask (vert_df sheet_ex)))) by congruence.
    pose proof (Hat 2) as H2. rewrite Hgrad, Hat in H2.
    injection H2 as Hx. lra.
Qed.

End SheetModelFacts.

(** * More on [History]: what [record] keeps and what [retrieve] gives back *)

Module HistoryMore.
Import History HistoryFacts.
Local Open Scope Z_scope.

(** ** Bookkeeping of [record] *)

Lemma record_element_fields t sheet h element h' :
  record_element t sheet h element = Ok h' →
  time_id h' = time_id h ∧ time_index h' = time_index h ∧
  columns h' = columns h ∧ (datasets h').*1 = (datasets h).*1.
Proof.
  unfold record_element.
  destruct (alist_lookup element (datasets h)) as [hist|] eqn:Hhist; [|done]. simpl.
  destruct (alist_lookup element (columns h)) as [cols|]; [|done]. simpl.
  destruct (sheet_dataset sheet element) as [src|]; [|done]. simpl.
  destruct (getitem cols src) as [sel|]; [|done]. simpl.
  destruct (reset_index element sel) as [new|]; [|done]. simpl.
  intros [= <-]. simpl. split_and!; [done..|].
  clear -Hhist. revert Hhist. generalize (datasets h).
  induction l as [|[k v] l IH]; simpl; [done|].
  destruct (decide (element = k)) as [->|Hne]; [done|].
  intros Hl. simpl. f_equal. by apply IH.
Qed.

Lemma record_loop_fields t sheet to_record h :
  time_id (record_loop t sheet h to_record).1 = time_id h ∧
  time_index (record_loop t sheet h to_record).1 = time_index h ∧
  columns (record_loop t sheet h to_record).1 = columns h ∧
  (datasets (record_loop t sheet h to_record).1).*1 = (datasets h).*1.
Proof.
  revert h. induction to_record as [|element rest IH]; intros h; simpl; [done|].
  destruct (record_element t sheet h element) as [h'|e] eqn:Hel; simpl; [|done].
  destruct (record_element_fields _ _ _ _ _ Hel) as (F1 & F2 & F3 & F4).
  destruct (IH h') as (E1 & E2 & E3 & E4). split_and!; congruence.
Qed.

(** What a call of [record] does to the fields of the history other
    than the tables. *)
Lemma record_fields h sheet to_record time_stamp :
  time_id (record h sheet to_record time_stamp).1 = time_id h + 1 ∧
  time_index (record h sheet to_record time_stamp).1 = time_index h ++ [time_id h + 1] ∧
  columns (record h sheet to_record time_stamp).1 = columns h ∧
  (datasets (record h sheet to_record time_stamp).1).*1 = (datasets h).*1.
Proof.
  unfold record.
  destruct (record_loop_fields (time_id h + 1) sheet to_record
              (mkHistory (time_id h + 1) (datasets h) (columns h)
                 (time_index h ++ [time_id h + 1])
                 (match time_stamp with
                  | Some s => time_stamps h ++ [s]
                  | None => time_stamps h
                  end))) as (Ht & Hi & Hc & Hd).
  by split_and!.
Qed.

(** X1. [record] never starts recording a new element or a new column,
    and never drops one: whatever it is asked to record and whatever
    its outcome, the recorded elements, in their order, and their column
    lists are those fixed at construction, and every table keeps its
    columns once it stamps its rows. *)
Theorem record_keeps_schema sheet0 extra_cols h sheet to_record time_stamp :
  reachable sheet0 extra_cols h →
  columns (record h sheet to_record time_stamp).1 = columns h ∧
  (datasets (record h sheet to_record time_stamp).1).*1 = (datasets h).*1 ∧
  ∀ element hist cols,
    alist_lookup element (datasets (record h sheet to_record time_stamp).1)
      = Some hist →
    alist_lookup element (columns h) = Some cols →
    "time_id" ∉ cols →
    df_columns hist = element :: cols ++ ["time_id"].
Proof.
  intros Hreach.
  destruct (record_fields h sheet to_record time_stamp) as (_ & _ & Hc & Hd).
  split; [exact Hc|]. split; [exact Hd|].
  intros element hist cols Hhist Hcols Hnt.
  assert (Hreach' : reachable sheet0 extra_cols
                      (record h sheet to_record time_stamp).1)
    by (by apply reach_record).
  destruct (reachable_ok _ _ _ Hreach') as [_ Hok].
  pose proof (alist_lookup_Forall _ _ _ _ Hok Hhist) as (cols' & Hc' & Hst).
  simpl in Hc', Hst. rewrite Hc, Hcols in Hc'. injection Hc' as <-.
  by destruct (Hst Hnt) as [_ _ ? _ _ _].
Qed.

(** Every call of [record], failed or not, takes the next time id: the
    time index of a history is 1, 2, ..., [time_id]. *)
Lemma time_index_counts sheet0 extra_cols h :
  reachable sheet0 extra_cols h →
  0 ≤ time_id h ∧ time_index h = seqZ 1 (time_id h).
Proof.
  induction 1 as [h ws Hinit|h sheet to_record ts _ [IH0 IH]].
  - unfold init in Hinit.
    destruct (init_element "vert" _ _ _) as [[[? ?] ?]|]; [|done]. simpl in Hinit.
    destruct (init_element "face" _ _ _) as [[[? ?] ?]|]; [|done]. simpl in Hinit.
    destruct (cell_df sheet0); simpl in Hinit.
    + destruct (init_element "cell" _ _ _) as [[[? ?] ?]|]; [|done]. simpl in Hinit.
      destruct (init_element "edge" _ _ _) as [[[? ?] ?]|]; [|done]. simpl in Hinit.
      by injection Hinit as <- _.
    + destruct (init_element "edge" _ _ _) as [[[? ?] ?]|]; [|done]. simpl in Hinit.
      by injection Hinit as <- _.
  - unfold record.
    destruct (record_loop_fields (time_id h + 1) sheet to_record
                (mkHistory (time_id h + 1) (datasets h) (columns h)
                   (time_index h ++ [time_id h + 1])
                   (match ts with
                    | Some s => time_stamps h ++ [s]
                    | None => time_stamps h
                    end))) as (-> & -> & _ & _).
    simpl. split; [lia|]. rewrite IH.
    rewrite seqZ_app by lia. f_equal.
    rewrite seqZ_cons, seqZ_nil by lia. f_equal. lia.
Qed.

(** ** Elements the history does not record *)

Lemma alist_lookup_None {V} (k : string) (l : list (string * V)) :
  alist_lookup k l = None ↔ k ∉ l.*1.
Proof.
  induction l as [|[k' v] l IH]; simpl.
  - split; [intros _; apply not_elem_of_nil|done].
  - rewrite not_elem_of_cons. destruct (decide (k = k')) as [->|Hne]; [|tauto].
    split; [done|]. intros [? _]. done.
Qed.

Lemma record_loop_unknown t sheet element pre rest h :
  alist_lookup element (datasets h) = None →
  ∃ e, (record_loop t sheet h (pre ++ element :: rest)).2 = Some e.
Proof.
  revert h. induction pre as [|x pre IH]; intros h Hnone; simpl.
  - unfold record_element. rewrite Hnone. simpl. eauto.
  - destruct (record_element t sheet h x) as [h'|e] eqn:Hel; simpl; [|eauto].
    apply IH. apply alist_lookup_None.
    destruct (record_element_fields _ _ _ _ _ Hel) as (_ & _ & _ & ->).
    by apply alist_lookup_None.
Qed.

Lemma record_loop_app t sheet pre rest h :
  (record_loop t sheet h pre).2 = None →
  record_loop t sheet h (pre ++ rest)
    = record_loop t sheet (record_loop t sheet h pre).1 rest.
Proof.
  revert h. induction pre as [|x pre IH]; intros h; simpl; [done|].
  destruct (record_element t sheet h x) as [h'|e]; [apply IH|done].
Qed.

(** X2. Asking [record] for an element the history does not hold (cell
    for a sheet without cells, or a misspelt name) raises, wherever the
    element stands in the list, and the call has consumed a time id all
    the same.  Nothing is undone: when the elements before it were
    recorded, the exception is the KeyError of its name and the history
    is the one with these elements recorded at the new time id; the
    elements after it are not recorded. *)
Theorem record_unknown_element h sheet pre element rest time_stamp :
  alist_lookup element (datasets h) = None →
  time_id (record h sheet (pre ++ element :: rest) time_stamp).1 = time_id h + 1 ∧
  (∃ e, (record h sheet (pre ++ element :: rest) time_stamp).2 = Some e) ∧
  ((record h sheet pre time_stamp).2 = None →
   record h sheet (pre ++ element :: rest) time_stamp
     = ((record h sheet pre time_stamp).1, Some (KeyError element))).
Proof.
  intros Hnone. unfold record.
  set (hb := mkHistory (time_id h + 1) (datasets h) (columns h)
               (time_index h ++ [time_id h + 1])
               (match time_stamp with
                | Some s => time_stamps h ++ [s]
                | None => time_stamps h
                end)).
  split_and!.
  - by destruct (record_loop_fields (time_id h + 1) sheet (pre ++ element :: rest) hb)
      as (-> & _).
  - by apply record_loop_unknown.
  - intros Hpre. rewrite record_loop_app by done. simpl.
    unfold record_element.
    assert (Hnone' : alist_lookup element
                       (datasets (record_loop (time_id h + 1) sheet hb pre).1) = None).
    { apply alist_lookup_None.
      destruct (record_loop_fields (time_id h + 1) sheet pre hb) as (_ & _ & _ & ->).
      by apply alist_lookup_None. }
    by rewrite Hnone'.
Qed.

(** ** Retrieval before the construction *)

Lemma init_elements sheet extra_cols h ws :
  init sheet extra_cols = Ok (h, ws) → ∃ l, (datasets h).*1 = "vert" :: l.
Proof.
  unfold init.
  destruct (init_element "vert" _ _ _) as [[[? ?] ?]|]; [|done]. simpl.
  destruct (init_element "face" _ _ _) as [[[? ?] ?]|]; [|done]. simpl.
  destruct (cell_df sheet); simpl.
  - destruct (init_element "cell" _ _ _) as [[[? ?] ?]|]; [|done]. simpl.
    destruct (init_element "edge" _ _ _) as [[[? ?] ?]|]; [|done]. simpl.
    intros [= <- _]. simpl. eauto.
  - destruct (init_element "edge" _ _ _) as [[[? ?] ?]|]; [|done]. simpl.
    intros [= <- _]. simpl. eauto.
Qed.

Lemma reachable_elements sheet0 extra_cols h :
  reachable sheet0 extra_cols h → ∃ l, (datasets h).*1 = "vert" :: l.
Proof.
  induction 1 as [h ws Hinit|h sheet to_record ts _ [l IH]].
  - by eapply init_elements.
  - exists l. by rewrite (proj2 (proj2 (proj2 (record_fields h sheet to_record ts)))).
Qed.

(** X3. The times a history stamps start at 0, so retrieving at a
    negative index finds no record and raises IndexError. *)
Theorem retrieve_negative_index sheet0 extra_cols h i :
  reachable sheet0 extra_cols h →
  (∀ cols, alist_lookup "vert" (columns h) = Some cols → "time_id" ∉ cols) →
  i < 0 →
  retrieve h i = Raise IndexError.
Proof.
  intros Hreach Hnt Hi.
  destruct (reachable_elements _ _ _ Hreach) as [l Hkeys].
  destruct (reachable_ok _ _ _ Hreach) as [_ Hok].
  unfold retrieve. destruct (datasets h) as [|[k hist] ds]; [done|].
  simpl in Hkeys. injection Hkeys as -> _.
  apply Forall_cons in Hok as [(cols & Hcols & Hst) _]. simpl in Hcols, Hst.
  destruct (Hst (Hnt _ Hcols)) as [_ _ Hc _ Hbound _].
  simpl. unfold retrieve_element. rewrite Hcols. simpl.
  unfold _retrieve. rewrite decide_True.
  2:{ rewrite Hc. right. apply elem_of_app. right. left. }
  fold (times hist).
  replace (List.filter (λ t, bool_decide (t ≤ i)) (times hist)) with (@nil Z); [done|].
  symmetry. induction Hbound as [|t ts Ht _ IH]; simpl; [done|].
  rewrite bool_decide_eq_false_2 by lia. done.
Qed.

(** ** Recording, then retrieving *)

(** The cells [retrieve] keeps of a stamped history row are the recorded
    cells of the sheet row it was made from. *)
Lemma snapshot_cells (element : string) (cols : list string) (t i : Z)
    (r : gmap string Z) :
  element ∉ cols → "time_id" ∉ cols →
  filter (λ kv : string * Z, kv.1 ∈ cols)
    (delete element
       (<["time_id" := t]> (<[element := i]>
          (filter (λ kv : string * Z, kv.1 ∈ cols) r))))
  = filter (λ kv : string * Z, kv.1 ∈ cols) r.
Proof.
  intros He Ht.
  rewrite map_filter_delete_not by (intros y _; exact He).
  rewrite map_filter_insert_not by (intros y; exact Ht).
  rewrite map_filter_insert_not by (intros y; exact He).
  apply map_filter_id. intros k x Hk.
  by apply map_lookup_filter_Some in Hk as [_ ?].
Qed.

(** Row labels play no part in what [retrieve] returns. *)
Lemma snapshot_relabel (element : string) (cols : list string) (t : Z)
    (l : list (Z * gmap string Z)) :
  ∀ g : nat → Z,
    map (snapshot_row element cols)
      (List.filter (λ ir, bool_decide (row_time ir = t))
         (imap (λ k (ir : Z * gmap string Z), (g k, ir.2)) l))
    = map (snapshot_row element cols)
        (List.filter (λ ir, bool_decide (row_time ir = t)) l).
Proof.
  unfold row_time.
  induction l as [|[i r] l IH]; intros g; simpl; [done|].
  destruct (bool_decide (r !!! "time_id" = t)); simpl.
  - f_equal. apply (IH (g ∘ S)).
  - apply (IH (g ∘ S)).
Qed.

Lemma filter_time_old (t : Z) (l : list (Z * gmap string Z)) :
  Forall (λ x, x < t) (map row_time l) →
  List.filter (λ ir, bool_decide (row_time ir = t)) l = [].
Proof.
  induction l as [|ir l IH]; simpl; [done|].
  intros [Hx Hl]%Forall_cons. rewrite bool_decide_eq_false_2 by lia. auto.
Qed.

(** The rows that one [record] step appends: all stamped [t], and read
    back by [retrieve] as the selected rows of the sheet. *)
Lemma row_time_stamped (t lbl : Z) (m : gmap string Z) :
  row_time (lbl, <["time_id" := t]> m) = t.
Proof. apply lookup_total_insert_eq. Qed.

Lemma snapshot_row_stamped (element : string) (cols : list string) (t lbl i : Z)
    (r : gmap string Z) :
  element ∉ cols → "time_id" ∉ cols → element ≠ "time_id" →
  snapshot_row element cols
    (lbl, <["time_id" := t]> (<[element := i]>
            (filter (λ kv : string * Z, kv.1 ∈ cols) r)))
  = (i, filter (λ kv : string * Z, kv.1 ∈ cols) r).
Proof.
  intros He Ht Hne. unfold snapshot_row. simpl. f_equal.
  - etrans; [apply lookup_total_insert_ne; done|apply lookup_total_insert_eq].
  - by apply snapshot_cells.
Qed.

Lemma snapshot_chunk (element : string) (cols : list string) (t : Z) df sel new :
  element ∉ cols → "time_id" ∉ cols → element ≠ "time_id" →
  getitem cols df = Ok sel → reset_index element sel = Ok new →
  map (snapshot_row element cols)
    (List.filter (λ ir, bool_decide (row_time ir = t))
       (df_rows (setitem "time_id" t new)))
  = df_rows sel.
Proof.
  intros He Ht Hne Hsel Hnew.
  apply getitem_Ok in Hsel as ->.
  unfold reset_index in Hnew. destruct (decide _); [done|]. injection Hnew as <-.
  unfold setitem. cbn [df_rows df_columns].
  generalize Z.of_nat. generalize (df_rows df).
  induction l as [|[i r] l IH]; intros g; [done|].
  cbn [map imap List.filter fst snd].
  rewrite row_time_stamped, bool_decide_eq_true_2 by done.
  cbn [map]. rewrite snapshot_row_stamped by done. f_equal.
  apply (IH (g ∘ S)).
Qed.

Lemma alist_lookup_set {V} (k : string) (v : V) (l : list (string * V)) :
  alist_lookup k (alist_set k v l) = Some v.
Proof.
  induction l as [|[k' v'] l IH]; simpl.
  - by rewrite decide_True.
  - destruct (decide (k = k')) as [->|Hne]; simpl.
    + by rewrite decide_True.
    + by rewrite decide_False.
Qed.

(** X4. What is recorded is what is retrieved.  After [record] of one
    element of a sheet whose table still has the recorded columns and at
    least one row, [retrieve] at the new time id returns for that element
    the rows of the table of the sheet as it was then, restricted to the
    recorded columns, with its index.  A column that was recorded twice
    comes back once for each pair of its occurrences; when the recorded
    columns are distinct, the table returned is the selection [sel] of
    the recorded columns from the table of the sheet. *)
Theorem record_then_retrieve sheet0 extra_cols h sheet element hist cols df sel
    time_stamp :
  reachable sheet0 extra_cols h →
  nonempty_tables sheet0 →
  (∀ element cols, alist_lookup element (columns h) = Some cols → "time_id" ∉ cols) →
  alist_lookup element (datasets h) = Some hist →
  alist_lookup element (columns h) = Some cols →
  sheet_dataset sheet element = Ok df →
  getitem cols df = Ok sel →
  df_rows df ≠ [] →
  (record h sheet [element] time_stamp).2 = None ∧
  ∃ out,
    retrieve (record h sheet [element] time_stamp).1 (time_id h + 1) = Ok out ∧
    alist_lookup element out = Some (mkDF (select_labels cols cols) (df_rows sel)) ∧
    (NoDup cols → alist_lookup element out = Some sel).
Proof.
  intros Hreach Hne Hnt Hhist Hcols Hdf Hsel Hrows.
  pose proof (sheet_dataset_distinct _ _ _ Hdf) as Hnd.
  pose proof (getitem_columns _ _ _ Hsel Hnd) as Hscols.
  pose proof (reachable_ok _ _ _ Hreach) as Hok.
  destruct (record_history_ok _ h sheet [element] time_stamp Hok) as [Hok' Hcols'].
  destruct Hok as [Ht0 Htables].
  pose proof (alist_lookup_Forall _ _ _ _ Htables Hhist) as (cols0 & Hc0 & Hst).
  simpl in Hc0, Hst. rewrite Hcols in Hc0. injection Hc0 as <-.
  specialize (Hst (Hnt _ _ Hcols)).
  destruct Hst as [Hname Hfresh Hcolumns Hsorted Hbound Hsnap].
  assert (∃ new, reset_index element sel = Ok new) as [new Hnew].
  { unfold reset_index. rewrite Hscols.
    rewrite decide_False by done. eauto. }
  set (t := time_id h + 1) in *.
  set (hist' := concat_rows hist (setitem "time_id" t new)).
  assert (Hrec : record h sheet [element] time_stamp =
            (mkHistory t (alist_set element hist' (datasets h)) (columns h)
               (time_index h ++ [t])
               (match time_stamp with
                | Some s => time_stamps h ++ [s]
                | None => time_stamps h
                end), None)).
  { unfold record. simpl. unfold record_element. simpl.
    rewrite Hhist, Hcols. simpl. rewrite Hdf. simpl. rewrite Hsel. simpl.
    rewrite Hnew. simpl. rewrite decide_False by eauto. done. }
  rewrite Hrec in Hok'. rewrite Hrec. clear Hcols'. simpl in Hok'. simpl.
  split; [done|].
  destruct Hok' as [_ Hok']. simpl in Hok'.
  destruct (retrieve_loop_closest (nonempty_tables sheet0) t
              (mkHistory t (alist_set element hist' (datasets h)) (columns h)
                 (time_index h ++ [t])
                 (match time_stamp with
                  | Some s => time_stamps h ++ [s]
                  | None => time_stamps h
                  end)) t (alist_set element hist' (datasets h)) Hne)
    as (out & Hout & Hall); [lia|exact Hnt|exact Hok'|].
  exists out. split; [exact Hout|].
  destruct (Hall element hist' (alist_lookup_set _ _ _))
    as (cols1 & t' & Hc1 & Hclosest & Hlookup & _).
  simpl in Hc1. rewrite Hcols in Hc1. injection Hc1 as <-.
  assert (Hgot : snapshot element cols hist' t'
                 = mkDF (select_labels cols cols) (df_rows sel)).
  2:{ rewrite Hlookup, Hgot. split; [done|]. intros Hdistinct. f_equal.
      rewrite select_labels_distinct by done.
      destruct sel as [scols srows]. simpl in Hscols. by subst scols. }
  (* the closest time is the one just stamped *)
  destruct (stamp_rows element cols df t Hnd (Hnt _ _ Hcols) Hname sel new Hsel Hnew)
    as (_ & _ & Htimes).
  assert (Ht' : t' = t).
  { destruct Hclosest as (_ & Hle & Hmax).
    assert (Hin : t ∈ times hist'); [|pose proof (Hmax t Hin); lia].
    unfold hist'. rewrite times_concat_rows, Htimes. apply elem_of_app. right.
    destruct (df_rows df); [done|]. left. }
  subst t'. unfold snapshot.
  unfold hist', concat_rows. cbn [df_rows].
  rewrite snapshot_relabel, List.filter_app, map_app.
  rewrite filter_time_old.
  2:{ eapply Forall_impl; [exact Hbound|]. simpl. intros; lia. }
  cbn [map app].
  by rewrite (snapshot_chunk element cols t df sel new Hfresh (Hnt _ _ Hcols) Hname
                Hsel Hnew).
Qed.

(** ** Retrieving the construction-time state *)

Lemma init_element_table element label req df cols hist ws :
  init_element element label req df = Ok (cols, hist, ws) →
  "time_id" ∉ cols →
  ∃ sel new,
    getitem cols df = Ok sel ∧ reset_index element sel = Ok new ∧
    hist = setitem "time_id" 0 new.
Proof.
  unfold init_element.
  destruct (_filter_columns req (df_columns df) label) as [cols' w].
  destruct (getitem cols' df) as [sel|] eqn:Hsel; [|done]. simpl.
  destruct (reset_index element sel) as [new|] eqn:Hnew; [|done]. simpl.
  intros [= -> <- ->] Ht. rewrite decide_False by done. eauto.
Qed.

(** Each table of a new history is the selection of the sheet's table,
    stamped 0. *)
Lemma init_tables sheet extra_cols h ws :
  init sheet extra_cols = Ok (h, ws) →
  ∀ element cols hist,
    alist_lookup element (columns h) = Some cols →
    alist_lookup element (datasets h) = Some hist →
    "time_id" ∉ cols →
    ∃ df sel new,
      sheet_dataset sheet element = Ok df ∧
      getitem cols df = Ok sel ∧ reset_index element sel = Ok new ∧
      hist = setitem "time_id" 0 new.
Proof.
  unfold init.
  destruct (init_element "vert" _ _ _) as [[[vcols vh] wv]|] eqn:Hv; [|done]. simpl.
  destruct (init_element "face" _ _ _) as [[[fcols fh] wf]|] eqn:Hf; [|done]. simpl.
  destruct (cell_df sheet) as [cdf|] eqn:Hcell; simpl.
  - destruct (init_element "cell" _ _ _) as [[[ccols ch] wc]|] eqn:Hc; [|done]. simpl.
    destruct (init_element "edge" _ _ _) as [[[ecols eh] we]|] eqn:He; [|done]. simpl.
    intros [= <- _] element cols hist. simpl.
    repeat (destruct (decide (element = _)) as [->|?]); try done;
      intros [= <-] [= <-] Ht.
    + destruct (init_element_table _ _ _ _ _ _ _ Hv Ht) as (sel & new & ? & ? & ?).
      by exists (vert_df sheet), sel, new.
    + destruct (init_element_table _ _ _ _ _ _ _ Hf Ht) as (sel & new & ? & ? & ?).
      by exists (face_df sheet), sel, new.
    + destruct (init_element_table _ _ _ _ _ _ _ Hc Ht) as (sel & new & ? & ? & ?).
      exists cdf, sel, new. split_and!; [|done..].
      unfold sheet_dataset. simpl. by rewrite Hcell.
    + destruct (init_element_table _ _ _ _ _ _ _ He Ht) as (sel & new & ? & ? & ?).
      by exists (edge_df sheet), sel, new.
  - destruct (init_element "edge" _ _ _) as [[[ecols eh] we]|] eqn:He; [|done]. simpl.
    intros [= <- _] element cols hist. simpl.
    repeat (destruct (decide (element = _)) as [->|?]); try done;
      intros [= <-] [= <-] Ht.
    + destruct (init_element_table _ _ _ _ _ _ _ Hv Ht) as (sel & new & ? & ? & ?).
      by exists (vert_df sheet), sel, new.
    + destruct (init_element_table _ _ _ _ _ _ _ Hf Ht) as (sel & new & ? & ? & ?).
      by exists (face_df sheet), sel, new.
    + destruct (init_element_table _ _ _ _ _ _ _ He Ht) as (sel & new & ? & ? & ?).
      by exists (edge_df sheet), sel, new.
Qed.

(** X5. The state of the sheet at construction is what [retrieve] gives
    at time 0: for each recorded element, the rows of the table of the
    sheet restricted to the recorded columns, with its index.  A column
    that was recorded twice comes back once for each pair of its
    occurrences; when the recorded columns are distinct, the table
    returned is the selection [sel] of the recorded columns from the
    table of the sheet. *)
Theorem init_then_retrieve sheet extra_cols h ws :
  init sheet extra_cols = Ok (h, ws) →
  nonempty_tables sheet →
  (∀ element cols, alist_lookup element (columns h) = Some cols → "time_id" ∉ cols) →
  ∃ out,
    retrieve h 0 = Ok out ∧
    ∀ element hist, alist_lookup element (datasets h) = Some hist →
      ∃ cols df sel,
        alist_lookup element (columns h) = Some cols ∧
        sheet_dataset sheet element = Ok df ∧
        getitem cols df = Ok sel ∧
        alist_lookup element out
          = Some (mkDF (select_labels cols cols) (df_rows sel)) ∧
        (NoDup cols → alist_lookup element out = Some sel).
Proof.
  intros Hinit Hne Hnt.
  destruct (init_history_ok _ _ _ _ Hinit) as [_ Hok].
  destruct (retrieve_loop_closest (nonempty_tables sheet) (time_id h) h 0
              (datasets h) Hne ltac:(lia) Hnt Hok) as (out & Hout & Hall).
  exists out. split; [exact Hout|].
  intros element hist Hhist.
  destruct (Hall element hist Hhist) as (cols & t & Hcols & Hclosest & Hlookup & _).
  destruct (init_tables _ _ _ _ Hinit element cols hist Hcols Hhist (Hnt _ _ Hcols))
    as (df & sel & new & Hdf & Hsel & Hnew & ->).
  exists cols, df, sel. split; [done|]. split; [done|]. split; [done|].
  pose proof (sheet_dataset_distinct _ _ _ Hdf) as Hnd.
  pose proof (getitem_columns _ _ _ Hsel Hnd) as Hscols.
  assert (Hgot : snapshot element cols (setitem "time_id" 0 new) t
                 = mkDF (select_labels cols cols) (df_rows sel)).
  2:{ rewrite Hlookup, Hgot. split; [done|]. intros Hdistinct. f_equal.
      rewrite select_labels_distinct by done.
      destruct sel as [scols srows]. simpl in Hscols. by subst scols. }
  pose proof (alist_lookup_Forall _ _ _ _ Hok Hhist) as (cols' & Hc' & Hst).
  simpl in Hc', Hst. rewrite Hcols in Hc'. injection Hc' as <-.
  destruct (Hst (Hnt _ _ Hcols)) as [Hname Hfresh _ _ _ _].
  assert (Ht : t = 0).
  { destruct Hclosest as (Hin & _ & _). rewrite times_setitem in Hin.
    by apply list_elem_of_In, in_map_iff in Hin as (? & <- & _). }
  subst t. unfold snapshot.
  by rewrite (snapshot_chunk element cols 0 df sel new Hfresh (Hnt _ _ Hcols) Hname
                Hsel Hnew).
Qed.

(** ** The past is not rewritten *)

Lemma retrieve_loop_columns h1 h2 i ds :
  columns h1 = columns h2 → retrieve_loop h1 i ds = retrieve_loop h2 i ds.
Proof.
  intros Hc. induction ds as [|[e hist] ds IH]; simpl; [done|].
  unfold retrieve_element. by rewrite Hc, IH.
Qed.

Lemma retrieve_loop_set h i element hist hist' ds :
  alist_lookup element ds = Some hist →
  retrieve_element h i element hist' = retrieve_element h i element hist →
  retrieve_loop h i (alist_set element hist' ds) = retrieve_loop h i ds.
Proof.
  intros Hl Heq. induction ds as [|[k v] ds IH]; simpl in *; [done|].
  destruct (decide (element = k)) as [->|Hne]; simpl.
  - injection Hl as ->. by rewrite Heq.
  - by rewrite IH.
Qed.

Lemma filter_relabel {B} (f : gmap string Z → B) (t : Z)
    (l : list (Z * gmap string Z)) :
  ∀ g : nat → Z,
    map (λ ir : Z * gmap string Z, f ir.2)
      (List.filter (λ ir, bool_decide (row_time ir = t))
         (imap (λ k (ir : Z * gmap string Z), (g k, ir.2)) l))
    = map (λ ir : Z * gmap string Z, f ir.2)
        (List.filter (λ ir, bool_decide (row_time ir = t)) l).
Proof.
  unfold row_time.
  induction l as [|[i r] l IH]; intros g; simpl; [done|].
  destruct (bool_decide (r !!! "time_id" = t)); simpl.
  - f_equal. apply (IH (g ∘ S)).
  - apply (IH (g ∘ S)).
Qed.

Lemma filter_le_later (i t : Z) (l : list Z) :
  i < t → Forall (λ x, x = t) l →
  List.filter (λ x, bool_decide (x ≤ i)) l = [].
Proof.
  intros Hi. induction 1 as [|x l -> _ IH]; simpl; [done|].
  by rewrite bool_decide_eq_false_2 by lia.
Qed.

Lemma filter_eq_later (t0 t : Z) (l : list (Z * gmap string Z)) :
  t0 < t → Forall (λ x, x = t) (map row_time l) →
  List.filter (λ ir, bool_decide (row_time ir = t0)) l = [].
Proof.
  intros Hi. induction l as [|ir l IH]; simpl; [done|].
  intros [Hx Hl]%Forall_cons. rewrite bool_decide_eq_false_2 by lia. auto.
Qed.

(** Rows appended with a later stamp do not change what [retrieve]
    finds at an earlier time. *)
Lemma retrieve_element_concat h i t element hist chunk :
  i < t →
  df_columns chunk = df_columns hist →
  Forall (λ x, x = t) (times chunk) →
  retrieve_element h i element (concat_rows hist chunk)
  = retrieve_element h i element hist.
Proof.
  intros Hi Hcols Htimes. unfold retrieve_element.
  destruct (alist_lookup element (columns h)) as [cols|]; [|done]. simpl.
  unfold _retrieve.
  assert (Hc : df_columns (concat_rows hist chunk) = df_columns hist).
  { unfold concat_rows. simpl. by rewrite Hcols, filter_absent_self, app_nil_r. }
  rewrite Hc. destruct (decide ("time_id" ∈ df_columns hist)); [|done].
  fold (times (concat_rows hist chunk)). fold (times hist).
  rewrite times_concat_rows, List.filter_app, (filter_le_later i t (times chunk)),
    app_nil_r by done.
  destruct (last (List.filter _ (times hist))) as [t0|] eqn:Hlast; [|done].
  assert (Ht0 : t0 ≤ i).
  { apply last_Some in Hlast as [l' Hl'].
    assert (Hin : t0 ∈ List.filter (λ t, bool_decide (t ≤ i)) (times hist)).
    { rewrite Hl'. apply elem_of_app. right. left. }
    apply list_elem_of_In, List.filter_In in Hin as [_ Hle].
    by apply bool_decide_eq_true in Hle. }
  cbn [mbind result_bind]. unfold set_index. cbn [df_columns df_rows].
  assert (Hrows :
    map (λ ir : Z * gmap string Z, (ir.2 !!! element, delete element ir.2))
      (List.filter (λ ir, bool_decide (row_time ir = t0))
         (df_rows (concat_rows hist chunk)))
    = map (λ ir : Z * gmap string Z, (ir.2 !!! element, delete element ir.2))
        (List.filter (λ ir, bool_decide (row_time ir = t0)) (df_rows hist))).
  { unfold concat_rows. cbn [df_rows].
    rewrite (filter_relabel (λ m, (m !!! element, delete element m))).
    rewrite List.filter_app, (filter_eq_later t0 t (df_rows chunk)), app_nil_r;
      [done|lia|done]. }
  by rewrite Hrows.
Qed.

Lemma record_element_past (snap : Prop) t sheet h element h' i h0 :
  0 ≤ t → i < t →
  (∀ element cols, alist_lookup element (columns h) = Some cols → "time_id" ∉ cols) →
  tables_ok snap t (columns h) (datasets h) →
  record_element t sheet h element = Ok h' →
  retrieve_loop h0 i (datasets h') = retrieve_loop h0 i (datasets h).
Proof.
  intros Ht0 Hi Hnt Hok. unfold record_element.
  destruct (alist_lookup element (datasets h)) as [hist|] eqn:Hhist; [|done]. simpl.
  destruct (alist_lookup element (columns h)) as [cols|] eqn:Hcols; [|done]. simpl.
  destruct (sheet_dataset sheet element) as [src|] eqn:Hsrc; [|done]. simpl.
  apply sheet_dataset_distinct in Hsrc.
  destruct (getitem cols src) as [sel|] eqn:Hsel; [|done]. simpl.
  destruct (reset_index element sel) as [new|] eqn:Hnew; [|done]. simpl.
  intros [= <-]. simpl.
  pose proof (Hnt _ _ Hcols) as Ht.
  rewrite decide_False by done.
  pose proof (alist_lookup_Forall _ _ _ _ Hok Hhist) as (cols' & Hc' & Hst).
  simpl in Hc', Hst. rewrite Hcols in Hc'. injection Hc' as <-.
  destruct (Hst Ht) as [Hname Hfresh Hcolumns _ _ _].
  destruct (stamp_rows element cols src t Hsrc Ht Hname sel new Hsel Hnew)
    as (_ & Hchunk & Htimes).
  apply (retrieve_loop_set h0 i element hist); [done|].
  apply (retrieve_element_concat h0 i t); [done|by rewrite Hchunk, Hcolumns|].
  rewrite Htimes. apply Forall_forall. intros x Hx.
  by apply list_elem_of_In, in_map_iff in Hx as (? & <- & _).
Qed.

Lemma record_loop_past (snap : Prop) t sheet to_record i h0 :
  0 ≤ t → i < t →
  ∀ h,
    (∀ element cols, alist_lookup element (columns h) = Some cols → "time_id" ∉ cols) →
    tables_ok snap t (columns h) (datasets h) →
    retrieve_loop h0 i (datasets (record_loop t sheet h to_record).1)
    = retrieve_loop h0 i (datasets h).
Proof.
  intros Ht0 Hi. induction to_record as [|element rest IH]; intros h Hnt Hok; simpl;
    [done|].
  destruct (record_element t sheet h element) as [h'|e] eqn:Hel; simpl; [|done].
  destruct (record_element_ok _ _ _ _ _ _ Ht0 Hok Hel) as (_ & Hcs & Hok').
  rewrite IH; [|by rewrite Hcs|done].
  by eapply record_element_past.
Qed.

(** X6. [record] only appends.  Whatever is recorded later, and whether
    or not the later call fails, [retrieve] at a time id already taken
    returns what it returned before. *)
Theorem record_keeps_past sheet0 extra_cols h sheet to_record time_stamp i :
  reachable sheet0 extra_cols h →
  (∀ element cols, alist_lookup element (columns h) = Some cols → "time_id" ∉ cols) →
  i ≤ time_id h →
  retrieve (record h sheet to_record time_stamp).1 i = retrieve h i.
Proof.
  intros Hreach Hnt Hi.
  destruct (reachable_ok _ _ _ Hreach) as [Ht0 Hok].
  unfold retrieve.
  rewrite (retrieve_loop_columns _ h) by apply record_fields.
  unfold record.
  rewrite (record_loop_past (nonempty_tables sheet0) (time_id h + 1) sheet to_record i h
             ltac:(lia) ltac:(lia)); simpl; [done|done|].
  eapply tables_ok_mono; [|exact Hok]. lia.
Qed.

(** ** Iterating over a history: [__iter__]

    The constructor of the class of the sheet, with the identifier and
    the specifications of the recorded sheet, is taken as a parameter:
    [new_sheet t datasets] is the sheet built for the time [t].  The
    generator is embedded as the list of the pairs it yields, with the
    exception that ends the iteration, if one does. *)

Section iter.
Context {S : Type}.
Variable new_sheet : Z → list (string * DataFrame) → S.

Fixpoint iter_from (h : History) (ts : list Z) : list (Z * S) * option exn :=
  match ts with
  | [] => ([], None)
  | t :: ts =>
      match retrieve h t with
      | Ok sheet_datasets =>
          let '(items, e) := iter_from h ts in
          ((t, new_sheet t sheet_datasets) :: items, e)
      | Raise e => ([], Some e)
      end
  end.

Definition iter (h : History) : list (Z * S) * option exn :=
  iter_from h (time_index h).

Lemma iter_from_ok (h : History) (ts : list Z) :
  Forall (λ t, is_Ok (retrieve h t)) ts →
  ∃ items,
    iter_from h ts = (items, None) ∧ items.*1 = ts ∧
    ∀ t s, (t, s) ∈ items →
      ∃ out, retrieve h t = Ok out ∧ s = new_sheet t out.
Proof.
  induction 1 as [|t ts [out Hout] _ (items & IH & Hts & Hitems)]; simpl.
  - exists []. split_and!; [done..|]. intros t s Hin. by apply elem_of_nil in Hin.
  - rewrite Hout, IH. eexists. split; [done|]. split; [by rewrite fmap_cons, Hts|].
    intros t' s Hin. apply elem_of_cons in Hin as [[= -> ->]|Hin]; [eauto|].
    by apply Hitems.
Qed.

(** X7. Iterating over a history never fails: it yields one sheet per
    call of [record], for the time ids 1, 2, ... up to the last, each
    built from what [retrieve] returns at that time.  The state at
    construction (time 0) is not among them. *)
Theorem iter_yields sheet0 extra_cols h :
  reachable sheet0 extra_cols h →
  nonempty_tables sheet0 →
  (∀ (element : string) (cols : list string),
     alist_lookup element (columns h) = Some cols → "time_id" ∉ cols) →
  ∃ items,
    iter h = (items, None) ∧
    items.*1 = seqZ 1 (time_id h) ∧
    (∀ s, (0, s) ∉ items) ∧
    ∀ t s, (t, s) ∈ items →
      ∃ out, retrieve h t = Ok out ∧ s = new_sheet t out.
Proof.
  intros Hr Hne Hnt.
  destruct (time_index_counts sheet0 extra_cols h Hr) as [Hid Hindex].
  destruct (reachable_ok _ _ _ Hr) as [_ Hok].
  destruct (iter_from_ok h (time_index h)) as (items & Hiter & Hts & Hitems).
  { rewrite Hindex. apply Forall_forall. intros t Ht.
    apply elem_of_seqZ in Ht.
    destruct (retrieve_loop_closest (nonempty_tables sheet0) (time_id h) h t
                (datasets h) Hne ltac:(lia) Hnt Hok) as (out & Hout & _).
    by exists out. }
  exists items. split; [exact Hiter|]. rewrite Hts, Hindex.
  split; [done|]. split; [|exact Hitems].
  intros s Hin.
  assert (H0 : 0 ∈ items.*1).
  { apply list_elem_of_fmap. by exists (0, s). }
  rewrite Hts, Hindex in H0. apply elem_of_seqZ in H0. lia.
Qed.
End iter.

(** ** The properties on the concrete histories *)

Definition hist0 : History := built (init sheet_ex extra_ex).

Lemma hist0_reachable : reachable sheet_ex extra_ex hist0.
Proof. by eapply reach_init; vm_compute. Qed.

Lemma hist0_unstamped (element : string) (cols : list string) :
  alist_lookup element (columns hist0) = Some cols → "time_id" ∉ cols.
Proof. revert element cols. apply unstamped_columns. by_compute. Qed.

Lemma hist_ex_unstamped (element : string) (cols : list string) :
  alist_lookup element (columns hist_ex) = Some cols → "time_id" ∉ cols.
Proof. revert element cols. apply unstamped_columns. by_compute. Qed.

Lemma sheet_ex_nonempty : nonempty_tables sheet_ex.
Proof. by repeat split. Qed.

Lemma record_keeps_schema_witness :
  reachable sheet_ex extra_ex hist0 ∧
  columns (record hist0 sheet_ex' ["vert"; "cell"] None).1 = columns hist0 ∧
  (datasets (record hist0 sheet_ex' ["vert"; "cell"] None).1).*1 = (datasets hist0).*1.
Proof.
  split; [exact hist0_reachable|].
  destruct (record_keeps_schema sheet_ex extra_ex hist0 sheet_ex' ["vert"; "cell"] None
              hist0_reachable) as (Hc & Hd & _).
  split; [exact Hc|exact Hd].
Defined.

Lemma record_unknown_element_witness :
  alist_lookup "cell" (datasets hist_ex) = None ∧
  (record hist_ex sheet_ex' ["vert"] None).2 = None ∧
  time_id (record hist_ex sheet_ex' (["vert"] ++ "cell" :: ["edge"]) None).1
    = time_id hist_ex + 1 ∧
  record hist_ex sheet_ex' (["vert"] ++ "cell" :: ["edge"]) None
    = ((record hist_ex sheet_ex' ["vert"] None).1, Some (KeyError "cell")).
Proof.
  assert (H : alist_lookup "cell" (datasets hist_ex) = None) by (vm_compute; reflexivity).
  assert (Hpre : (record hist_ex sheet_ex' ["vert"] None).2 = None)
    by (vm_compute; reflexivity).
  split; [exact H|]. split; [exact Hpre|].
  destruct (record_unknown_element hist_ex sheet_ex' ["vert"] "cell" ["edge"] None H)
    as (Hid & _ & Hrun).
  split; [exact Hid|exact (Hrun Hpre)].
Defined.

Lemma retrieve_negative_index_witness :
  reachable sheet_ex extra_ex hist_ex ∧
  (∀ cols, alist_lookup "vert" (columns hist_ex) = Some cols → "time_id" ∉ cols) ∧
  -1 < 0 ∧
  retrieve hist_ex (-1) = Raise IndexError.
Proof.
  assert (Hr : reachable sheet_ex extra_ex hist_ex).
  { apply reach_record. exact hist0_reachable. }
  assert (Hnt : ∀ cols, alist_lookup "vert" (columns hist_ex) = Some cols →
                        "time_id" ∉ cols).
  { intros cols. apply hist_ex_unstamped. }
  assert (Hi : -1 < 0) by lia.
  repeat (split; [assumption|]).
  exact (retrieve_negative_index sheet_ex extra_ex hist_ex (-1) Hr Hnt Hi).
Defined.

(** The vertex table of [sheet_ex'] restricted to the recorded columns. *)
Definition vert_sel' : DataFrame :=
  mkDF ["extra"; "y"; "x"]
    [(0, {["extra" := 5; "y" := 22; "x" := 12]});
     (1, {["extra" := 6; "y" := 23; "x" := 13]})].

Lemma record_then_retrieve_witness :
  reachable sheet_ex extra_ex hist0 ∧
  nonempty_tables sheet_ex ∧
  sheet_dataset sheet_ex' "vert" = Ok (vert_df sheet_ex') ∧
  getitem ["extra"; "y"; "x"] (vert_df sheet_ex') = Ok vert_sel' ∧
  df_rows (vert_df sheet_ex') ≠ [] ∧
  (record hist0 sheet_ex' ["vert"] None).2 = None ∧
  ∃ out,
    retrieve (record hist0 sheet_ex' ["vert"] None).1 (time_id hist0 + 1) = Ok out ∧
    alist_lookup "vert" out
      = Some (mkDF (select_labels ["extra"; "y"; "x"] ["extra"; "y"; "x"])
                (df_rows vert_sel')) ∧
    (NoDup ["extra"; "y"; "x"] → alist_lookup "vert" out = Some vert_sel').
Proof.
  assert (Hdf : sheet_dataset sheet_ex' "vert" = Ok (vert_df sheet_ex'))
    by reflexivity.
  assert (Hsel : getitem ["extra"; "y"; "x"] (vert_df sheet_ex') = Ok vert_sel')
    by (vm_compute; reflexivity).
  assert (Hrows : df_rows (vert_df sheet_ex') ≠ []) by done.
  split; [exact hist0_reachable|]. split; [exact sheet_ex_nonempty|].
  repeat (split; [assumption|]).
  refine (record_then_retrieve sheet_ex extra_ex hist0 sheet_ex' "vert"
            (from_option (λ d, d) (mkDF [] []) (alist_lookup "vert" (datasets hist0)))
            ["extra"; "y"; "x"] (vert_df sheet_ex') vert_sel' None
            hist0_reachable sheet_ex_nonempty hist0_unstamped _ _ Hdf Hsel Hrows);
    vm_compute; reflexivity.
Defined.

Lemma init_then_retrieve_witness :
  init sheet_ex extra_ex = Ok (hist0, [mkWarning "vertex" {["nope"]}]) ∧
  nonempty_tables sheet_ex ∧
  ∃ out,
    retrieve hist0 0 = Ok out ∧
    ∀ element hist, alist_lookup element (datasets hist0) = Some hist →
      ∃ cols df sel,
        alist_lookup element (columns hist0) = Some cols ∧
        sheet_dataset sheet_ex element = Ok df ∧
        getitem cols df = Ok sel ∧
        alist_lookup element out
          = Some (mkDF (select_labels cols cols) (df_rows sel)) ∧
        (NoDup cols → alist_lookup element out = Some sel).
Proof.
  assert (Hinit : init sheet_ex extra_ex = Ok (hist0, [mkWarning "vertex" {["nope"]}]))
    by (vm_compute; reflexivity).
  split; [exact Hinit|]. split; [exact sheet_ex_nonempty|].
  exact (init_then_retrieve sheet_ex extra_ex hist0 _ Hinit sheet_ex_nonempty
           hist0_unstamped).
Defined.

(** A column asked for twice.  The coordinates are recorded by default;
    asking for x again records it twice, and [retrieve] returns each of
    the two recorded columns for each of the two requests. *)
Definition extra_twice : gmap string (list string) := {["vert" := ["x"]]}.
Definition hist_twice : History := built (init sheet_ex extra_twice).

Example retrieve_twice_columns :
  alist_lookup "vert" (columns hist_twice) = Some ["x"; "y"; "x"] ∧
  df_columns <$> alist_lookup "vert" (datasets hist_twice)
    = Some ["vert"; "x"; "y"; "x"; "time_id"] ∧
  (λ out, df_columns <$> alist_lookup "vert" out) <$> retrieve hist_twice 0
    = Ok (Some ["x"; "x"; "y"; "x"; "x"]).
Proof. by vm_compute. Qed.

Lemma record_keeps_past_witness :
  reachable sheet_ex extra_ex hist0 ∧
  0 ≤ time_id hist0 ∧
  retrieve (record hist0 sheet_ex' ["vert"] None).1 0 = retrieve hist0 0.
Proof.
  assert (Hi : 0 ≤ time_id hist0) by (by vm_compute).
  split; [exact hist0_reachable|]. split; [exact Hi|].
  exact (record_keeps_past sheet_ex extra_ex hist0 sheet_ex' ["vert"] None 0
           hist0_reachable hist0_unstamped Hi).
Defined.

Lemma iter_yields_witness :
  reachable sheet_ex extra_ex hist_ex ∧
  nonempty_tables sheet_ex ∧
  ∃ items,
    iter (λ t out, (t, out)) hist_ex = (items, None) ∧
    items.*1 = seqZ 1 (time_id hist_ex).
Proof.
  assert (Hr : reachable sheet_ex extra_ex hist_ex).
  { apply reach_record. exact hist0_reachable. }
  split; [exact Hr|]. split; [exact sheet_ex_nonempty|].
  destruct (iter_yields (λ t out, (t, out)) sheet_ex extra_ex hist_ex
              Hr sheet_ex_nonempty hist_ex_unstamped)
    as (items & Hiter & Hts & _).
  exists items. split; [exact Hiter|exact Hts].
Defined.

End HistoryMore.

(** * More on the sheet vertex model: when it fails, and what is zero *)

Module SheetModelMore.
Import SheetModel SheetModelFacts.
Local Open Scope R_scope.

(** ** Upcasting, read backwards *)

Lemma upcast_inv {A} (key : Edge → nat) (name : string) (sheet : Sheet)
    (col l : list A) :
  upcast key name sheet col = Ok l →
  Forall2 (λ e x, col !! key e = Some x) (edge_df sheet) l.
Proof.
  unfold upcast. generalize (edge_df sheet). intros es. revert l.
  induction es as [|e es IH]; intros l; simpl.
  - intros [= <-]. constructor.
  - destruct (col !! key e) as [x|] eqn:Hx; simpl; [|done].
    destruct (mapM _ es) as [l'|]; simpl; [|done].
    intros [= <-]. constructor; [done|]. by apply IH.
Qed.

Lemma upcast_lookup {A} (key : Edge → nat) (name : string) (sheet : Sheet)
    (col l : list A) (i : nat) (e : Edge) :
  upcast key name sheet col = Ok l →
  edge_df sheet !! i = Some e →
  l !! i = col !! key e ∧ is_Some (col !! key e).
Proof.
  intros Hl He. apply upcast_inv in Hl.
  destruct (Forall2_lookup_l _ _ _ _ _ Hl He) as (x & Hx & Hcol).
  rewrite Hx, Hcol. eauto.
Qed.

(** ** When [compute_energy] returns *)

Local Opaque pow.

(** X8. [compute_energy] returns, in either mode, only on sheets whose
    settings hold nrj_norm_factor and whose edge table has the column
    anchor_elasticity if it has the column is_anchor. *)
Theorem compute_energy_defined (sheet : Sheet) (full_output : bool) :
  is_Ok (compute_energy sheet full_output) →
  is_Some (settings sheet !! "nrj_norm_factor") ∧ anchors_ok sheet.
Proof.
  intros [E HE]. unfold compute_energy in HE.
  destruct (upcast_face sheet (map is_alive (face_df sheet))) as [ua|]; [|done].
  cbn [mbind result_bind] in HE. unfold anchor_columns, setting in HE.
  destruct (settings sheet !! "nrj_norm_factor") as [n|] eqn:Hn.
  - split; [by eexists|]. intros Ha. rewrite Ha in HE.
    destruct (has_anchor_elasticity sheet); [done|]. discriminate.
  - exfalso. destruct (has_is_anchor sheet);
      [destruct (has_anchor_elasticity sheet)|]; discriminate.
Qed.

Local Transparent pow.

(** ** The sign of the energy *)

Lemma Rsum_nonneg (l : list R) : Forall (λ x, 0 <= x) l → 0 <= Rsum l.
Proof.
  induction 1 as [|x l Hx _ IH]; [rewrite Rsum_nil; lra|].
  rewrite Rsum_cons. lra.
Qed.

Lemma Rsum_filter_nonneg {A} (p : A → bool) (f : A → R) (l : list A) :
  Forall (λ x, p x = true → 0 <= f x) l →
  0 <= Rsum (map f (List.filter p l)).
Proof.
  intros Hall. apply Rsum_nonneg.
  induction Hall as [|x l Hx _ IH]; simpl; [constructor|].
  destruct (p x); [|done]. constructor; auto.
Qed.

(** X9. With non-negative tensions, lengths, elasticities and
    contractilities on the live half-edges and faces, non-negative
    anchor parameters, and a positive normalization factor, the energy
    that [compute_energy] returns is not negative, whatever the dead
    faces hold. *)
Theorem compute_energy_nonneg (sheet : Sheet) (n : R) :
  face_ids_ok sheet → anchors_ok sheet →
  settings sheet !! "nrj_norm_factor" = Some n →
  0 < n →
  Forall (λ e, edge_alive sheet e = true → 0 <= line_tension e ∧ 0 <= length e)
    (edge_df sheet) →
  Forall (λ f, is_alive f = 1%Z → 0 <= vol_elasticity f ∧ 0 <= contractility f)
    (face_df sheet) →
  (has_is_anchor sheet = true →
   Forall (λ e, 0 <= anchor_elasticity e ∧ 0 <= is_anchor e) (edge_df sheet)) →
  ∃ E, compute_energy sheet false = Ok (Energy E) ∧ 0 <= E.
Proof.
  intros Hids Hanchor Hn Hpos Hedges Hfaces Hanch.
  exists (spec_energy sheet n).
  split; [exact (compute_energy_run sheet n false Hids Hanchor Hn)|].
  assert (Ht : 0 <= Rsum (map tension_energy
                           (List.filter (edge_alive sheet) (edge_df sheet)))).
  { apply Rsum_filter_nonneg. eapply Forall_impl; [exact Hedges|]. simpl.
    intros e He Hlive. destruct (He Hlive). unfold tension_energy. nra. }
  assert (Hv : 0 <= Rsum (map volume_energy (List.filter face_alive (face_df sheet)))).
  { apply Rsum_filter_nonneg. eapply Forall_impl; [exact Hfaces|]. simpl.
    intros f Hf Hlive. apply bool_decide_eq_true in Hlive.
    destruct (Hf Hlive) as [Hk _]. unfold volume_energy.
    pose proof (pow2_ge_0 (vol f - prefered_vol f)). nra. }
  assert (Hc : 0 <= Rsum (map contractile_energy
                           (List.filter face_alive (face_df sheet)))).
  { apply Rsum_filter_nonneg. eapply Forall_impl; [exact Hfaces|]. simpl.
    intros f Hf Hlive. apply bool_decide_eq_true in Hlive.
    destruct (Hf Hlive) as [_ Hg]. unfold contractile_energy.
    pose proof (pow2_ge_0 (perimeter f)). nra. }
  assert (Ha : 0 <= (if has_is_anchor sheet
                    then Rsum (map anchor_energy (edge_df sheet)) else 0)).
  { destruct (has_is_anchor sheet); [|lra].
    apply Rsum_nonneg, Forall_map. eapply Forall_impl; [exact (Hanch eq_refl)|].
    simpl. intros e [Hk Hi]. unfold anchor_energy.
    pose proof (pow2_ge_0 (length e)).
    assert (0 <= anchor_elasticity e * length e ^ 2) by nra. nra. }
  unfold spec_energy. apply Rmult_le_pos; [lra|].
  left. by apply Rinv_0_lt_compat.
Qed.

(** ** Terms that vanish *)

Lemma vmul_zero_l (b : vec) : vmul (mkvec 0 0 0) b = vzero.
Proof. unfold vmul, vzero. simpl. f_equal; lra. Qed.

Lemma vmul_zero_r (a : vec) : vmul a (mkvec 0 0 0) = vzero.
Proof. unfold vmul, vzero. simpl. f_equal; lra. Qed.

Section gradient.
Variable length_grad : Sheet → list vec.
Variable area_grad : Sheet → list vec * list vec.
Variable height_grad : Sheet → list vec.

(** X10. A half-edge of a dead face (is_alive = 0) gets no elastic gradient,
    on its source nor on its target, whatever the volume of the face. *)
Theorem elastic_grad_dead_face (sheet : Sheet) (gs gt : list vec)
    (i : nat) (e : Edge) (f : Face) :
  elastic_grad area_grad height_grad sheet = Ok (gs, gt) →
  edge_df sheet !! i = Some e →
  face_df sheet !! face e = Some f →
  is_alive f = 0%Z →
  (∀ g, gs !! i = Some g → g = vzero) ∧ (∀ g, gt !! i = Some g → g = vzero).
Proof.
  intros Hrun He Hf Hdead. unfold elastic_grad in Hrun.
  destruct (upcast_face sheet _) as [kv|] eqn:Hkv; [|done].
  cbn [fmap result_fmap mbind result_bind] in Hrun.
  destruct (upcast_srce sheet (map height (vert_df sheet))) as [eh|]; [|done].
  cbn [fmap result_fmap mbind result_bind] in Hrun.
  destruct (area_grad sheet) as [ga_s ga_t].
  destruct (upcast_srce sheet (height_grad sheet)) as [gh|]; [|done].
  cbn [fmap result_fmap mbind result_bind] in Hrun.
  injection Hrun as <- <-.
  destruct (upcast_lookup face "face" sheet _ kv i e Hkv He) as [Hi _].
  assert (Hzero : _to_3d kv !! i = Some (mkvec 0 0 0)).
  { unfold _to_3d. rewrite list_lookup_fmap, Hi, lookup_zip_with.
    unfold elastic_force. rewrite !list_lookup_fmap, Hf. simpl.
    rewrite Hdead. do 2 f_equal; lra. }
  split; intros g; rewrite lookup_zip_with, Hzero; simpl;
    (destruct (zip_with _ _ _ !! i) as [b|]; simpl; [|done]);
    intros [= <-]; apply vmul_zero_l.
Qed.

(** ** The two modes of [compute_gradient] *)

(** X11. With [components] set, [compute_gradient] returns four terms, five
    when the edge table has the column is_anchor, neither masked nor
    normalized; the default mode returns on the same sheets, and its
    result is the aggregate of these terms, masked by is_active and
    divided by nrj_norm_factor. *)
Theorem compute_gradient_components (sheet : Sheet) (cs : list (list vec)) :
  compute_gradient length_grad area_grad height_grad sheet true
    = Ok (Components cs) →
  List.length cs = (if has_is_anchor sheet then 5 else 4)%nat ∧
  ∃ n g,
    settings sheet !! "nrj_norm_factor" = Some n ∧
    gradient_terms length_grad area_grad height_grad sheet = Ok g ∧
    cs = [grad_t g; grad_c g; grad_v_srce g; grad_v_trgt g] ++ option_list (grad_a g) ∧
    grad_t g = tension_grad sheet (length_grad sheet) ∧
    compute_gradient length_grad area_grad height_grad sheet false
      = Ok (Gradient
              (map (λ v, vdiv v n)
                 (zip_with vmul (aggregate sheet g)
                    (map active_mask (vert_df sheet))))).
Proof.
  intros Hrun. unfold compute_gradient, setting in Hrun.
  destruct (settings sheet !! "nrj_norm_factor") as [n|] eqn:Hn; [|done].
  cbn [from_option mbind result_bind] in Hrun.
  destruct (gradient_terms length_grad area_grad height_grad sheet) as [g|] eqn:Hg;
    [|done].
  cbn [mbind result_bind] in Hrun. injection Hrun as <-.
  assert (Hterms : grad_t g = tension_grad sheet (length_grad sheet) ∧
                   (is_Some (grad_a g) ↔ has_is_anchor sheet = true)).
  { unfold gradient_terms in Hg.
    destruct (contractile_grad sheet _) as [gc|]; [|done].
    cbn [mbind result_bind] in Hg.
    destruct (elastic_grad area_grad height_grad sheet) as [[gvs gvt]|]; [|done].
    cbn [mbind result_bind] in Hg.
    destruct (has_is_anchor sheet).
    - destruct (anchor_grad sheet _) as [ga|]; [|done].
      cbn [fmap result_fmap mbind result_bind] in Hg. injection Hg as <-. simpl.
      split; [done|]. split; [done|]. by eexists.
    - cbn [mbind result_bind] in Hg. injection Hg as <-. simpl.
      split; [done|]. split; [by intros [? [=]]|done]. }
  destruct Hterms as [Ht Ha]. split.
  - destruct (grad_a g) as [a|]; destruct (has_is_anchor sheet); simpl; try done.
    + destruct Ha as [Ha _]. by discriminate Ha.
    + destruct Ha as [_ Ha]. by destruct (Ha eq_refl).
  - exists n, g. split_and!; [done..| |done|].
    + by destruct (grad_a g).
    + exact (compute_gradient_run length_grad area_grad height_grad sheet n g Hn Hg).
Qed.

(** X12. [compute_gradient] returns, in either mode, only on sheets
    whose settings hold nrj_norm_factor and whose edge table has the
    column anchor_elasticity if it has the column is_anchor. *)
Theorem compute_gradient_defined (sheet : Sheet) (components : bool) :
  is_Ok (compute_gradient length_grad area_grad height_grad sheet components) →
  is_Some (settings sheet !! "nrj_norm_factor") ∧ anchors_ok sheet.
Proof.
  intros [r Hr]. unfold compute_gradient, setting in Hr.
  destruct (settings sheet !! "nrj_norm_factor") as [n|]; [|done].
  split; [by eexists|].
  cbn [from_option mbind result_bind] in Hr.
  destruct (gradient_terms length_grad area_grad height_grad sheet) as [g|] eqn:Hg;
    [|done].
  clear Hr. unfold gradient_terms in Hg.
  destruct (contractile_grad sheet _) as [gc|]; [|done].
  cbn [mbind result_bind] in Hg.
  destruct (elastic_grad area_grad height_grad sheet) as [[gvs gvt]|]; [|done].
  cbn [mbind result_bind] in Hg.
  intros Ha. rewrite Ha in Hg. unfold anchor_grad, anchor_columns in Hg.
  destruct (has_anchor_elasticity sheet); [done|]. discriminate.
Qed.
End gradient.

(** X13. [anchor_grad] returns only when the edge table has the two
    anchor columns, and then gives no anchor gradient to the half-edges
    that are not anchors (is_anchor = 0). *)
Theorem anchor_grad_free_edge (sheet : Sheet) (grad_lij ga : list vec)
    (i : nat) (e : Edge) :
  anchor_grad sheet grad_lij = Ok ga →
  edge_df sheet !! i = Some e →
  is_anchor e = 0 →
  has_is_anchor sheet = true ∧ has_anchor_elasticity sheet = true ∧
  ∀ g, ga !! i = Some g → g = vzero.
Proof.
  intros Hrun He Hfree. unfold anchor_grad, anchor_columns in Hrun.
  destruct (has_anchor_elasticity sheet); [|done].
  destruct (has_is_anchor sheet); [|done].
  cbn [mbind result_bind] in Hrun. injection Hrun as <-.
  split; [done|]. split; [done|].
  intros g. rewrite lookup_zip_with. unfold _to_3d.
  rewrite !list_lookup_fmap, He. simpl. rewrite Hfree.
  destruct (grad_lij !! i) as [b|]; simpl; [|done].
  intros [= <-]. rewrite <- (vmul_zero_r b). do 2 f_equal; lra.
Qed.

(** ** The properties on concrete sheets *)

(** [sheet_ex] with two half-edges only, the second one an anchor. *)
Definition sheet_anchored : Sheet :=
  mkSheet
    (vert_df sheet_ex)
    [mkEdge 0 1 0 2 1 0 0 3;
     mkEdge 1 0 0 2 1 0 1 3]
    (face_df sheet_ex)
    true true
    (settings sheet_ex).

Lemma sheet_anchored_face_ids_ok : face_ids_ok sheet_anchored.
Proof. unfold face_ids_ok. simpl. repeat constructor; simpl; lia. Qed.

Lemma sheet_anchored_anchors_ok : anchors_ok sheet_anchored.
Proof. by intros _. Qed.

Lemma compute_energy_defined_witness :
  is_Ok (compute_energy sheet_anchored false) ∧
  is_Some (settings sheet_anchored !! "nrj_norm_factor") ∧
  anchors_ok sheet_anchored.
Proof.
  assert (Hrun : is_Ok (compute_energy sheet_anchored false)).
  { exists (Energy (spec_energy sheet_anchored 2)).
    exact (compute_energy_run sheet_anchored 2 false sheet_anchored_face_ids_ok
             sheet_anchored_anchors_ok eq_refl). }
  split; [exact Hrun|].
  exact (compute_energy_defined sheet_anchored false Hrun).
Defined.

Lemma compute_energy_nonneg_witness :
  face_ids_ok sheet_anchored ∧ anchors_ok sheet_anchored ∧
  settings sheet_anchored !! "nrj_norm_factor" = Some 2 ∧
  0 < 2 ∧
  ∃ E, compute_energy sheet_anchored false = Ok (Energy E) ∧ 0 <= E.
Proof.
  assert (Hpos : 0 < 2) by lra.
  split; [exact sheet_anchored_face_ids_ok|].
  split; [exact sheet_anchored_anchors_ok|].
  split; [reflexivity|]. split; [exact Hpos|].
  apply (compute_energy_nonneg sheet_anchored 2 sheet_anchored_face_ids_ok
           sheet_anchored_anchors_ok eq_refl Hpos).
  - repeat constructor; simpl; lra.
  - repeat constructor; simpl; lra.
  - intros _. repeat constructor; simpl; lra.
Defined.

Lemma elastic_grad_dead_face_witness :
  elastic_grad area_grad_ex height_grad_ex sheet_ex
    = Ok (grad_v_srce terms_ex, grad_v_trgt terms_ex) ∧
  edge_df sheet_ex !! 2%nat = Some (mkEdge 0 1 1 2 1 0 0 0) ∧
  face_df sheet_ex !! 1%nat = Some (mkFace 0 3 1 2 1 4) ∧
  (∀ g, grad_v_srce terms_ex !! 2%nat = Some g → g = vzero) ∧
  (∀ g, grad_v_trgt terms_ex !! 2%nat = Some g → g = vzero).
Proof.
  split; [reflexivity|]. split; [reflexivity|]. split; [reflexivity|].
  exact (elastic_grad_dead_face area_grad_ex height_grad_ex sheet_ex _ _ 2
           (mkEdge 0 1 1 2 1 0 0 0) (mkFace 0 3 1 2 1 4)
           eq_refl eq_refl eq_refl eq_refl).
Defined.

Lemma compute_gradient_components_witness :
  compute_gradient length_grad_ex area_grad_ex height_grad_ex sheet_ex true
    = Ok (Components [grad_t terms_ex; grad_c terms_ex;
                      grad_v_srce terms_ex; grad_v_trgt terms_ex]) ∧
  ∃ n g,
    settings sheet_ex !! "nrj_norm_factor" = Some n ∧
    gradient_terms length_grad_ex area_grad_ex height_grad_ex sheet_ex = Ok g ∧
    compute_gradient length_grad_ex area_grad_ex height_grad_ex sheet_ex false
      = Ok (Gradient
              (map (λ v, vdiv v n)
                 (zip_with vmul (aggregate sheet_ex g)
                    (map active_mask (vert_df sheet_ex))))).
Proof.
  assert (Hrun : compute_gradient length_grad_ex area_grad_ex height_grad_ex
                   sheet_ex true
                 = Ok (Components [grad_t terms_ex; grad_c terms_ex;
                                   grad_v_srce terms_ex; grad_v_trgt terms_ex]))
    by reflexivity.
  split; [exact Hrun|].
  destruct (compute_gradient_components length_grad_ex area_grad_ex height_grad_ex
              sheet_ex _ Hrun) as (_ & n & g & Hn & Hg & _ & _ & Hdefault).
  exists n, g. split; [exact Hn|]. split; [exact Hg|]. exact Hdefault.
Defined.

Lemma compute_gradient_defined_witness :
  is_Ok (compute_gradient length_grad_ex area_grad_ex height_grad_ex sheet_ex true) ∧
  is_Some (settings sheet_ex !! "nrj_norm_factor") ∧
  anchors_ok sheet_ex.
Proof.
  assert (Hrun : is_Ok (compute_gradient length_grad_ex area_grad_ex height_grad_ex
                          sheet_ex true)).
  { by eexists. }
  split; [exact Hrun|].
  exact (compute_gradient_defined length_grad_ex area_grad_ex height_grad_ex
           sheet_ex true Hrun).
Defined.

Definition anchor_grad_ex : list vec :=
  match anchor_grad sheet_anchored (length_grad_ex sheet_anchored) with
  | Ok ga => ga
  | Raise _ => []
  end.

Lemma anchor_grad_free_edge_witness :
  anchor_grad sheet_anchored (length_grad_ex sheet_anchored) = Ok anchor_grad_ex ∧
  edge_df sheet_anchored !! 0%nat = Some (mkEdge 0 1 0 2 1 0 0 3) ∧
  ∀ g, anchor_grad_ex !! 0%nat = Some g → g = vzero.
Proof.
  split; [reflexivity|]. split; [reflexivity|].
  destruct (anchor_grad_free_edge sheet_anchored (length_grad_ex sheet_anchored)
              anchor_grad_ex 0 (mkEdge 0 1 0 2 1 0 0 3) eq_refl eq_refl eq_refl)
    as (_ & _ & Hzero).
  exact Hzero.
Defined.

End SheetModelMore.

(** * More on [dimentionalize]: what it keeps, and when it returns *)

Module SpecMore.
Import Spec SpecFacts.

Section writes.
Context {num : Type} `{Arith num}.

(** The keys that [dimentionalize] assigns. *)
Definition written : list string :=
  ["contractility"; "prefered_vol"; "line_tension";
   "grad_norm_factor"; "nrj_norm_factor"; "anchor_elasticity"].

(** [h'] is [h1] after assignments of numbers to keys of [written] in
    the objects [L]. *)
Definition writes (L : list positive) (h1 h' : heap num) : Prop :=
  (∀ l k, l ∉ L ∨ k ∉ written → field h' l k = field h1 l k) ∧
  (∀ l, flat h1 l → flat h' l) ∧
  (∀ l, l ∈ dom h1 → l ∈ dom h').

Lemma writes_refl (L : list positive) (h : heap num) : writes L h h.
Proof. by split_and!. Qed.

Lemma writes_store (L : list positive) (h1 h : heap num) l k n :
  writes L h1 h → l ∈ L → k ∈ written →
  writes L h1 (<[l := <[k := VNum n]> (h !!! l)]> h).
Proof.
  intros (Hf & Hflat & Hdom) Hl Hk. split_and!.
  - intros l2 k2 Hne. rewrite field_store.
    rewrite decide_False; [by apply Hf|]. intros [-> ->]. by destruct Hne.
  - intros l2 Hl2 k2 v. rewrite field_store.
    destruct (decide _) as [[-> ->]|]; [intros [= <-]; by eexists|].
    by apply Hflat.
  - intros l2 Hl2. apply elem_of_dom. destruct (decide (l = l2)) as [->|].
    + rewrite lookup_insert_eq. by eexists.
    + rewrite lookup_insert_ne by done. apply elem_of_dom. auto.
Qed.

Lemma not_in_three (x a b c : positive) : a ≠ x → b ≠ x → c ≠ x → x ∉ [a; b; c].
Proof.
  intros. rewrite !not_elem_of_cons.
  split_and!; [congruence..|apply not_elem_of_nil].
Qed.

Ltac read_field :=
  rewrite ?field_store_ne by done; eassumption.

(** The run of [dimentionalize], seen as the copy followed by writes
    into the three copied dictionaries. *)
Lemma dimentionalize_writes limit (h : heap num) l0 lf le ls Kv A0 h0 gamma lbda
    a15 h2 v2 :
  dimensionless h l0 lf le ls Kv A0 h0 gamma lbda →
  in_range A0 h0 a15 h2 v2 →
  ∃ dim h1 yf ye ys h',
    deepcopy (S (S limit)) (VRef l0) h = (Ok (VRef dim), h1) ∧
    copied h h1 dim (VRef lf) (VRef yf) ∧
    copied h h1 dim (VRef le) (VRef ye) ∧
    copied h h1 dim (VRef ls) (VRef ys) ∧
    field h1 dim "face" = Some (VRef yf) ∧
    field h1 dim "edge" = Some (VRef ye) ∧
    field h1 dim "settings" = Some (VRef ys) ∧
    dimentionalize (S (S limit)) (VRef l0) h = (Ok (VRef dim), h') ∧
    writes [yf; ye; ys] h1 h'.
Proof.
  intros (Htwo & Hf & He & Hs & HKv & HA0 & Hh0 & Hg & Hl) (Ha15 & Hh2 & Hv2).
  destruct (copy_two_level limit h l0 Htwo) as (y0 & h1 & Hcopy & Hy0 & Htop).
  pose proof (Htop "face") as Hf1. rewrite Hf in Hf1.
  destruct Hf1 as (vf & Hf1 & Hcf). pose proof Hcf as Hcf'.
  apply copied_field in Hcf as (yf & -> & Hyf).
  pose proof (Htop "edge") as He1. rewrite He in He1.
  destruct He1 as (ve & He1 & Hce). pose proof Hce as Hce'.
  apply copied_field in Hce as (ye & -> & Hye).
  pose proof (Htop "settings") as Hs1. rewrite Hs in Hs1.
  destruct Hs1 as (vs & Hs1 & Hcs). pose proof Hcs as Hcs'.
  apply copied_field in Hcs as (ys & -> & Hys).
  rewrite <- Hyf in HKv, HA0, Hh0, Hg. rewrite <- Hye in Hl.
  exists y0, h1, yf, ye, ys.
  assert (Hrun : ∃ h', dimentionalize (S (S limit)) (VRef l0) h = (Ok (VRef y0), h') ∧
                       writes [yf; ye; ys] h1 h');
    [|destruct Hrun as (h' & Hrun & Hw); exists h'; by split_and!].
  unfold dimentionalize. unfold bind at 1. rewrite Hcopy.
  do 4 (erewrite bind_subscript2 by read_field).
  rewrite !bind_mul. erewrite bind_pow_2 by eassumption. rewrite bind_mul.
  erewrite bind_store2 by read_field.
  rewrite bind_mul. erewrite bind_store2 by read_field.
  erewrite bind_subscript2 by read_field.
  rewrite bind_mul. erewrite bind_pow_1_5 by eassumption.
  rewrite bind_mul. erewrite bind_pow_2 by eassumption. rewrite bind_mul.
  erewrite bind_store2 by read_field.
  erewrite bind_pow_1_5 by eassumption. rewrite bind_mul.
  erewrite bind_pow_2 by eassumption. rewrite bind_mul.
  erewrite bind_store2 by read_field.
  rewrite bind_mul. erewrite bind_pow_2 by eassumption. rewrite bind_mul.
  erewrite bind_store2 by read_field.
  erewrite bind_subscript by read_field.
  rewrite bind_contains. rewrite !field_store_ne by done.
  assert (Hyf_in : yf ∈ [yf; ye; ys]) by (apply list_elem_of_In; simpl; auto).
  assert (Hye_in : ye ∈ [yf; ye; ys]) by (apply list_elem_of_In; simpl; auto).
  assert (Hys_in : ys ∈ [yf; ye; ys]) by (apply list_elem_of_In; simpl; auto).
  destruct (field h1 ye "anchor_elasticity") as [va|] eqn:Ha.
  - rewrite bool_decide_eq_true_2 by eauto.
    assert (∃ ka, va = VNum ka) as [ka ->].
    { destruct Htwo as [_ Htwo]. destruct (Htwo _ _ He) as [_ Hflat].
      apply (Hflat "anchor_elasticity"). by rewrite <- Hye. }
    unfold bind at 1.
    erewrite bind_subscript2 by read_field.
    rewrite !bind_mul. erewrite bind_pow_2 by eassumption. rewrite bind_mul.
    erewrite store2_run by read_field.
    eexists. split; [reflexivity|].
    repeat (apply writes_store; [|done|apply list_elem_of_In; simpl; auto 10]).
    apply writes_refl.
  - rewrite bool_decide_eq_false_2 by (by intros [? ?]).
    unfold bind at 1. unfold ret.
    eexists. split; [reflexivity|].
    repeat (apply writes_store; [|done|apply list_elem_of_In; simpl; auto 10]).
    apply writes_refl.
Qed.

(** X14. Every entry that [dimentionalize] does not assign is carried over:
    when the powers it takes are in range, the returned specification
    has the keys of the input; its numbers are those of the input; its
    dictionaries are new objects that hold, under every key other than
    the six assigned ones, what the dictionary of the input holds. *)
Theorem dimentionalize_keeps_entries limit (h : heap num)
    l0 lf le ls Kv A0 h0 gamma lbda a15 h2 v2 :
  2 ≤ limit →
  dimensionless h l0 lf le ls Kv A0 h0 gamma lbda →
  in_range A0 h0 a15 h2 v2 →
  ∃ dim h',
    dimentionalize limit (VRef l0) h = (Ok (VRef dim), h') ∧
    ∀ k, match field h l0 k with
         | None => field h' dim k = None
         | Some (VNum n) => field h' dim k = Some (VNum n)
         | Some (VRef l) =>
             ∃ y, field h' dim k = Some (VRef y) ∧ (y ∉ dom h) ∧
                  ∀ k2, k2 ∉ written → field h' y k2 = field h l k2
         end.
Proof.
  intros Hlimit Hin Hrange. destruct limit as [|[|limit]]; [lia..|].
  destruct (dimentionalize_writes limit h l0 lf le ls Kv A0 h0 gamma lbda a15 h2 v2
              Hin Hrange)
    as (dim & h1 & yf & ye & ys & h' & Hcopy & Hcf & Hce & Hcs & _ & _ & _ & Hrun
        & Hw & _ & _).
  destruct Hin as (Htwo & _).
  destruct (copy_two_level limit h l0 Htwo) as (y0 & h1' & Hcopy' & Hy0 & Htop).
  rewrite Hcopy in Hcopy'. injection Hcopy' as <- <-.
  exists dim, h'. split; [done|]. intros k.
  assert (Hdim : dim ∉ [yf; ye; ys]).
  { destruct Hcf as (? & [= <-] & ? & _), Hce as (? & [= <-] & ? & _),
      Hcs as (? & [= <-] & ? & _). by apply not_in_three. }
  specialize (Htop k). destruct (field h l0 k) as [[n|l]|].
  - destruct Htop as (v' & Hv' & ->). rewrite Hw by (by left). done.
  - destruct Htop as (v' & Hv' & y & -> & Hyy & Hyh & Hy). exists y.
    split_and!; [by rewrite Hw by (by left)|done|].
    intros k2 Hk2. rewrite Hw by (by right).
    unfold field. by rewrite (lookup_total_alt h1), Hy.
  - by rewrite Hw by (by left).
Qed.

(** The specification that [dimentionalize] returns holds the entries
    that [dimentionalize] reads: the elasticity, area and height it was
    given, and the scaled contractility and line tension. *)
Lemma dimentionalize_output limit (h : heap num) l0 lf le ls Kv A0 h0 gamma lbda
    a15 h2 v2 :
  dimensionless h l0 lf le ls Kv A0 h0 gamma lbda →
  in_range A0 h0 a15 h2 v2 →
  ∃ dim h' yf ye ys,
    dimentionalize (S (S limit)) (VRef l0) h = (Ok (VRef dim), h') ∧
    dimensioned h le Kv A0 h0 gamma lbda a15 h2 v2 h' dim ∧
    dimensionless h' dim yf ye ys Kv A0 h0
      (mul (mul (mul gamma Kv) A0) h2)
      (mul (mul (mul lbda Kv) a15) h2).
Proof.
  intros Hin Hrange.
  destruct (dimentionalize_writes limit h l0 lf le ls Kv A0 h0 gamma lbda a15 h2 v2
              Hin Hrange)
    as (dim & h1 & yf & ye & ys & h' & Hcopy & Hcf & Hce & Hcs & Hf1 & He1 & Hs1
        & Hrun & Hw & Hflat & Hdom).
  destruct (dimentionalize_run limit h l0 lf le ls Kv A0 h0 gamma lbda a15 h2 v2
              Hin Hrange)
    as (dim' & h'' & Hrun' & _ & Hout).
  rewrite Hrun in Hrun'. injection Hrun' as <- <-.
  destruct Hin as (Htwo & Hf & He & Hs & HKv & HA0 & Hh0 & Hg & Hl).
  destruct (copy_two_level limit h l0 Htwo) as (y0 & h1' & Hcopy' & Hy0 & Htop).
  rewrite Hcopy in Hcopy'. injection Hcopy' as <- <-.
  exists dim, h', yf, ye, ys. split; [done|]. split; [done|].
  assert (Hdim : dim ∉ [yf; ye; ys]).
  { destruct Hcf as (? & [= <-] & ? & _), Hce as (? & [= <-] & ? & _),
      Hcs as (? & [= <-] & ? & _). by apply not_in_three. }
  assert (Htopw : ∀ k, field h' dim k = field h1 dim k).
  { intros k. apply Hw. by left. }
  destruct Hout as (yf' & ye' & ys' & Hf' & He' & Hs' & Hc' & _ & Hl' & _).
  rewrite Htopw in Hf', He', Hs'.
  rewrite Hf1 in Hf'. rewrite He1 in He'. rewrite Hs1 in Hs'.
  injection Hf' as <-. injection He' as <-. injection Hs' as <-.
  apply copied_field in Hcf as (yf' & [= <-] & Hyf).
  split_and!.
  - split.
    + apply Hdom. apply elem_of_dom.
      destruct (h1 !! dim) as [d|] eqn:Hd; [by eexists|].
      unfold field in Hf1. rewrite lookup_total_alt, Hd in Hf1. simpl in Hf1.
      by rewrite lookup_empty in Hf1.
    + intros k l. rewrite Htopw. intros Hk. specialize (Htop k).
      destruct (field h l0 k) as [v|] eqn:Hv; [|congruence].
      destruct Htop as (v' & Hv' & Hcp). rewrite Hk in Hv'. injection Hv' as <-.
      destruct v as [n|l']; [done|].
      destruct Hcp as (y & [= <-] & _ & _ & Hy).
      destruct Htwo as [_ Htwo]. destruct (Htwo _ _ Hv) as [_ Hfl].
      split.
      * apply Hdom. apply elem_of_dom. by eexists.
      * apply Hflat. intros k2 w. unfold field.
        rewrite (lookup_total_alt h1), Hy. apply Hfl.
  - by rewrite Htopw.
  - by rewrite Htopw.
  - by rewrite Htopw.
  - rewrite Hw by (right; compute_done). by rewrite Hyf.
  - rewrite Hw by (right; compute_done). by rewrite Hyf.
  - rewrite Hw by (right; compute_done). by rewrite Hyf.
  - done.
  - done.
Qed.

(** X15. [dimentionalize] is not idempotent.  When it returns (the
    powers it takes being in range), its result holds the elasticity,
    area and height that it was given, so that on its own result it
    returns again, with the contractility and the line tension scaled a
    second time. *)
Theorem dimentionalize_twice limit (h : heap num) l0 lf le ls Kv A0 h0 gamma lbda
    a15 h2 v2 :
  2 ≤ limit →
  dimensionless h l0 lf le ls Kv A0 h0 gamma lbda →
  in_range A0 h0 a15 h2 v2 →
  ∃ dim h' dim2 h'' face edge,
    dimentionalize limit (VRef l0) h = (Ok (VRef dim), h') ∧
    dimentionalize limit (VRef dim) h' = (Ok (VRef dim2), h'') ∧
    field h'' dim2 "face" = Some (VRef face) ∧
    field h'' dim2 "edge" = Some (VRef edge) ∧
    field h'' face "contractility"
      = Some (VNum (mul (mul (mul (mul (mul (mul gamma Kv) A0) h2) Kv) A0) h2)) ∧
    field h'' edge "line_tension"
      = Some (VNum (mul (mul (mul (mul (mul (mul lbda Kv) a15) h2) Kv) a15) h2)) ∧
    field h'' face "vol_elasticity" = Some (VNum Kv) ∧
    field h'' face "prefered_area" = Some (VNum A0) ∧
    field h'' face "prefered_height" = Some (VNum h0).
Proof.
  intros Hlimit Hin Hrange. destruct limit as [|[|limit]]; [lia..|].
  destruct (dimentionalize_output limit h l0 lf le ls Kv A0 h0 gamma lbda a15 h2 v2
              Hin Hrange)
    as (dim & h' & yf & ye & ys & Hrun & _ & Hin').
  destruct (dimentionalize_output limit h' dim yf ye ys Kv A0 h0 _ _ a15 h2 v2
              Hin' Hrange)
    as (dim2 & h'' & yf2 & ye2 & ys2 & Hrun2 & Hout2 & Hin'').
  destruct Hout2 as (face & edge & settings & Hf & He & _ & Hc & _ & Hl & _).
  destruct Hin'' as (_ & Hf2 & _ & _ & HKv & HA0 & Hh0 & _ & _).
  rewrite Hf in Hf2. injection Hf2 as <-.
  exists dim, h', dim2, h'', face, edge. by split_and!.
Qed.

(** ** When [dimentionalize] returns *)











End writes.

(** ** Over the reals *)

Section reals.
Local Open Scope R_scope.

(** X17. The two normalization factors that [dimentionalize] writes differ
    by the square root of the prefered area: nrj_norm_factor is
    grad_norm_factor * sqrt(A0).  They are equal only if A0 = 1 or one
    of them is 0. *)
Theorem dimentionalize_factor_ratio limit (h : heap (option R))
    l0 lf le ls (Kv A0 h0 : R) gamma lbda :
  (2 ≤ limit)%nat →
  dimensionless h l0 lf le ls (Some Kv) (Some A0) (Some h0) gamma lbda →
  0 <= A0 →
  ∃ dim h' settings g n,
    dimentionalize limit (VRef l0) h = (Ok (VRef dim), h') ∧
    field h' dim "settings" = Some (VRef settings) ∧
    field h' settings "grad_norm_factor" = Some (VNum (Some g)) ∧
    field h' settings "nrj_norm_factor" = Some (VNum (Some n)) ∧
    n = g * sqrt A0 ∧
    (n = g → A0 = 1 ∨ g = 0).
Proof.
  intros Hlimit Hin HA. destruct limit as [|[|limit]]; [lia..|].
  destruct (dimentionalize_run limit h l0 lf le ls _ _ _ _ _ _ _ _ Hin
              (real_in_range (Some A0) (Some h0)))
    as (dim & h' & Hrun & _ & (yf & ye & ys & _ & _ & Hs & _ & _ & _ & Hg & Hn & _)).
  simpl in Hg, Hn. unfold real_pow_1_5 in Hg.
  destruct (Rle_dec 0 A0) as [_|Hneg]; [|done]. simpl in Hg.
  eexists dim, h', ys, _, _. split_and!; [exact Hrun|exact Hs|exact Hg|exact Hn| |].
  - pose proof (sqrt_sqrt A0 HA) as Hsq. nra.
  - pose proof (sqrt_sqrt A0 HA) as Hsq. pose proof (sqrt_pos A0) as Hsp.
    intros Heq.
    destruct (Req_dec (Kv * (A0 * sqrt A0) * (h0 * h0)) 0) as [Hz|Hnz]; [by right|].
    left.
    assert (Hone : sqrt A0 = 1).
    { assert (Kv * (A0 * sqrt A0) * (h0 * h0) * (sqrt A0 - 1) = 0) by nra.
      apply Rmult_integral in H as [H|H]; [done|lra]. }
    rewrite Hone in Hsq. lra.
Qed.

(** X18. With unit elasticity, area and height, [dimentionalize] changes no
    parameter: contractility, line tension and anchor elasticity are
    returned as given, the prefered volume and both normalization
    factors are 1. *)
Theorem dimentionalize_unit_scales limit (h : heap (option R))
    l0 lf le ls (gamma lbda : R) :
  (2 ≤ limit)%nat →
  dimensionless h l0 lf le ls (Some 1) (Some 1) (Some 1) (Some gamma) (Some lbda) →
  ∃ dim h' face edge settings,
    dimentionalize limit (VRef l0) h = (Ok (VRef dim), h') ∧
    field h' dim "face" = Some (VRef face) ∧
    field h' dim "edge" = Some (VRef edge) ∧
    field h' dim "settings" = Some (VRef settings) ∧
    field h' face "contractility" = Some (VNum (Some gamma)) ∧
    field h' face "prefered_vol" = Some (VNum (Some 1)) ∧
    field h' edge "line_tension" = Some (VNum (Some lbda)) ∧
    field h' settings "grad_norm_factor" = Some (VNum (Some 1)) ∧
    field h' settings "nrj_norm_factor" = Some (VNum (Some 1)) ∧
    ∀ ka, field h le "anchor_elasticity" = Some (VNum (Some ka)) →
          field h' edge "anchor_elasticity" = Some (VNum (Some ka)).
Proof.
  intros Hlimit Hin. destruct limit as [|[|limit]]; [lia..|].
  destruct (dimentionalize_run limit h l0 lf le ls _ _ _ _ _ _ _ _ Hin
              (real_in_range (Some 1) (Some 1)))
    as (dim & h' & Hrun & _ &
        (yf & ye & ys & Hf & He & Hs & Hc & Hv & Hl & Hg & Hn & Ha)).
  simpl in Hc, Hv, Hl, Hg, Hn. unfold real_pow_1_5 in Hl, Hg.
  destruct (Rle_dec 0 1) as [_|Hneg]; [|lra]. simpl in Hl, Hg.
  rewrite sqrt_1 in Hl, Hg.
  exists dim, h', yf, ye, ys.
  split_and!; [exact Hrun|exact Hf|exact He|exact Hs|..].
  - rewrite Hc. do 3 f_equal. lra.
  - rewrite Hv. do 3 f_equal. lra.
  - rewrite Hl. do 3 f_equal. lra.
  - rewrite Hg. do 3 f_equal. lra.
  - rewrite Hn. do 3 f_equal. lra.
  - intros ka Hka. rewrite Ha, Hka. simpl. do 3 f_equal. lra.
Qed.

(** ** The properties on concrete specifications *)

(** [heap_ex] with unit elasticity, area and height. *)
Definition heap_unit : heap (option R) :=
  {[ 1%positive := {[ "face" := VRef 2; "edge" := VRef 3; "settings" := VRef 4 ]};
     2%positive := {[ "vol_elasticity" := VNum (Some 1);
                      "prefered_area" := VNum (Some 1);
                      "prefered_height" := VNum (Some 1);
                      "contractility" := VNum (Some (1 / 2)) ]};
     3%positive := {[ "line_tension" := VNum (Some 5);
                      "anchor_elasticity" := VNum (Some 7) ]};
     4%positive := ∅ ]}.

Lemma heap_unit_dimensionless :
  dimensionless heap_unit 1 2 3 4 (Some 1) (Some 1) (Some 1) (Some (1 / 2)) (Some 5).
Proof.
  split; [apply two_level_b_correct; vm_compute; reflexivity|]. repeat split.
Qed.

Lemma dimentionalize_keeps_entries_witness :
  (2 ≤ 2)%nat ∧
  dimensionless heap_ex 1 2 3 4 (Some 2) (Some 4) (Some 3) (Some (1 / 2)) (Some 5) ∧
  ∃ dim h',
    dimentionalize 2 (VRef 1) heap_ex = (Ok (VRef dim), h') ∧
    ∀ k, match field heap_ex 1 k with
         | None => field h' dim k = None
         | Some (VNum n) => field h' dim k = Some (VNum n)
         | Some (VRef l) =>
             ∃ y, field h' dim k = Some (VRef y) ∧ (y ∉ dom heap_ex) ∧
                  ∀ k2, k2 ∉ written → field h' y k2 = field heap_ex l k2
         end.
Proof.
  split; [lia|]. split; [exact heap_ex_dimensionless|].
  exact (dimentionalize_keeps_entries 2 heap_ex 1 2 3 4 _ _ _ _ _ _ _ _
           (le_n 2) heap_ex_dimensionless (real_in_range (Some 4) (Some 3))).
Defined.

Lemma dimentionalize_twice_witness :
  (2 ≤ 2)%nat ∧
  dimensionless heap_ex 1 2 3 4 (Some 2) (Some 4) (Some 3) (Some (1 / 2)) (Some 5) ∧
  ∃ dim h' dim2 h'' face,
    dimentionalize 2 (VRef 1) heap_ex = (Ok (VRef dim), h') ∧
    dimentionalize 2 (VRef dim) h' = (Ok (VRef dim2), h'') ∧
    field h'' dim2 "face" = Some (VRef face) ∧
    field h'' face "contractility"
      = Some (VNum (mul (mul (mul (mul (mul (mul (Some (1 / 2)) (Some 2)) (Some 4))
                                     (real_pow_2 (Some 3))) (Some 2)) (Some 4))
                      (real_pow_2 (Some 3)))).
Proof.
  split; [lia|]. split; [exact heap_ex_dimensionless|].
  destruct (dimentionalize_twice 2 heap_ex 1 2 3 4 _ _ _ _ _ _ _ _
              (le_n 2) heap_ex_dimensionless (real_in_range (Some 4) (Some 3)))
    as (dim & h' & dim2 & h'' & face & edge & Hrun & Hrun2 & Hf & _ & Hc & _).
  exists dim, h', dim2, h'', face. split; [exact Hrun|]. split; [exact Hrun2|].
  split; [exact Hf|exact Hc].
Defined.


Lemma dimentionalize_factor_ratio_witness :
  (2 ≤ 2)%nat ∧
  dimensionless heap_ex 1 2 3 4 (Some 2) (Some 4) (Some 3) (Some (1 / 2)) (Some 5) ∧
  0 <= 4 ∧
  ∃ dim h' settings g n,
    dimentionalize 2 (VRef 1) heap_ex = (Ok (VRef dim), h') ∧
    field h' settings "grad_norm_factor" = Some (VNum (Some g)) ∧
    field h' settings "nrj_norm_factor" = Some (VNum (Some n)) ∧
    n = g * sqrt 4.
Proof.
  assert (H4 : 0 <= 4) by lra.
  split; [lia|]. split; [exact heap_ex_dimensionless|]. split; [exact H4|].
  destruct (dimentionalize_factor_ratio 2 heap_ex 1 2 3 4 2 4 3 _ _
              (le_n 2) heap_ex_dimensionless H4)
    as (dim & h' & settings & g & n & Hrun & _ & Hg & Hn & Hratio & _).
  exists dim, h', settings, g, n. split; [exact Hrun|]. split; [exact Hg|].
  split; [exact Hn|exact Hratio].
Defined.

Lemma dimentionalize_unit_scales_witness :
  (2 ≤ 2)%nat ∧
  dimensionless heap_unit 1 2 3 4 (Some 1) (Some 1) (Some 1) (Some (1 / 2)) (Some 5) ∧
  ∃ dim h' face edge,
    dimentionalize 2 (VRef 1) heap_unit = (Ok (VRef dim), h') ∧
    field h' face "contractility" = Some (VNum (Some (1 / 2))) ∧
    field h' edge "line_tension" = Some (VNum (Some 5)) ∧
    field h' edge "anchor_elasticity" = Some (VNum (Some 7)).
Proof.
  split; [lia|]. split; [exact heap_unit_dimensionless|].
  destruct (dimentionalize_unit_scales 2 heap_unit 1 2 3 4 (1 / 2) 5
              (le_n 2) heap_unit_dimensionless)
    as (dim & h' & face & edge & settings & Hrun & _ & _ & _ & Hc & _ & Hl & _ & _ & Ha).
  exists dim, h', face, edge. split; [exact Hrun|]. split; [exact Hc|].
  split; [exact Hl|]. apply Ha. reflexivity.
Defined.

End reals.

End SpecMore.
